(** * WENOEXT: the limiter of [WENOUpwindFit] and the [WENOBase] store

    A shallow embedding of

    - [WENOUpwindFit.H]: the constructors, [zeroFlux], [weights] and both
      versions of [calcLimiter] (the template over [Type] and the
      specialisation for [scalar]);
    - [WENOBase.H]: the function-local static of [WENOBase::instance] and
      the table accessors.

    Labels are natural numbers.  A [List<T>] is a [list T]; [l !!! i] is the
    unchecked [l[i]] of the source (out of range: the inhabitant of [T],
    where C++ has undefined behaviour) and [<[i:=x]> l] is the assignment
    [l[i] = x].  The arithmetic of [scalar] is an interface ([Scalar]) with
    two instances: the doubles of IEEE 754 ([double_scalar], what
    [Foam::scalar] is in double precision) and the rationals ([Q_scalar],
    the same formulas without rounding, overflow, infinities and NaN).  A
    statement over the rationals holds of the program only where rounding
    cannot change it. *)

From Stdlib Require String.
From Stdlib Require Import QArith Qabs Lqa Lia.
From Stdlib Require Import Floats.
From stdpp Require Import base list.

Set Default Proof Using "Type".

(** ** Scalars *)

(** What the limiter uses of [Foam::scalar]: the constants, the four
    operations, [mag], the comparisons, the threshold [1e-10] of the
    limiter and the two bounds of [pTraits<scalar>]. *)
Class Scalar (S : Type) := {
  s_zero : S;
  s_one : S;
  s_add : S → S → S;
  s_sub : S → S → S;
  s_mul : S → S → S;
  s_div : S → S → S;
  mag : S → S;
  s_lt : S → S → bool;
  s_le : S → S → bool;
  s_small : S;
  pTraits_min : S;
  pTraits_max : S
}.

Declare Scope scalar_scope.
Delimit Scope scalar_scope with S.
Notation "x + y" := (s_add x y) : scalar_scope.
Notation "x - y" := (s_sub x y) : scalar_scope.
Notation "x * y" := (s_mul x y) : scalar_scope.
Notation "x / y" := (s_div x y) : scalar_scope.
Notation "x <? y" := (s_lt x y) : scalar_scope.
Notation "x >? y" := (s_lt y x) : scalar_scope.
Notation "x >=? y" := (s_le y x) : scalar_scope.

(** A [label] that indexes cells, faces, patches or components. *)
Abbreviation label := nat (only parsing).

(** [x < y] on the rationals, as a test. *)
Definition Qlt_bool (x y : Q) : bool := negb (Qle_bool y x).

(** [VGREAT] of OpenFOAM in double precision, [1.0e+300]. *)
Definition VGREAT : Q := inject_Z (10 ^ 300).

(** Exact arithmetic. *)
#[export] Instance Q_scalar : Scalar Q := {|
  s_zero := 0%Q;
  s_one := 1%Q;
  s_add := Qplus;
  s_sub := Qminus;
  s_mul := Qmult;
  s_div := Qdiv;
  mag := Qabs;
  s_lt := Qlt_bool;
  s_le := Qle_bool;
  s_small := (1 # 10000000000)%Q;
  pTraits_min := (- VGREAT)%Q;
  pTraits_max := VGREAT
|}.

Section Primitives.
Context {S : Type} `{Scalar S}.

#[export] Instance scalar_inhabited : Inhabited S := populate s_zero.

(** [min(s1, s2)] and [max(s1, s2)] of [Scalar.H]. *)
Definition min (s1 s2 : S) : S := if (s1 <? s2)%S then s1 else s2.
Definition max (s1 s2 : S) : S := if (s1 >? s2)%S then s1 else s2.

(** [pos(s)]: [1] for [s >= 0], else [0]. *)
Definition pos (s : S) : S := if (s >=? s_zero)%S then s_one else s_zero.

(** [max(f)] and [min(f)] of a field: a fold from [f[0]], and the bound
    of [pTraits] for an empty field. *)
Definition maxField (f : list S) : S :=
  match f with
  | [] => pTraits_min
  | f0 :: _ => foldl (λ Max x, max x Max) f0 f
  end.

Definition minField (f : list S) : S :=
  match f with
  | [] => pTraits_max
  | f0 :: _ => foldl (λ Min x, min x Min) f0 f
  end.
End Primitives.

(** ** Mesh and fields *)

(** A patch of the boundary: the cells at its faces, and whether it is a
    coupled patch (processor, cyclic). *)
Record fvPatch := {
  faceCells : list label;
  patchCoupled : bool
}.

(** [owner] and [neighbour] are [fvMesh::owner()] and
    [fvMesh::neighbour()]: the addressing of the internal faces. *)
Record fvMesh := {
  cells : list (list label);
  owner : list label;
  neighbour : list label;
  boundary : list fvPatch
}.

Definition nCells (mesh : fvMesh) : nat := length (cells mesh).
Definition nInternalFaces (mesh : fvMesh) : nat := length (owner mesh).

Record fvsPatchField (T : Type) := {
  coupled : bool;
  patchValues : list T
}.
Arguments coupled {T} _.
Arguments patchValues {T} _.

(** A surface field: the values on the internal faces ([tsf[faceI]]) and
    one patch field per boundary patch. *)
Record surfaceField (T : Type) := {
  primitiveField : list T;
  boundaryField : list (fvsPatchField T)
}.
Arguments primitiveField {T} _.
Arguments boundaryField {T} _.

Record fvPatchField (T : Type) := {
  patchNeighbourField : list T
}.
Arguments patchNeighbourField {T} _.

Record volField (T : Type) := {
  internalField : list T;
  volBoundaryField : list (fvPatchField T)
}.
Arguments internalField {T} _.
Arguments volBoundaryField {T} _.

#[export] Instance fvPatch_inhabited : Inhabited fvPatch :=
  populate {| faceCells := []; patchCoupled := false |}.
#[export] Instance fvsPatchField_inhabited {T} : Inhabited (fvsPatchField T) :=
  populate {| coupled := false; patchValues := [] |}.
#[export] Instance fvPatchField_inhabited {T} : Inhabited (fvPatchField T) :=
  populate {| patchNeighbourField := [] |}.

(** [forAll(l, i) { l[i] = g(i, l[i]); }] for [i] below [n]: a loop whose
    [i]-th pass reads and assigns slot [i] of the list, and no other slot of
    it.  Every loop of [calcLimiter] over [theta], over [tsfP], over a
    patch field and over the components of a value is of this form. *)
Definition forAll_upd {A} `{Inhabited A} (n : nat) (g : nat → A → A)
    (l : list A) : list A :=
  foldl (λ l i, <[i := g i (l !!! i)]> l) l (seq 0 n).

(** ** The scheme *)

Record WENOUpwindFit (S : Type) := {
  faceFlux_ : surfaceField S;
  polOrder_ : S;
  limFac_ : S
}.
Arguments faceFlux_ {S} _.
Arguments polOrder_ {S} _.
Arguments limFac_ {S} _.

Section Scheme.
Context {S : Type} `{Scalar S}.

(** [zeroFlux()]: the surface field of the mesh with the uniform
    value [0.0]. *)
Definition zeroFlux (mesh : fvMesh) : surfaceField S := {|
  primitiveField := replicate (nInternalFaces mesh) s_zero;
  boundaryField :=
    (λ p, {| coupled := patchCoupled p;
             patchValues := replicate (length (faceCells p)) s_zero |})
      <$> boundary mesh
|}.

(** The constructor from the mesh, the face flux and the two scalars
    read from the stream.  The member [faceFlux_] is a reference: the
    record holds the field it refers to, which is the caller's and
    outlives the scheme.  The constructor from the mesh and the order
    alone binds the reference to a temporary; see [Lifetime]. *)
Definition constructFromFlux (faceFlux : surfaceField S)
    (polOrder limFac : S) : WENOUpwindFit S := {|
  faceFlux_ := faceFlux;
  polOrder_ := polOrder;
  limFac_ := limFac
|}.

(** [weights(vf)] returns [pos(faceFlux_)], on the internal faces and on
    every patch. *)
Definition weights {T} (sch : WENOUpwindFit S) (vf : volField T)
    : surfaceField S := {|
  primitiveField := pos <$> primitiveField (faceFlux_ sch);
  boundaryField :=
    (λ p, {| coupled := coupled p; patchValues := pos <$> patchValues p |})
      <$> boundaryField (faceFlux_ sch)
|}.

(** The two assignments of every branch with a flux:
    [x = limFac*(theta*(t - v) + v) + (1.0 - limFac)*t; x -= v]. *)
Definition limited (limFac theta t v : S) : S :=
  let x := (limFac * (theta * (t - v) + v) + (s_one - limFac) * t)%S in
  (x - v)%S.

(** [argMax], [argMin] and the coefficient [theta] of one cell. *)
Definition arg (extPhi extP v : S) : S :=
  if (mag (extP - v) <? s_small)%S then s_one
  else mag ((extPhi - v) / (extP - v))%S.

Definition thetaOf (maxPhi minPhi maxP minP v : S) : S :=
  let argMax := arg maxPhi maxP v in
  let argMin := arg minPhi minP v in
  min (min argMax argMin) s_one.

(** One face of the scan of a cell: [t] is the reconstruction on the
    side of the cell. *)
Definition widen (t : S) (mm : S * S) : S * S :=
  if (t >? mm.1)%S then (t, mm.2)
  else if (t <? mm.2)%S then (mm.1, t)
  else mm.
End Scheme.

(** ** [WENOUpwindFit<scalar>::calcLimiter] *)

Module Specialised.
Section CalcLimiter.
Context {S : Type} `{Scalar S}.
Variable sch : WENOUpwindFit S.
Variable mesh : fvMesh.

(** The body of [forAll(faces, fI)] for the face [f = faces[fI]] of
    cell [cellI]: [mm] is [(maxP, minP)]. *)
Definition scanFace (tsfP tsfN : list S) (cellI : label) (mm : S * S)
    (f : label) : S * S :=
  if f <? nInternalFaces mesh then
    if cellI =? owner mesh !!! f then widen (tsfP !!! f) mm
    else widen (tsfN !!! f) mm
  else mm.

(** [maxP] and [minP] of cell [cellI] after the loop over its faces,
    both started at [vfI[cellI]]. *)
Definition scanCell (vfI tsfP tsfN : list S) (cellI : label) : S * S :=
  foldl (scanFace tsfP tsfN cellI) (vfI !!! cellI, vfI !!! cellI)
    (cells mesh !!! cellI).

(** The value assigned to [theta[cellI]]. *)
Definition thetaCell (vfI tsfP tsfN : list S) (cellI : label) : S :=
  let mm := scanCell vfI tsfP tsfN cellI in
  thetaOf (maxField vfI) (minField vfI) mm.1 mm.2 (vfI !!! cellI).

(** The field [theta(mesh.nCells(), 0.0)] after the loop over the
    cells. *)
Definition calcTheta (vfI tsfP tsfN : list S) : list S :=
  forAll_upd (nCells mesh) (λ cellI _, thetaCell vfI tsfP tsfN cellI)
    (replicate (nCells mesh) s_zero).

(** The body of [forAll(P, faceI)]: the value assigned to
    [tsfP[faceI]], which held [t]. *)
Definition limitFace (vfI theta tsfN : list S) (faceI : label) (t : S) : S :=
  let flux := primitiveField (faceFlux_ sch) !!! faceI in
  if (flux >? s_zero)%S then
    let own := owner mesh !!! faceI in
    limited (limFac_ sch) (theta !!! own) t (vfI !!! own)
  else if (flux <? s_zero)%S then
    let nei := neighbour mesh !!! faceI in
    limited (limFac_ sch) (theta !!! nei) (tsfN !!! faceI) (vfI !!! nei)
  else s_zero.

(** The body of [forAll(pOwner, faceI)] on a coupled patch: the value
    assigned to [pbtsfP[faceI]], which held [t]. *)
Definition limitPatchFace (vfI theta : list S) (pOwner : list label)
    (pFaceFlux vfN pbtsfN : list S) (faceI : label) (t : S) : S :=
  let own := pOwner !!! faceI in
  if (pFaceFlux !!! faceI >? s_zero)%S then
    limited (limFac_ sch) (theta !!! own) t (vfI !!! own)
  else if (pFaceFlux !!! faceI <? s_zero)%S then
    limited (limFac_ sch) s_one (pbtsfN !!! faceI) (vfN !!! faceI)
  else s_zero.

(** The body of [forAll(tsfP.boundaryField(), patchI)]: the patch
    field [pbtsfP] afterwards. *)
Definition limitPatch (vf : volField S) (theta : list S)
    (tsfN : surfaceField S) (patchI : label) (pbtsfP : fvsPatchField S)
    : fvsPatchField S :=
  let pbtsfN := boundaryField tsfN !!! patchI in
  if coupled pbtsfP then
    let pOwner := faceCells (boundary mesh !!! patchI) in
    let pFaceFlux := patchValues (boundaryField (faceFlux_ sch) !!! patchI) in
    let vfN := patchNeighbourField (volBoundaryField vf !!! patchI) in
    {| coupled := coupled pbtsfP;
       patchValues :=
         forAll_upd (length pOwner)
           (limitPatchFace (internalField vf) theta pOwner pFaceFlux vfN
              (patchValues pbtsfN))
           (patchValues pbtsfP) |}
  else pbtsfP.

(** [tsfP] after the call: the coefficients from the fields as
    passed, then the loop over the internal faces, then the loop over
    the patches. *)
Definition calcLimiter (vf : volField S) (tsfP tsfN : surfaceField S)
    : surfaceField S :=
  let vfI := internalField vf in
  let theta := calcTheta vfI (primitiveField tsfP) (primitiveField tsfN) in
  {| primitiveField :=
       forAll_upd (length (owner mesh))
         (limitFace vfI theta (primitiveField tsfN)) (primitiveField tsfP);
     boundaryField :=
       forAll_upd (length (boundaryField tsfP)) (limitPatch vf theta tsfN)
         (boundaryField tsfP) |}.
End CalcLimiter.
End Specialised.

(** ** [WENOUpwindFit<Type>::calcLimiter]

    A value of [Type] is the list of its components. *)

Module Templated.
Section CalcLimiter.
Context {S : Type} `{Scalar S}.
Variable sch : WENOUpwindFit S.
Variable mesh : fvMesh.

(** [nComp = vfI[0].size()]. *)
Definition nComp (vfI : list (list S)) : nat := length (vfI !!! 0).

(** [pTraits<Type>::zero], and [max] and [min] of two values and of a
    field, component by component. *)
Definition zeroT (n : nat) : list S := replicate n s_zero.

Definition maxFieldT (n : nat) (f : list (list S)) : list S :=
  match f with
  | [] => replicate n pTraits_min
  | f0 :: _ => foldl (λ Max x, zip_with max x Max) f0 f
  end.

Definition minFieldT (n : nat) (f : list (list S)) : list S :=
  match f with
  | [] => replicate n pTraits_max
  | f0 :: _ => foldl (λ Min x, zip_with min x Min) f0 f
  end.

(** The two comparisons of a face for component [cI], assigning
    [maxP[cI]] or [minP[cI]]. *)
Definition widenC (cI : label) (t : S) (mm : list S * list S)
    : list S * list S :=
  if (t >? mm.1 !!! cI)%S then (<[cI := t]> mm.1, mm.2)
  else if (t <? mm.2 !!! cI)%S then (mm.1, <[cI := t]> mm.2)
  else mm.

Definition scanFace (tsfP tsfN : list (list S)) (cellI cI : label)
    (mm : list S * list S) (f : label) : list S * list S :=
  if f <? nInternalFaces mesh then
    if cellI =? owner mesh !!! f then widenC cI ((tsfP !!! f) !!! cI) mm
    else widenC cI ((tsfN !!! f) !!! cI) mm
  else mm.

(** One pass of the loop over the components of a cell: [maxP], [minP]
    and the row [theta[cellI]]. *)
Definition thetaComp (vfI tsfP tsfN : list (list S)) (cellI : label)
    (st : list S * list S * list S) (cI : label)
    : list S * list S * list S :=
  let mm :=
    foldl (scanFace tsfP tsfN cellI cI) (st.1.1, st.1.2)
      (cells mesh !!! cellI) in
  let n := nComp vfI in
  (mm.1, mm.2,
   <[cI := thetaOf (maxFieldT n vfI !!! cI) (minFieldT n vfI !!! cI)
             (mm.1 !!! cI) (mm.2 !!! cI) ((vfI !!! cellI) !!! cI)]> st.2).

(** The row [theta[cellI]], which held [th], after the loop over the
    components; [maxP] and [minP] start at [vfI[cellI]]. *)
Definition thetaCell (vfI tsfP tsfN : list (list S)) (cellI : label)
    (th : list S) : list S :=
  (foldl (thetaComp vfI tsfP tsfN cellI)
     (vfI !!! cellI, vfI !!! cellI, th) (seq 0 (nComp vfI))).2.

(** The field [theta(mesh.nCells(), pTraits<Type>::zero)] after the
    loop over the cells. *)
Definition calcTheta (vfI tsfP tsfN : list (list S)) : list (list S) :=
  forAll_upd (nCells mesh) (thetaCell vfI tsfP tsfN)
    (replicate (nCells mesh) (zeroT (nComp vfI))).

(** The body of [forAll(P, faceI)]: the value of [tsfP[faceI]], which
    held [t], after the loop over its components, or
    [pTraits<Type>::zero]. *)
Definition limitFace (vfI theta tsfN : list (list S)) (faceI : label)
    (t : list S) : list S :=
  let flux := primitiveField (faceFlux_ sch) !!! faceI in
  if (flux >? s_zero)%S then
    let own := owner mesh !!! faceI in
    forAll_upd (nComp vfI)
      (λ cI tc, limited (limFac_ sch) ((theta !!! own) !!! cI) tc
                  ((vfI !!! own) !!! cI)) t
  else if (flux <? s_zero)%S then
    let nei := neighbour mesh !!! faceI in
    forAll_upd (nComp vfI)
      (λ cI _, limited (limFac_ sch) ((theta !!! nei) !!! cI)
                 ((tsfN !!! faceI) !!! cI) ((vfI !!! nei) !!! cI)) t
  else zeroT (nComp vfI).

(** The same for face [faceI] of a coupled patch. *)
Definition limitPatchFace (vfI theta : list (list S)) (pOwner : list label)
    (pFaceFlux : list S) (vfN pbtsfN : list (list S)) (faceI : label)
    (t : list S) : list S :=
  let own := pOwner !!! faceI in
  if (pFaceFlux !!! faceI >? s_zero)%S then
    forAll_upd (nComp vfI)
      (λ cI tc, limited (limFac_ sch) ((theta !!! own) !!! cI) tc
                  ((vfI !!! own) !!! cI)) t
  else if (pFaceFlux !!! faceI <? s_zero)%S then
    forAll_upd (nComp vfI)
      (λ cI _, limited (limFac_ sch) s_one ((pbtsfN !!! faceI) !!! cI)
                 ((vfN !!! faceI) !!! cI)) t
  else zeroT (nComp vfI).

Definition limitPatch (vf : volField (list S)) (theta : list (list S))
    (tsfN : surfaceField (list S)) (patchI : label)
    (pbtsfP : fvsPatchField (list S)) : fvsPatchField (list S) :=
  let pbtsfN := boundaryField tsfN !!! patchI in
  if coupled pbtsfP then
    let pOwner := faceCells (boundary mesh !!! patchI) in
    let pFaceFlux := patchValues (boundaryField (faceFlux_ sch) !!! patchI) in
    let vfN := patchNeighbourField (volBoundaryField vf !!! patchI) in
    {| coupled := coupled pbtsfP;
       patchValues :=
         forAll_upd (length pOwner)
           (limitPatchFace (internalField vf) theta pOwner pFaceFlux vfN
              (patchValues pbtsfN))
           (patchValues pbtsfP) |}
  else pbtsfP.

Definition calcLimiter (vf : volField (list S))
    (tsfP tsfN : surfaceField (list S)) : surfaceField (list S) :=
  let vfI := internalField vf in
  let theta := calcTheta vfI (primitiveField tsfP) (primitiveField tsfN) in
  {| primitiveField :=
       forAll_upd (length (owner mesh))
         (limitFace vfI theta (primitiveField tsfN)) (primitiveField tsfP);
     boundaryField :=
       forAll_upd (length (boundaryField tsfP)) (limitPatch vf theta tsfN)
         (boundaryField tsfP) |}.
End CalcLimiter.
End Templated.

(** ** Fields mapped value by value *)

Definition liftPatch {T U} (f : T → U) (p : fvsPatchField T)
    : fvsPatchField U :=
  {| coupled := coupled p; patchValues := f <$> patchValues p |}.

Definition liftSurface {T U} (f : T → U) (sf : surfaceField T)
    : surfaceField U :=
  {| primitiveField := f <$> primitiveField sf;
     boundaryField := liftPatch f <$> boundaryField sf |}.

Definition liftVol {T U} (f : T → U) (vf : volField T) : volField U :=
  {| internalField := f <$> internalField vf;
     volBoundaryField :=
       (λ p, {| patchNeighbourField := f <$> patchNeighbourField p |})
         <$> volBoundaryField vf |}.

(** The value with the single component [x]. *)
Definition one_component {S} (x : S) : list S := [x].

(** ** Meshes and fields that fit together *)

(** The addressing of an internal face: owner below neighbour, both cells
    of the mesh, and the face among the faces of both. *)
Definition faceOk (mesh : fvMesh) (f : label) : bool :=
  let P := owner mesh !!! f in
  let N := neighbour mesh !!! f in
  (P <? N) && (N <? nCells mesh)
  && bool_decide (f ∈ cells mesh !!! P) && bool_decide (f ∈ cells mesh !!! N).

(** The cells at the faces of a patch are cells of the mesh. *)
Definition patchOk (mesh : fvMesh) (p : fvPatch) : bool :=
  forallb (λ c, c <? nCells mesh) (faceCells p).

Definition meshOk (mesh : fvMesh) : bool :=
  (length (neighbour mesh) =? nInternalFaces mesh)
  && forallb (faceOk mesh) (seq 0 (nInternalFaces mesh))
  && forallb (patchOk mesh) (boundary mesh).

(** A surface field of the mesh: one value per internal face, one patch
    field per patch, coupled where the patch is, one value per face of
    the patch. *)
Definition surfaceOk {T} (mesh : fvMesh) (sf : surfaceField T) : bool :=
  (length (primitiveField sf) =? nInternalFaces mesh)
  && (length (boundaryField sf) =? length (boundary mesh))
  && forallb
       (λ pp, bool_decide (coupled pp.2 = patchCoupled pp.1)
              && (length (patchValues pp.2) =? length (faceCells pp.1)))
       (zip (boundary mesh) (boundaryField sf)).

(** A volume field of the mesh: one value per cell, and one exchanged
    value per face of every coupled patch. *)
Definition volOk {T} (mesh : fvMesh) (vf : volField T) : bool :=
  (length (internalField vf) =? nCells mesh)
  && (length (volBoundaryField vf) =? length (boundary mesh))
  && forallb
       (λ pp, implb (patchCoupled pp.1)
                (length (patchNeighbourField pp.2) =? length (faceCells pp.1)))
       (zip (boundary mesh) (volBoundaryField vf)).

(** ** The face value and the neighbourhood of its donor cell *)

Section FaceValue.
Context {S : Type} `{Scalar S}.

(** With the weights [pos(faceFlux_)] the donor of an internal face is
    its owner for a flux [>= 0] and its neighbour otherwise. *)
Definition donor (sch : WENOUpwindFit S) (mesh : fvMesh) (faceI : label)
    : label :=
  if (primitiveField (faceFlux_ sch) !!! faceI >=? s_zero)%S
  then owner mesh !!! faceI else neighbour mesh !!! faceI.

(** The donor-cell average plus the correction. *)
Definition faceValue (sch : WENOUpwindFit S) (mesh : fvMesh)
    (vf : volField S) (corr : surfaceField S) (faceI : label) : S :=
  (internalField vf !!! donor sch mesh faceI
   + primitiveField corr !!! faceI)%S.

(** The provisional reconstruction on the upwind side. *)
Definition upwind (sch : WENOUpwindFit S) (tsfP tsfN : surfaceField S)
    (faceI : label) : S :=
  if (primitiveField (faceFlux_ sch) !!! faceI >=? s_zero)%S
  then primitiveField tsfP !!! faceI else primitiveField tsfN !!! faceI.

(** The same on face [faceI] of patch [patchI]: the donor is the cell
    at the face for a flux [>= 0] and the cell behind the patch
    otherwise. *)
Definition patchDonorValue (sch : WENOUpwindFit S) (mesh : fvMesh)
    (vf : volField S) (patchI faceI : label) : S :=
  if (patchValues (boundaryField (faceFlux_ sch) !!! patchI) !!! faceI
      >=? s_zero)%S
  then internalField vf !!! (faceCells (boundary mesh !!! patchI) !!! faceI)
  else patchNeighbourField (volBoundaryField vf !!! patchI) !!! faceI.

(** The donor average plus the correction on the face of a patch. *)
Definition patchFaceValue (sch : WENOUpwindFit S) (mesh : fvMesh)
    (vf : volField S) (corr : surfaceField S) (patchI faceI : label) : S :=
  (patchDonorValue sch mesh vf patchI faceI
   + patchValues (boundaryField corr !!! patchI) !!! faceI)%S.

(** The provisional reconstruction on the upwind side of the face of a
    patch. *)
Definition patchUpwind (sch : WENOUpwindFit S) (tsfP tsfN : surfaceField S)
    (patchI faceI : label) : S :=
  if (patchValues (boundaryField (faceFlux_ sch) !!! patchI) !!! faceI
      >=? s_zero)%S
  then patchValues (boundaryField tsfP !!! patchI) !!! faceI
  else patchValues (boundaryField tsfN !!! patchI) !!! faceI.

(** The reconstruction at face [f] on the side of cell [cellI]. *)
Definition side (mesh : fvMesh) (tsfP tsfN : list S) (cellI f : label)
    : S :=
  if cellI =? owner mesh !!! f then tsfP !!! f else tsfN !!! f.

(** The average of the cell on the other side of an internal face. *)
Definition acrossFace (mesh : fvMesh) (vfI : list S) (c f : label)
    : list S :=
  if f <? nInternalFaces mesh then
    [vfI !!! (if c =? owner mesh !!! f then neighbour mesh !!! f
              else owner mesh !!! f)]
  else [].

(** The exchanged averages behind the faces of a coupled patch at
    cell [c]. *)
Definition acrossPatch (c : label) (p : fvPatch) (pf : fvPatchField S)
    : list S :=
  if patchCoupled p then
    zip (faceCells p) (patchNeighbourField pf)
      ≫= (λ ox, if ox.1 =? c then [ox.2] else [])
  else [].

(** The averages of the immediate neighbourhood of cell [c]: the cell,
    the cells across its internal faces, and the exchanged values across
    its coupled faces. *)
Definition neighbourhood (mesh : fvMesh) (vf : volField S) (c : label)
    : list S :=
  internalField vf !!! c
  :: ((cells mesh !!! c) ≫= acrossFace mesh (internalField vf) c)
  ++ mjoin (zip_with (acrossPatch c) (boundary mesh) (volBoundaryField vf)).
End FaceValue.

(** ** The faces that [calcLimiter] assigns *)

(** An internal face, or face [faceI] of patch [patchI]. *)
Inductive face :=
  | internalFace (faceI : label)
  | patchFace (patchI faceI : label).

(** The value of a surface field at a face. *)
Definition at_face {T} `{Inhabited T} (sf : surfaceField T) (f : face) : T :=
  match f with
  | internalFace faceI => primitiveField sf !!! faceI
  | patchFace patchI faceI =>
      patchValues (boundaryField sf !!! patchI) !!! faceI
  end.

(** The same where the field has a value for the face. *)
Definition face_lookup {T} (sf : surfaceField T) (f : face) : option T :=
  match f with
  | internalFace faceI => primitiveField sf !! faceI
  | patchFace patchI faceI =>
      boundaryField sf !! patchI ≫= λ p, patchValues p !! faceI
  end.

(** The faces within the ranges of the loops of [calcLimiter] over
    the field [tsfP]: the internal faces, and the faces of the patches
    whose patch field is coupled. *)
Definition assigned {T} (mesh : fvMesh) (tsfP : surfaceField T) (f : face)
    : bool :=
  match f with
  | internalFace faceI =>
      (faceI <? nInternalFaces mesh)
      && (faceI <? length (primitiveField tsfP))
  | patchFace patchI faceI =>
      (patchI <? length (boundaryField tsfP))
      && coupled (boundaryField tsfP !!! patchI)
      && (faceI <? length (faceCells (boundary mesh !!! patchI)))
      && (faceI <? length (patchValues (boundaryField tsfP !!! patchI)))
  end.

Section AtFace.
Context {S : Type} `{Scalar S}.

(** The face value (donor average plus correction) and the upwind
    provisional reconstruction at either kind of face. *)
Definition valueAt (sch : WENOUpwindFit S) (mesh : fvMesh)
    (vf : volField S) (corr : surfaceField S) (f : face) : S :=
  match f with
  | internalFace faceI => faceValue sch mesh vf corr faceI
  | patchFace patchI faceI => patchFaceValue sch mesh vf corr patchI faceI
  end.

Definition upwindAt (sch : WENOUpwindFit S) (tsfP tsfN : surfaceField S)
    (f : face) : S :=
  match f with
  | internalFace faceI => upwind sch tsfP tsfN faceI
  | patchFace patchI faceI => patchUpwind sch tsfP tsfN patchI faceI
  end.
End AtFace.

(** Component [cI] of a value of [Type]. *)
Definition component {S} `{Scalar S} (cI : label) (x : list S) : S :=
  x !!! cI.

(** ** Properties of an input and of a correction, in exact arithmetic *)

Section Properties.
Local Open Scope Q_scope.

(** The face value of every internal face lies between the least and
    the greatest average of the neighbourhood of its donor. *)
Definition within_neighbourhood (sch : WENOUpwindFit Q) (mesh : fvMesh)
    (vf : volField Q) (corr : surfaceField Q) : Prop :=
  ∀ faceI, (faceI < nInternalFaces mesh)%nat →
    let nb := neighbourhood mesh vf (donor sch mesh faceI) in
    minField nb <= faceValue sch mesh vf corr faceI <= maxField nb.

(** Fields with the value [c] everywhere. *)
Definition uniformSurface (c : Q) (sf : surfaceField Q) : Prop :=
  Forall (λ x, x == c) (primitiveField sf)
  ∧ Forall (λ p, Forall (λ x, x == c) (patchValues p)) (boundaryField sf).

Definition uniformVol (c : Q) (vf : volField Q) : Prop :=
  Forall (λ x, x == c) (internalField vf)
  ∧ Forall (λ p, Forall (λ x, x == c) (patchNeighbourField p))
      (volBoundaryField vf).

(** A correction that is zero on every internal face and on every face
    of a coupled patch. *)
Definition zeroCorrection (corr : surfaceField Q) : Prop :=
  Forall (λ x, x == 0) (primitiveField corr)
  ∧ Forall (λ p, coupled p = true → Forall (λ x, x == 0) (patchValues p))
      (boundaryField corr).

Definition unit_interval (x : Q) : Prop := 0 <= x <= 1.
End Properties.

(** ** [WENOBase] *)

Module WENOBase.
Section Store.
Context {S : Type}.

Definition point : Type := S * S * S.
Definition volIntegralType : Type := list (list (list S)).
Definition scalarRectangularMatrix : Type := list (list S).

(** The private data of the class. *)
Record t := {
  Dir_ : String.string;
  dimList_ : list (list label);
  polOrder_ : label;
  nDvt_ : label;
  stencilsID_ : list (list (list label));
  haloCenters_ : list (list point);
  ownHalos_ : list (list label);
  cellToPatchMap_ : list (list (list Z));
  patchToProcMap_ : list Z;
  volIntegralsList_ : list volIntegralType;
  intBasTrans_ : list (list volIntegralType);
  refFacAr_ : list (list S);
  JInv_ : list scalarRectangularMatrix;
  refDet_ : list S;
  refPoint_ : list point;
  LSmatrix_ : list (list scalarRectangularMatrix);
  B_ : list scalarRectangularMatrix
}.

(** The function-local [static WENOBase instance_]: not yet
    initialised, or the object built by the first call. *)
Definition static : Type := option t.

(** [instance(mesh, polOrder)] over the state of the static: the
    initialiser [instance_(mesh, polOrder)] runs in the first call only.
    [build] is the private constructor, which is in [WENOBase.C]. *)
Definition instance (build : fvMesh → label → t) (mesh : fvMesh)
    (polOrder : label) (instance_ : static) : t * static :=
  match instance_ with
  | Some b => (b, instance_)
  | None => let b := build mesh polOrder in (b, Some b)
  end.

(** A sequence of calls; the returned references in order. *)
Fixpoint calls (build : fvMesh → label → t)
    (keys : list (fvMesh * label)) (instance_ : static)
    : list t * static :=
  match keys with
  | [] => ([], instance_)
  | k :: keys =>
      let r := instance build k.1 k.2 instance_ in
      let rs := calls build keys r.2 in
      (r.1 :: rs.1, rs.2)
  end.

(** The accessors return the address of a table: the store itself is
    returned as it was. *)
Definition getPointerStencilID (b : t) := (stencilsID_ b, b).
Definition getPointerCellToPatchMap (b : t) := (cellToPatchMap_ b, b).
Definition getPointerPatchToProcMap (b : t) := (patchToProcMap_ b, b).
Definition getPointerHaloCenters (b : t) := (haloCenters_ b, b).
Definition getPointerOwnHalos (b : t) := (ownHalos_ b, b).
Definition getPointerLSmatrix (b : t) := (LSmatrix_ b, b).
Definition getPointerB (b : t) := (B_ b, b).
Definition getPointerIntBasTrans (b : t) := (intBasTrans_ b, b).
Definition getPointerRefFacAr (b : t) := (refFacAr_ b, b).
Definition getPointerDimList (b : t) := (dimList_ b, b).

(** A cache keyed by the mesh and the order: the first call builds the
    store of its key, a second call with that key returns it, and a call
    with another key returns the store of that other key. *)
Definition keyed (build : fvMesh → label → t) : Prop :=
  ∀ mesh1 polOrder1 mesh2 polOrder2,
    let first := instance build mesh1 polOrder1 None in
    first.1 = build mesh1 polOrder1
    ∧ (instance build mesh1 polOrder1 first.2).1 = first.1
    ∧ ((mesh1, polOrder1) ≠ (mesh2, polOrder2) →
       (instance build mesh2 polOrder2 first.2).1 = build mesh2 polOrder2).

(** A constructor that keeps the order and leaves every table empty. *)
Definition emptyTables (mesh : fvMesh) (polOrder : label) : t := {|
  Dir_ := String.EmptyString; dimList_ := []; polOrder_ := polOrder; nDvt_ := 0; stencilsID_ := [];
  haloCenters_ := []; ownHalos_ := []; cellToPatchMap_ := [];
  patchToProcMap_ := []; volIntegralsList_ := []; intBasTrans_ := [];
  refFacAr_ := []; JInv_ := []; refDet_ := []; refPoint_ := [];
  LSmatrix_ := []; B_ := []
|}.
End Store.
Arguments t : clear implicits.
Arguments static : clear implicits.
End WENOBase.

(** ** [calcLimiter] as a procedure on the objects it is given *)

Module Procedure.
Section Run.
Context {S T Theta : Type} `{Scalar S} `{Inhabited T}.

(** What a call can reach: the three fields passed by reference, the
    scheme object (with [faceFlux_]) and the static store. *)
Record World := {
  w_vf : volField T;
  w_tsfP : surfaceField T;
  w_tsfN : surfaceField T;
  w_scheme : WENOUpwindFit S;
  w_store : WENOBase.static S
}.

(** [tsfP[faceI] = x]. *)
Definition assignFace (faceI : label) (x : T) (w : World) : World := {|
  w_vf := w_vf w;
  w_tsfP :=
    {| primitiveField := <[faceI := x]> (primitiveField (w_tsfP w));
       boundaryField := boundaryField (w_tsfP w) |};
  w_tsfN := w_tsfN w;
  w_scheme := w_scheme w;
  w_store := w_store w
|}.

(** [pbtsfP[faceI] = x] for the patch field [pbtsfP] of patch
    [patchI]. *)
Definition assignPatchFace (patchI faceI : label) (x : T) (w : World)
    : World :=
  let pbtsfP := boundaryField (w_tsfP w) !!! patchI in
  {|
    w_vf := w_vf w;
    w_tsfP :=
      {| primitiveField := primitiveField (w_tsfP w);
         boundaryField :=
           <[patchI := {| coupled := coupled pbtsfP;
                          patchValues := <[faceI := x]> (patchValues pbtsfP) |}]>
             (boundaryField (w_tsfP w)) |};
    w_tsfN := w_tsfN w;
    w_scheme := w_scheme w;
    w_store := w_store w
  |}.

Variable mesh : fvMesh.

(** The parts in which the template and the specialisation differ: the
    loop of the coefficients and the right-hand sides of the
    assignments. *)
Variable thetaF : list T → list T → list T → Theta.
Variable faceF :
  WENOUpwindFit S → list T → Theta → list T → label → T → T.
Variable patchF :
  WENOUpwindFit S → list T → Theta → list label → list S → list T →
  list T → label → T → T.

(** The world with another [tsfP]. *)
Definition with_tsfP (w : World) (sf : surfaceField T) : World := {|
  w_vf := w_vf w; w_tsfP := sf; w_tsfN := w_tsfN w;
  w_scheme := w_scheme w; w_store := w_store w
|}.

(** What the loop over the patches does to one patch field. *)
Definition patchRule (w : World) (theta : Theta) (patchI : label)
    (pb : fvsPatchField T) : fvsPatchField T :=
  if coupled pb then
    {| coupled := coupled pb;
       patchValues :=
         forAll_upd (length (faceCells (boundary mesh !!! patchI)))
           (patchF (w_scheme w) (internalField (w_vf w)) theta
              (faceCells (boundary mesh !!! patchI))
              (patchValues (boundaryField (faceFlux_ (w_scheme w)) !!! patchI))
              (patchNeighbourField (volBoundaryField (w_vf w) !!! patchI))
              (patchValues (boundaryField (w_tsfN w) !!! patchI)))
           (patchValues pb) |}
  else pb.

Definition faceStep (theta : Theta) (w : World) (faceI : label) : World :=
  assignFace faceI
    (faceF (w_scheme w) (internalField (w_vf w)) theta
       (primitiveField (w_tsfN w)) faceI
       (primitiveField (w_tsfP w) !!! faceI)) w.

Definition patchFaceStep (theta : Theta) (patchI : label) (w : World)
    (faceI : label) : World :=
  let pbtsfP := boundaryField (w_tsfP w) !!! patchI in
  let pbtsfN := boundaryField (w_tsfN w) !!! patchI in
  let pOwner := faceCells (boundary mesh !!! patchI) in
  let pFaceFlux :=
    patchValues (boundaryField (faceFlux_ (w_scheme w)) !!! patchI) in
  let vfN := patchNeighbourField (volBoundaryField (w_vf w) !!! patchI) in
  assignPatchFace patchI faceI
    (patchF (w_scheme w) (internalField (w_vf w)) theta pOwner pFaceFlux
       vfN (patchValues pbtsfN) faceI (patchValues pbtsfP !!! faceI)) w.

Definition patchStep (theta : Theta) (w : World) (patchI : label) : World :=
  if coupled (boundaryField (w_tsfP w) !!! patchI) then
    foldl (patchFaceStep theta patchI) w
      (seq 0 (length (faceCells (boundary mesh !!! patchI))))
  else w.

Definition run (w : World) : World :=
  let theta :=
    thetaF (internalField (w_vf w)) (primitiveField (w_tsfP w))
      (primitiveField (w_tsfN w)) in
  let w1 := foldl (faceStep theta) w (seq 0 (length (owner mesh))) in
  foldl (patchStep theta) w1 (seq 0 (length (boundaryField (w_tsfP w1)))).
End Run.
Arguments World : clear implicits.

(** The two versions of [calcLimiter] as procedures. *)
Definition specialised {S} `{Scalar S} (mesh : fvMesh)
    : World S S → World S S :=
  run mesh (Specialised.calcTheta mesh)
    (λ sch, Specialised.limitFace sch mesh)
    (λ sch, Specialised.limitPatchFace sch).

Definition templated {S} `{Scalar S} (mesh : fvMesh)
    : World S (list S) → World S (list S) :=
  run mesh (Templated.calcTheta mesh)
    (λ sch, Templated.limitFace sch mesh)
    (λ sch, Templated.limitPatchFace sch).
End Procedure.

(** ** A mesh of three cells *)

Module Line.
Local Open Scope Q_scope.

(** Cells 0, 1 and 2 in a row.  Face 0 lies between cells 0 and 1, face
    1 between cells 1 and 2; face 2 closes cell 0 on a patch that is not
    coupled, face 3 closes cell 2 on a coupled patch. *)
Definition mesh : fvMesh := {|
  cells := [[2; 0]; [0; 1]; [1; 3]]%nat;
  owner := [0; 1]%nat;
  neighbour := [1; 2]%nat;
  boundary := [ {| faceCells := [0%nat]; patchCoupled := false |};
                {| faceCells := [2%nat]; patchCoupled := true |} ]
|}.

(** A surface field from the values on faces 0 and 1, on the face of
    the first patch and on the face of the coupled patch. *)
Definition surface {T} (internal : list T) (closed shared : T)
    : surfaceField T := {|
  primitiveField := internal;
  boundaryField := [ {| coupled := false; patchValues := [closed] |};
                     {| coupled := true; patchValues := [shared] |} ]
|}.

(** A volume field from the averages of the cells and the average of
    the cell behind the coupled patch. *)
Definition volume {T} (averages : list T) (behind : T) : volField T := {|
  internalField := averages;
  volBoundaryField := [ {| patchNeighbourField := [] |};
                        {| patchNeighbourField := [behind] |} ]
|}.

(** Flow from cell 0 to cell 2 and out through the coupled patch. *)
Definition rightward : surfaceField Q := surface [1; 1] (-1) 1.

(** Flow in through the coupled patch. *)
Definition leftward : surfaceField Q := surface [-1; -1] 1 (-1).

(** No flow through face 0 and through the coupled patch. *)
Definition stagnant : surfaceField Q := surface [0; 1] 0 0.

(** The limited scheme, and a field with a jump between cells 1 and 2
    whose reconstruction overshoots at face 0. *)
Definition limitedScheme : WENOUpwindFit Q :=
  constructFromFlux rightward 2 1.
Definition jump : volField Q := volume [0; 0; 10] 10.
Definition jumpP : surfaceField Q := surface [5; 0] 0 10.
Definition jumpN : surfaceField Q := surface [0; 10] 0 10.

(** A flat field whose reconstructions on the coupled patch are not. *)
Definition flat : volField Q := volume [0; 0; 0] 0.
Definition flatP : surfaceField Q := surface [0; 0] 0 7.
Definition flatN : surfaceField Q := surface [0; 0] 0 7.

(** A reconstruction above the greatest average by less than [1e-10]. *)
Definition level : volField Q := volume [1; 1; 1] 1.
Definition levelP : surfaceField Q :=
  surface [1 + (5 # 100000000000); 1] 1 1.
Definition levelN : surfaceField Q := surface [1; 1] 1 1.

(** A uniform field. *)
Definition uniform : volField Q := volume [3; 3; 3] 3.
Definition uniformP : surfaceField Q := surface [3; 3] 3 3.

(** A field of two components. *)
Definition pair (x : Q) : list Q := [x; x + 1].
End Line.

(** ** More about the corrections *)

(** The shape of a surface field: its values forgotten, the number of
    internal faces, the patches, their flags and their sizes kept. *)
Definition shape {T} (sf : surfaceField T) : surfaceField () :=
  liftSurface (λ _, ()) sf.

Section DonorValue.
Context {S : Type} `{Scalar S}.

(** The average of the donor of a face of either kind. *)
Definition donorValueAt (sch : WENOUpwindFit S) (mesh : fvMesh)
    (vf : volField S) (f : face) : S :=
  match f with
  | internalFace faceI => internalField vf !!! donor sch mesh faceI
  | patchFace patchI faceI => patchDonorValue sch mesh vf patchI faceI
  end.
End DonorValue.

(** Values with [n] components. *)
Definition components {S} (n : nat) (l : list (list S)) : Prop :=
  Forall (λ v, length v = n) l.

(** A surface field of values with [n] components. *)
Definition surfaceComponents {S} (n : nat) (sf : surfaceField (list S))
    : Prop :=
  components n (primitiveField sf)
  ∧ Forall (λ p, components n (patchValues p)) (boundaryField sf).

(** ** More fields on the mesh of three cells *)

Module Grid.
Local Open Scope Q_scope.

(** The fields of two components of [Line.jump]. *)
Definition jump2 : volField (list Q) := liftVol Line.pair Line.jump.
Definition jumpP2 : surfaceField (list Q) := liftSurface Line.pair Line.jumpP.
Definition jumpN2 : surfaceField (list Q) := liftSurface Line.pair Line.jumpN.

(** What a call on these fields can reach, before any scheme has asked
    for the store. *)
Definition world : Procedure.World Q Q := {|
  Procedure.w_vf := Line.jump;
  Procedure.w_tsfP := Line.jumpP;
  Procedure.w_tsfN := Line.jumpN;
  Procedure.w_scheme := Line.limitedScheme;
  Procedure.w_store := None
|}.

Definition world2 : Procedure.World Q (list Q) := {|
  Procedure.w_vf := jump2;
  Procedure.w_tsfP := jumpP2;
  Procedure.w_tsfN := jumpN2;
  Procedure.w_scheme := Line.limitedScheme;
  Procedure.w_store := None
|}.
End Grid.

(** ** The loops of [calcLimiter] in another order *)

(** [Procedure.run] with the order of the visits made a parameter: the
    internal faces are visited in the order [faces], the patches in the
    order [patches], and the faces of patch [patchI] in the order
    [patchFaces patchI].  The coefficients are computed before the loops,
    as in the source. *)
Module Reordered.
Section Run.
Context {S T Theta : Type} `{Scalar S} `{Inhabited T}.
Variable mesh : fvMesh.
Variable thetaF : list T → list T → list T → Theta.
Variable faceF :
  WENOUpwindFit S → list T → Theta → list T → label → T → T.
Variable patchF :
  WENOUpwindFit S → list T → Theta → list label → list S → list T →
  list T → label → T → T.
Variables faces patches : list label.
Variable patchFaces : label → list label.

Definition patchStep (theta : Theta) (w : Procedure.World S T)
    (patchI : label) : Procedure.World S T :=
  if coupled (boundaryField (Procedure.w_tsfP w) !!! patchI) then
    foldl (Procedure.patchFaceStep mesh patchF theta patchI) w
      (patchFaces patchI)
  else w.

Definition run (w : Procedure.World S T) : Procedure.World S T :=
  let theta :=
    thetaF (internalField (Procedure.w_vf w))
      (primitiveField (Procedure.w_tsfP w))
      (primitiveField (Procedure.w_tsfN w)) in
  let w1 := foldl (Procedure.faceStep faceF theta) w faces in
  foldl (patchStep theta) w1 patches.
End Run.
End Reordered.

(** ** Double precision *)

(** Decimal literals stand for the nearest double, as in C++. *)
#[local] Set Warnings "-inexact-float".

(** [Foam::scalar] in double precision: the binary64 numbers of IEEE 754
    with the operations of the processor, rounding to nearest, ties to
    even, every operation rounded by itself (a product and a sum are not
    fused into one operation).  [1e-10] is the double nearest to it, as
    the literal of the source is; [VGREAT] is [1.0e+300]. *)
#[export] Instance double_scalar : Scalar float := {|
  s_zero := 0%float;
  s_one := 1%float;
  s_add := PrimFloat.add;
  s_sub := PrimFloat.sub;
  s_mul := PrimFloat.mul;
  s_div := PrimFloat.div;
  mag := PrimFloat.abs;
  s_lt := PrimFloat.ltb;
  s_le := PrimFloat.leb;
  s_small := 1e-10%float;
  pTraits_min := (-1e300)%float;
  pTraits_max := 1e300%float
|}.

(** [x] and [y] are the same double, a zero of either sign counting as
    zero. *)
Definition same (x y : float) : Prop := x = y ∨ (x =? y)%float = true.

(** A finite double, seen through its specification [Prim2SF]: a zero of
    either sign, or a mantissa and an exponent within the bounds of
    binary64. *)
Variant shape_of (x : float) : Prop :=
  | is_zero_of (s : bool) : Prim2SF x = S754_zero s → shape_of x
  | is_regular (s : bool) (m : positive) (e : Z) :
      Prim2SF x = S754_finite s m e → bounded prec emax m e = true →
      shape_of x.

(** ** Vocabulary of the statements *)

(** Fields with the value [c] everywhere. *)
Definition constantSurface {T} (c : T) (sf : surfaceField T) : Prop :=
  Forall (eq c) (primitiveField sf)
  ∧ Forall (λ p, Forall (eq c) (patchValues p)) (boundaryField sf).

Definition constantVol {T} (c : T) (vf : volField T) : Prop :=
  Forall (eq c) (internalField vf)
  ∧ Forall (λ p, Forall (eq c) (patchNeighbourField p)) (volBoundaryField vf).

Section Branches.
Context {S : Type} `{Scalar S}.

(** The flux of a face is neither [> 0] nor [< 0]: the last branch of
    the assignments. *)
Definition noFlux (x : S) : bool :=
  negb (x >? s_zero)%S && negb (x <? s_zero)%S.

(** The cell whose average and coefficient the assignment of a face
    reads: the owner for a flux [> 0], on an internal face the
    neighbour for a flux [< 0], and no cell otherwise. *)
Definition readCell (sch : WENOUpwindFit S) (mesh : fvMesh) (f : face)
    : option label :=
  let flux := at_face (faceFlux_ sch) f in
  match f with
  | internalFace faceI =>
      if (flux >? s_zero)%S then Some (owner mesh !!! faceI)
      else if (flux <? s_zero)%S then Some (neighbour mesh !!! faceI)
      else None
  | patchFace patchI faceI =>
      if (flux >? s_zero)%S
      then Some (faceCells (boundary mesh !!! patchI) !!! faceI)
      else None
  end.

(** The coefficient that the assignment of a face multiplies with:
    [theta] of the cell it reads, and [1.0] on a face of a coupled
    patch with a flux [< 0]. *)
Definition thetaAt (sch : WENOUpwindFit S) (mesh : fvMesh)
    (vf : volField S) (tsfP tsfN : surfaceField S) (f : face) : S :=
  match readCell sch mesh f with
  | Some c =>
      Specialised.calcTheta mesh (internalField vf) (primitiveField tsfP)
        (primitiveField tsfN) !!! c
  | None => s_one
  end.

(** [theta*(t - v) + v], the limited value that the first assignment
    of a face multiplies with [limFac_]. *)
Definition limitedValueAt (sch : WENOUpwindFit S) (mesh : fvMesh)
    (vf : volField S) (tsfP tsfN : surfaceField S) (f : face) : S :=
  let v := donorValueAt sch mesh vf f in
  let t := upwindAt sch tsfP tsfN f in
  (thetaAt sch mesh vf tsfP tsfN f * (t - v) + v)%S.
End Branches.

(** ** The lifetime of the flux of a scheme *)

(** The member [faceFlux_] is a [const surfaceScalarField&].  The objects
    it can refer to are kept in a store, by address; an object that has
    been destroyed leaves [None] at its address. *)
Module Lifetime.
Section Objects.
Context {S : Type} `{Scalar S}.

Definition store : Type := list (option (surfaceField S)).

(** The scheme object with its reference. *)
Record scheme := {
  faceFlux_ref : nat;
  polOrder_ : S;
  limFac_ : S
}.

(** [new surfaceScalarField(...)]: the object and its address. *)
Definition alloc (sf : surfaceField S) (st : store) : nat * store :=
  (length st, st ++ [Some sf]).

(** The destructor of the [tmp] that owns the object at [a]. *)
Definition destroy (a : nat) (st : store) : store := <[a := None]> st.

(** The constructor from the mesh and the polynomial order:
    [faceFlux_(zeroFlux())].  [zeroFlux()] returns a [tmp] that owns a
    new field; the reference is bound to that field, and the [tmp] is
    destroyed, with the field, when the initialisation of the member
    ends.  [ofLabel] is the conversion of the label to a scalar. *)
Definition construct (ofLabel : label → S) (mesh : fvMesh)
    (polOrder : label) (st : store) : scheme * store :=
  let '(a, st1) := alloc (zeroFlux mesh) st in
  ({| faceFlux_ref := a; polOrder_ := ofLabel polOrder;
      limFac_ := s_zero |},
   destroy a st1).

(** The field behind the reference, where it is alive. *)
Definition deref (st : store) (sch : scheme) : option (surfaceField S) :=
  mjoin (st !! faceFlux_ref sch).

(** The scheme with the field it refers to. *)
Definition resolve (st : store) (sch : scheme)
    : option (WENOUpwindFit S) :=
  (λ sf, constructFromFlux sf (polOrder_ sch) (limFac_ sch))
    <$> deref st sch.

(** The constructor from the mesh, the face flux and the stream: the
    reference is bound to the field of the caller, at [a]. *)
Definition constructFromFlux (a : nat) (polOrder limFac : S) : scheme :=
  {| faceFlux_ref := a; polOrder_ := polOrder; limFac_ := limFac |}.

(** Whether a call of [calcLimiter] reads [faceFlux_]: it does on
    every internal face and on every coupled patch. *)
Definition readsFlux {T} (mesh : fvMesh) (tsfP : surfaceField T) : bool :=
  (0 <? length (owner mesh))
  || existsb coupled (boundaryField tsfP).

(** [calcLimiter] on a scheme object: without a result where it reads
    a flux that has been destroyed. *)
Definition calcLimiter (st : store) (sch : scheme) (mesh : fvMesh)
    (vf : volField S) (tsfP tsfN : surfaceField S)
    : option (surfaceField S) :=
  match resolve st sch with
  | Some s => Some (Specialised.calcLimiter s mesh vf tsfP tsfN)
  | None => if readsFlux mesh tsfP then None else Some tsfP
  end.
End Objects.
Arguments store : clear implicits.
Arguments scheme : clear implicits.
End Lifetime.

(** ** Fields of doubles on the mesh of three cells *)

Module Doubles.
Local Open Scope float_scope.

(** Flow from cell 0 to cell 2 and out through the coupled patch, and
    the other way. *)
Definition rightward : surfaceField float := Line.surface [1; 1] (-1) 1.
Definition leftward : surfaceField float := Line.surface [-1; -1] 1 (-1).

(** No flow through face 0 and through the coupled patch. *)
Definition stagnant : surfaceField float := Line.surface [0; 1] 0 0.

(** The uniform field [0.1]. *)
Definition tenth : volField float := Line.volume [0.1; 0.1; 0.1] 0.1.
Definition tenthP : surfaceField float := Line.surface [0.1; 0.1] 0.1 0.1.

(** The averages [0.7] and the reconstructions [0.1]. *)
Definition high : volField float := Line.volume [0.7; 0.7; 0.7] 0.7.
Definition lowP : surfaceField float := Line.surface [0.1; 0.1] 0.1 0.1.

(** A jump between cells 1 and 2 and a reconstruction at face 0 that
    exceeds the greatest average. *)
Definition jump : volField float := Line.volume [0; 0; 10] 10.
Definition jump' : volField float := Line.volume [0; 7; 10] 10.
Definition jumpP : surfaceField float := Line.surface [15; 0] 0 10.
Definition jumpN : surfaceField float := Line.surface [0; 10] 0 10.

(** A field of two components. *)
Definition pair (x : float) : list float := [x; x + 1].
End Doubles.

(** * Proofs *)

Section Loops.
Context {A : Type} `{Inhabited A}.
Implicit Types (l : list A) (g : nat → A → A).

Lemma forAll_upd_S n g l :
  forAll_upd (S n) g l
  = <[n := g n (forAll_upd n g l !!! n)]> (forAll_upd n g l).
Proof. unfold forAll_upd. by rewrite seq_S, foldl_app. Qed.

Lemma forAll_upd_length n g l : length (forAll_upd n g l) = length l.
Proof.
  induction n as [|n IH]; [done|].
  by rewrite forAll_upd_S, length_insert.
Qed.

Lemma forAll_upd_lookup n g l i :
  forAll_upd n g l !! i
  = (λ x, if decide (i < n) then g i x else x) <$> l !! i.
Proof.
  induction n as [|n IH].
  - change (forAll_upd 0 g l) with l.
    by destruct (l !! i).
  - rewrite forAll_upd_S. destruct (decide (i = n)) as [->|Hne].
    + destruct (l !! n) as [x|] eqn:Hx; simpl.
      * rewrite list_lookup_insert_eq
          by (rewrite forAll_upd_length; by eapply lookup_lt_Some).
        rewrite list_lookup_total_alt, IH. simpl.
        rewrite decide_False, decide_True by lia. done.
      * rewrite list_insert_ge
          by (rewrite forAll_upd_length; by apply lookup_ge_None).
        by rewrite IH.
    + rewrite list_lookup_insert_ne, IH by done.
      destruct (l !! i) as [x|]; simpl; [|done].
      destruct (decide (i < n)).
      * by rewrite decide_True by lia.
      * by rewrite decide_False by lia.
Qed.

Lemma forAll_upd_lookup_total n g l i :
  i < n → i < length l → forAll_upd n g l !!! i = g i (l !!! i).
Proof.
  intros Hn Hl. rewrite !list_lookup_total_alt, forAll_upd_lookup.
  destruct (lookup_lt_is_Some_2 l i Hl) as [x ->]. simpl.
  case_decide; [done|lia].
Qed.


Lemma forAll_upd_Forall (P : A → Prop) n g l :
  Forall P l → (∀ i x, i < n → P x → P (g i x)) → Forall P (forAll_upd n g l).
Proof.
  intros Hl Hg. apply Forall_lookup. intros i y.
  rewrite forAll_upd_lookup.
  destruct (l !! i) as [x|] eqn:Hx; simpl; [|done].
  intros [= <-]. pose proof (Forall_lookup_1 _ _ _ _ Hl Hx).
  case_decide; auto.
Qed.
End Loops.

Lemma forAll_upd_fmap {A B} `{Inhabited A} `{Inhabited B} (f : A → B)
    n (g : nat → A → A) (g' : nat → B → B) (l : list A) :
  (∀ i x, i < n → l !! i = Some x → g' i (f x) = f (g i x)) →
  forAll_upd n g' (f <$> l) = f <$> forAll_upd n g l.
Proof.
  intros Hg. apply list_eq. intros i.
  rewrite list_lookup_fmap, !forAll_upd_lookup, list_lookup_fmap.
  destruct (l !! i) as [x|] eqn:Hx; simpl; [|done].
  case_decide; [|done]. f_equal. by apply Hg.
Qed.

Ltac unfold_scalar :=
  cbn [s_zero s_one s_add s_sub s_mul s_div mag s_lt s_le s_small
       pTraits_min pTraits_max Q_scalar] in *.

Section ExactArithmetic.
Local Open Scope Q_scope.

Lemma Qlt_bool_true x y : Qlt_bool x y = true ↔ x < y.
Proof.
  unfold Qlt_bool. rewrite negb_true_iff.
  split.
  - intros Hf. apply Qnot_le_lt. intros Hle.
    apply Qle_bool_iff in Hle. congruence.
  - intros Hlt. destruct (Qle_bool y x) eqn:E; [|done].
    apply Qle_bool_iff in E. lra.
Qed.

Lemma Qlt_bool_false x y : Qlt_bool x y = false ↔ y <= x.
Proof.
  unfold Qlt_bool. rewrite negb_false_iff. apply Qle_bool_iff.
Qed.

Lemma Qlt_bool_zero_l x : x == 0 → Qlt_bool 0 x = false.
Proof. intros E. apply Qlt_bool_false. lra. Qed.

Lemma Qlt_bool_zero_r x : x == 0 → Qlt_bool x 0 = false.
Proof. intros E. apply Qlt_bool_false. lra. Qed.

(** The three branches on the sign of a flux. *)
Lemma flux_cases (f : Q) :
  (0 < f ∧ Qlt_bool 0 f = true ∧ Qle_bool 0 f = true)
  ∨ (f < 0 ∧ Qlt_bool 0 f = false ∧ Qlt_bool f 0 = true
     ∧ Qle_bool 0 f = false)
  ∨ (f == 0 ∧ Qlt_bool 0 f = false ∧ Qlt_bool f 0 = false
     ∧ Qle_bool 0 f = true).
Proof.
  destruct (Qlt_bool 0 f) eqn:E1; [left|right].
  - apply Qlt_bool_true in E1. split_and!; [done..|].
    apply Qle_bool_iff. lra.
  - apply Qlt_bool_false in E1.
    destruct (Qlt_bool f 0) eqn:E2; [left|right].
    + apply Qlt_bool_true in E2. split_and!; [done..|].
      destruct (Qle_bool 0 f) eqn:E; [|done].
      apply Qle_bool_iff in E. lra.
    + apply Qlt_bool_false in E2. split_and!; [lra|done..|].
      apply Qle_bool_iff. lra.
Qed.

Lemma min_spec (a b : Q) :
  (a < b ∧ min a b = a) ∨ (b <= a ∧ min a b = b).
Proof.
  unfold min. unfold_scalar. destruct (Qlt_bool a b) eqn:E.
  - left. by apply Qlt_bool_true in E.
  - right. by apply Qlt_bool_false in E.
Qed.

Lemma max_spec (a b : Q) :
  (b < a ∧ max a b = a) ∨ (a <= b ∧ max a b = b).
Proof.
  unfold max. unfold_scalar. destruct (Qlt_bool b a) eqn:E.
  - left. by apply Qlt_bool_true in E.
  - right. by apply Qlt_bool_false in E.
Qed.

Lemma arg_nonneg (extPhi extP v : Q) : 0 <= arg extPhi extP v.
Proof.
  unfold arg. unfold_scalar.
  destruct (Qlt_bool _ _); [lra | apply Qabs_nonneg].
Qed.

Lemma thetaOf_cases (maxPhi minPhi maxP minP v : Q) :
  let th := thetaOf maxPhi minPhi maxP minP v in
  0 <= th ∧ th <= 1 ∧ th <= arg maxPhi maxP v ∧ th <= arg minPhi minP v.
Proof.
  pose proof (arg_nonneg maxPhi maxP v) as HM.
  pose proof (arg_nonneg minPhi minP v) as Hm.
  unfold thetaOf. cbv zeta.
  destruct (min_spec (arg maxPhi maxP v) (arg minPhi minP v))
    as [[H1 ->]|[H1 ->]];
  [ destruct (min_spec (arg maxPhi maxP v) s_one) as [[H2 ->]|[H2 ->]]
  | destruct (min_spec (arg minPhi minP v) s_one) as [[H2 ->]|[H2 ->]] ];
  unfold_scalar; repeat split; lra.
Qed.

Lemma thetaOf_range (maxPhi minPhi maxP minP v : Q) :
  0 <= thetaOf maxPhi minPhi maxP minP v <= 1.
Proof.
  destruct (thetaOf_cases maxPhi minPhi maxP minP v) as (?&?&_). by split.
Qed.

(** Extremes of a field. *)
Lemma maxField_fold_ge (f : list Q) (M : Q) :
  M <= foldl (λ Max x, max x Max) M f
  ∧ Forall (λ x, x <= foldl (λ Max x, max x Max) M f) f.
Proof.
  revert M. induction f as [|x f IH]; intros M; simpl.
  - split; [lra | constructor].
  - destruct (IH (max x M)) as [H1 H2].
    destruct (max_spec x M) as [[Hlt E]|[Hle E]]; rewrite E in *.
    + split; [lra|]. constructor; [lra | done].
    + split; [lra|]. constructor; [lra | done].
Qed.

Lemma minField_fold_le (f : list Q) (m : Q) :
  foldl (λ Min x, min x Min) m f <= m
  ∧ Forall (λ x, foldl (λ Min x, min x Min) m f <= x) f.
Proof.
  revert m. induction f as [|x f IH]; intros m; simpl.
  - split; [lra | constructor].
  - destruct (IH (min x m)) as [H1 H2].
    destruct (min_spec x m) as [[Hlt E]|[Hle E]]; rewrite E in *.
    + split; [lra|]. constructor; [lra | done].
    + split; [lra|]. constructor; [lra | done].
Qed.

Lemma maxField_ge (f : list Q) i x : f !! i = Some x → x <= maxField f.
Proof.
  intros Hx. destruct f as [|f0 f]; [done|]. unfold maxField.
  destruct (maxField_fold_ge (f0 :: f) f0) as [_ HF].
  by apply (Forall_lookup_1 _ _ _ _ HF Hx).
Qed.

Lemma minField_le (f : list Q) i x : f !! i = Some x → minField f <= x.
Proof.
  intros Hx. destruct f as [|f0 f]; [done|]. unfold minField.
  destruct (minField_fold_le (f0 :: f) f0) as [_ HF].
  by apply (Forall_lookup_1 _ _ _ _ HF Hx).
Qed.

(** [limited] in exact arithmetic. *)
Lemma limited_eq (lim th t v : Q) :
  limited lim th t v == lim * (th * (t - v)) + (1 - lim) * (t - v).
Proof. unfold limited. unfold_scalar. ring. Qed.

Lemma limited_zero_factor (lim th t v : Q) :
  lim == 0 → v + limited lim th t v == t.
Proof. intros E. rewrite limited_eq, E. ring. Qed.

Lemma limited_uniform (lim th t v : Q) :
  t == v → limited lim th t v == 0.
Proof. intros E. rewrite limited_eq, E. ring. Qed.

(** An [arg] that is not set to one is the quotient of the distances to
    the extremes. *)
Lemma arg_above (maxPhi maxP v : Q) :
  v <= maxPhi → v <= maxP →
  (maxP - v < s_small ∧ arg maxPhi maxP v = 1)
  ∨ (s_small <= maxP - v
     ∧ arg maxPhi maxP v * (maxP - v) == maxPhi - v).
Proof.
  intros H1 H2. unfold arg. unfold_scalar.
  destruct (Qlt_bool _ _) eqn:E.
  - left. apply Qlt_bool_true in E.
    rewrite Qabs_pos in E by lra. done.
  - right. apply Qlt_bool_false in E.
    rewrite Qabs_pos in E by lra.
    assert (0 < maxP - v) by lra.
    split; [done|].
    rewrite Qabs_pos.
    + field. lra.
    + apply Qle_shift_div_l; lra.
Qed.
End ExactArithmetic.

Ltac flux_cases_of f H E1 E2 E3 :=
  destruct (flux_cases f) as
    [(H & E1 & E3) | [(H & E1 & E2 & E3) | (H & E1 & E2 & E3)]].

Section ExactArithmetic.
Local Open Scope Q_scope.

Lemma arg_below (minPhi minP v : Q) :
  minPhi <= v → minP <= v →
  (v - minP < s_small ∧ arg minPhi minP v = 1)
  ∨ (s_small <= v - minP
     ∧ arg minPhi minP v * (v - minP) == v - minPhi).
Proof.
  intros H1 H2. unfold arg. unfold_scalar.
  destruct (Qlt_bool _ _) eqn:E.
  - left. apply Qlt_bool_true in E.
    rewrite Qabs_neg in E by lra. split; [lra | done].
  - right. apply Qlt_bool_false in E.
    rewrite Qabs_neg in E by lra.
    assert (0 < v - minP) by lra.
    split; [lra|].
    assert ((minPhi - v) / (minP - v) == (v - minPhi) / (v - minP)) as ->
      by (field; lra).
    rewrite Qabs_pos.
    + field. lra.
    + apply Qle_shift_div_l; lra.
Qed.

(** The limited value stays within the extremes of the whole field, up
    to the threshold below which an [arg] is set to one. *)
Lemma limited_within (lim maxPhi minPhi maxP minP v t : Q) :
  lim == 1 →
  minPhi <= v <= maxPhi → minP <= v <= maxP → minP <= t <= maxP →
  let x := v + limited lim (thetaOf maxPhi minPhi maxP minP v) t v in
  minPhi - s_small < x < maxPhi + s_small.
Proof.
  intros Hlim [Hv1 Hv2] [Hp1 Hp2] [Ht1 Ht2]. cbv zeta.
  destruct (thetaOf_cases maxPhi minPhi maxP minP v) as (H0 & H1 & HM & Hm).
  set (th := thetaOf maxPhi minPhi maxP minP v) in *.
  assert (v + limited lim th t v == v + th * (t - v)) as ->
    by (rewrite limited_eq, Hlim; ring).
  destruct (arg_above maxPhi maxP v Hv2 Hp2) as [[Ha Ea]|[Ha Ea]];
  destruct (arg_below minPhi minP v Hv1 Hp1) as [[Hb Eb]|[Hb Eb]];
  unfold_scalar; split; nra.
Qed.

Lemma widen_spec (t M m : Q) :
  m <= M →
  let r := widen t (M, m) in
  r.2 <= m ∧ M <= r.1 ∧ r.2 <= t <= r.1.
Proof.
  intros Hle. unfold widen. unfold_scalar. simpl.
  destruct (Qlt_bool M t) eqn:E1; simpl.
  - apply Qlt_bool_true in E1. repeat split; lra.
  - apply Qlt_bool_false in E1.
    destruct (Qlt_bool t m) eqn:E2; simpl.
    + apply Qlt_bool_true in E2. repeat split; lra.
    + apply Qlt_bool_false in E2. repeat split; lra.
Qed.
End ExactArithmetic.

Section Scan.
Local Open Scope Q_scope.
Variable mesh : fvMesh.
Variables tsfP tsfN : list Q.

Lemma scanFace_spec cellI (mm : Q * Q) f :
  mm.2 <= mm.1 →
  let r := Specialised.scanFace mesh tsfP tsfN cellI mm f in
  r.2 <= mm.2 ∧ mm.1 <= r.1
  ∧ ((f < nInternalFaces mesh)%nat → r.2 <= side mesh tsfP tsfN cellI f <= r.1).
Proof.
  intros Hle. unfold Specialised.scanFace, side. destruct mm as [M m].
  simpl in Hle.
  destruct (Nat.ltb_spec f (nInternalFaces mesh)) as [Hf|Hf].
  - destruct (cellI =? owner mesh !!! f)%nat.
    + destruct (widen_spec (tsfP !!! f) M m Hle) as (?&?&?). simpl.
      repeat split; try done; tauto.
    + destruct (widen_spec (tsfN !!! f) M m Hle) as (?&?&?). simpl.
      repeat split; try done; tauto.
  - simpl. repeat split; try lra; lia.
Qed.

Lemma scan_fold_spec cellI faces (mm : Q * Q) :
  mm.2 <= mm.1 →
  let r := foldl (Specialised.scanFace mesh tsfP tsfN cellI) mm faces in
  r.2 <= mm.2 ∧ mm.1 <= r.1
  ∧ ∀ f, f ∈ faces → (f < nInternalFaces mesh)%nat →
         r.2 <= side mesh tsfP tsfN cellI f <= r.1.
Proof.
  revert mm. induction faces as [|f faces IH]; intros mm Hle; simpl.
  - split_and!; try lra. intros f' Hf. by apply elem_of_nil in Hf.
  - destruct (scanFace_spec cellI mm f Hle) as (H1 & H2 & H3).
    set (mm' := Specialised.scanFace mesh tsfP tsfN cellI mm f) in *.
    destruct (IH mm') as (H4 & H5 & H6); [lra|].
    split_and!; try lra.
    intros f' Hin Hlt. apply elem_of_cons in Hin as [->|Hin].
    + specialize (H3 Hlt). lra.
    + by apply H6.
Qed.

Lemma scanCell_spec vfI cellI :
  let r := Specialised.scanCell mesh vfI tsfP tsfN cellI in
  r.2 <= vfI !!! cellI <= r.1
  ∧ ∀ f, f ∈ cells mesh !!! cellI → (f < nInternalFaces mesh)%nat →
         r.2 <= side mesh tsfP tsfN cellI f <= r.1.
Proof.
  unfold Specialised.scanCell.
  destruct (scan_fold_spec cellI (cells mesh !!! cellI)
              (vfI !!! cellI, vfI !!! cellI)) as (H1 & H2 & H3);
    [simpl; lra|].
  simpl in *. split_and!; done.
Qed.
End Scan.

Section MeshOk.
Variable mesh : fvMesh.
Hypothesis Hmesh : meshOk mesh = true.

Lemma meshOk_face f :
  f < nInternalFaces mesh →
  owner mesh !!! f < neighbour mesh !!! f
  ∧ neighbour mesh !!! f < nCells mesh
  ∧ f ∈ cells mesh !!! (owner mesh !!! f)
  ∧ f ∈ cells mesh !!! (neighbour mesh !!! f).
Proof using Hmesh.
  intros Hf. unfold meshOk in Hmesh.
  apply andb_prop in Hmesh as [H1 _]. apply andb_prop in H1 as [_ H1].
  rewrite forallb_forall in H1. specialize (H1 f).
  unfold faceOk in H1.
  rewrite !andb_true_iff, !Nat.ltb_lt, !bool_decide_eq_true in H1.
  destruct H1 as [[[? ?] ?] ?]; [apply in_seq; lia | done].
Qed.

Lemma meshOk_patch patchI faceI :
  patchI < length (boundary mesh) →
  faceI < length (faceCells (boundary mesh !!! patchI)) →
  faceCells (boundary mesh !!! patchI) !!! faceI < nCells mesh.
Proof using Hmesh.
  intros Hp Hf. unfold meshOk in Hmesh.
  apply andb_prop in Hmesh as [_ H1].
  rewrite forallb_forall in H1.
  destruct (lookup_lt_is_Some_2 _ _ Hp) as [p Ep].
  rewrite (list_lookup_total_correct _ _ _ Ep) in *.
  specialize (H1 p). unfold patchOk in H1. rewrite forallb_forall in H1.
  destruct (lookup_lt_is_Some_2 _ _ Hf) as [c Ec].
  rewrite (list_lookup_total_correct _ _ _ Ec).
  apply Nat.ltb_lt, H1.
  - apply list_elem_of_In, list_elem_of_lookup. eauto.
  - apply list_elem_of_In, list_elem_of_lookup. eauto.
Qed.
End MeshOk.

Section Lookups.
Context {S : Type} `{Scalar S}.
Variable sch : WENOUpwindFit S.
Variable mesh : fvMesh.

Lemma calcTheta_lookup vfI tsfP tsfN cellI :
  cellI < nCells mesh →
  Specialised.calcTheta mesh vfI tsfP tsfN !!! cellI
  = Specialised.thetaCell mesh vfI tsfP tsfN cellI.
Proof.
  intros Hc. unfold Specialised.calcTheta.
  rewrite forAll_upd_lookup_total; [done | done |].
  by rewrite length_replicate.
Qed.

Lemma calcLimiter_face vf tsfP tsfN faceI :
  faceI < nInternalFaces mesh →
  faceI < length (primitiveField tsfP) →
  primitiveField (Specialised.calcLimiter sch mesh vf tsfP tsfN) !!! faceI
  = Specialised.limitFace sch mesh (internalField vf)
      (Specialised.calcTheta mesh (internalField vf) (primitiveField tsfP)
         (primitiveField tsfN))
      (primitiveField tsfN) faceI (primitiveField tsfP !!! faceI).
Proof.
  intros Hf Hl. unfold Specialised.calcLimiter. simpl.
  by rewrite forAll_upd_lookup_total.
Qed.

Lemma calcLimiter_patch vf tsfP tsfN patchI :
  patchI < length (boundaryField tsfP) →
  boundaryField (Specialised.calcLimiter sch mesh vf tsfP tsfN) !!! patchI
  = Specialised.limitPatch sch mesh vf
      (Specialised.calcTheta mesh (internalField vf) (primitiveField tsfP)
         (primitiveField tsfN))
      tsfN patchI (boundaryField tsfP !!! patchI).
Proof.
  intros Hp. unfold Specialised.calcLimiter. simpl.
  by rewrite forAll_upd_lookup_total.
Qed.

Lemma calcLimiter_primitive_length vf tsfP tsfN :
  length (primitiveField (Specialised.calcLimiter sch mesh vf tsfP tsfN))
  = length (primitiveField tsfP).
Proof. unfold Specialised.calcLimiter. simpl. apply forAll_upd_length. Qed.

Lemma calcLimiter_boundary_length vf tsfP tsfN :
  length (boundaryField (Specialised.calcLimiter sch mesh vf tsfP tsfN))
  = length (boundaryField tsfP).
Proof. unfold Specialised.calcLimiter. simpl. apply forAll_upd_length. Qed.
End Lookups.

Section Bounds.
Local Open Scope Q_scope.
Variable sch : WENOUpwindFit Q.
Variable mesh : fvMesh.

Lemma field_within (vfI : list Q) c :
  (c < length vfI)%nat → minField vfI <= vfI !!! c <= maxField vfI.
Proof.
  intros Hc. destruct (lookup_lt_is_Some_2 _ _ Hc) as [x Ex].
  rewrite (list_lookup_total_correct _ _ _ Ex).
  split; [by eapply minField_le | by eapply maxField_ge].
Qed.
End Bounds.

Lemma forallb_zip_lookup {A B} `{Inhabited A} `{Inhabited B}
    (f : A * B → bool) (l : list A) (k : list B) i :
  forallb f (zip l k) = true → i < length l → i < length k →
  f (l !!! i, k !!! i) = true.
Proof.
  intros Hall Hl Hk. rewrite forallb_forall in Hall. apply Hall.
  apply list_elem_of_In, list_elem_of_lookup. exists i.
  rewrite lookup_zip_with.
  by rewrite (list_lookup_lookup_total_lt l i), (list_lookup_lookup_total_lt k i).
Qed.

Section Shapes.
Context {T : Type}.
Variable mesh : fvMesh.

Lemma surfaceOk_primitive (sf : surfaceField T) :
  surfaceOk mesh sf = true →
  length (primitiveField sf) = nInternalFaces mesh.
Proof.
  unfold surfaceOk. rewrite !andb_true_iff, !Nat.eqb_eq. tauto.
Qed.

Lemma surfaceOk_boundary (sf : surfaceField T) :
  surfaceOk mesh sf = true →
  length (boundaryField sf) = length (boundary mesh).
Proof.
  unfold surfaceOk. rewrite !andb_true_iff, !Nat.eqb_eq. tauto.
Qed.

Lemma surfaceOk_patch (sf : surfaceField T) patchI :
  surfaceOk mesh sf = true → patchI < length (boundary mesh) →
  coupled (boundaryField sf !!! patchI)
  = patchCoupled (boundary mesh !!! patchI)
  ∧ length (patchValues (boundaryField sf !!! patchI))
    = length (faceCells (boundary mesh !!! patchI)).
Proof.
  intros Hok Hp. pose proof (surfaceOk_boundary sf Hok) as Hlen.
  unfold surfaceOk in Hok. rewrite !andb_true_iff in Hok.
  destruct Hok as [_ Hall].
  apply (forallb_zip_lookup _ _ _ patchI) in Hall; [|lia..].
  simpl in Hall.
  by rewrite andb_true_iff, bool_decide_eq_true, Nat.eqb_eq in Hall.
Qed.

Lemma volOk_internal (vf : volField T) :
  volOk mesh vf = true → length (internalField vf) = nCells mesh.
Proof. unfold volOk. rewrite !andb_true_iff, !Nat.eqb_eq. tauto. Qed.

Lemma volOk_patch (vf : volField T) patchI :
  volOk mesh vf = true → patchI < length (boundary mesh) →
  patchCoupled (boundary mesh !!! patchI) = true →
  length (patchNeighbourField (volBoundaryField vf !!! patchI))
  = length (faceCells (boundary mesh !!! patchI)).
Proof.
  intros Hok Hp Hc. unfold volOk in Hok.
  rewrite !andb_true_iff, !Nat.eqb_eq in Hok.
  destruct Hok as [[_ Hlen] Hall].
  apply (forallb_zip_lookup _ _ _ patchI) in Hall; [|lia..].
  simpl in Hall. rewrite Hc in Hall. simpl in Hall.
  by apply Nat.eqb_eq.
Qed.
End Shapes.

Section PatchLookups.
Context {S : Type} `{Scalar S}.
Variable sch : WENOUpwindFit S.
Variable mesh : fvMesh.

Lemma limitPatch_coupled vf theta tsfN patchI pb :
  coupled (Specialised.limitPatch sch mesh vf theta tsfN patchI pb)
  = coupled pb.
Proof. unfold Specialised.limitPatch. by destruct (coupled pb) eqn:E. Qed.

Lemma limitPatch_uncoupled vf theta tsfN patchI pb :
  coupled pb = false →
  Specialised.limitPatch sch mesh vf theta tsfN patchI pb = pb.
Proof. intros E. unfold Specialised.limitPatch. by rewrite E. Qed.

Lemma limitPatch_length vf theta tsfN patchI pb :
  length (patchValues (Specialised.limitPatch sch mesh vf theta tsfN patchI pb))
  = length (patchValues pb).
Proof.
  unfold Specialised.limitPatch. destruct (coupled pb); [|done].
  simpl. apply forAll_upd_length.
Qed.

Lemma limitPatch_face vf theta tsfN patchI pb faceI :
  coupled pb = true →
  faceI < length (faceCells (boundary mesh !!! patchI)) →
  faceI < length (patchValues pb) →
  patchValues (Specialised.limitPatch sch mesh vf theta tsfN patchI pb)
    !!! faceI
  = Specialised.limitPatchFace sch (internalField vf) theta
      (faceCells (boundary mesh !!! patchI))
      (patchValues (boundaryField (faceFlux_ sch) !!! patchI))
      (patchNeighbourField (volBoundaryField vf !!! patchI))
      (patchValues (boundaryField tsfN !!! patchI))
      faceI (patchValues pb !!! faceI).
Proof.
  intros E Hf Hl. unfold Specialised.limitPatch. rewrite E. simpl.
  by rewrite forAll_upd_lookup_total.
Qed.

(** The branch without a flux. *)
Lemma limitFace_no_flux vfI theta tsfN faceI t :
  (primitiveField (faceFlux_ sch) !!! faceI >? s_zero)%S = false →
  (primitiveField (faceFlux_ sch) !!! faceI <? s_zero)%S = false →
  Specialised.limitFace sch mesh vfI theta tsfN faceI t = s_zero.
Proof. intros E1 E2. unfold Specialised.limitFace. by rewrite E1, E2. Qed.

Lemma limitPatchFace_no_flux vfI theta pOwner pFaceFlux vfN pbtsfN faceI t :
  (pFaceFlux !!! faceI >? s_zero)%S = false →
  (pFaceFlux !!! faceI <? s_zero)%S = false →
  Specialised.limitPatchFace sch vfI theta pOwner pFaceFlux vfN pbtsfN
    faceI t = s_zero.
Proof. intros E1 E2. unfold Specialised.limitPatchFace. by rewrite E1, E2. Qed.
End PatchLookups.

Section ZeroFlux.
Local Open Scope Q_scope.
Variable sch : WENOUpwindFit Q.
Variable mesh : fvMesh.

Lemma zero_flux_internal vf tsfP tsfN faceI :
  (faceI < nInternalFaces mesh)%nat →
  (faceI < length (primitiveField tsfP))%nat →
  primitiveField (faceFlux_ sch) !!! faceI == 0 →
  primitiveField (Specialised.calcLimiter sch mesh vf tsfP tsfN) !!! faceI
  = 0.
Proof.
  intros Hf Hl E. rewrite calcLimiter_face by done.
  rewrite limitFace_no_flux; [done | unfold_scalar..].
  - by apply Qlt_bool_zero_l.
  - by apply Qlt_bool_zero_r.
Qed.

Lemma zero_flux_coupled vf tsfP tsfN patchI faceI :
  (patchI < length (boundaryField tsfP))%nat →
  coupled (boundaryField tsfP !!! patchI) = true →
  (faceI < length (faceCells (boundary mesh !!! patchI)))%nat →
  (faceI < length (patchValues (boundaryField tsfP !!! patchI)))%nat →
  patchValues (boundaryField (faceFlux_ sch) !!! patchI) !!! faceI == 0 →
  patchValues
    (boundaryField (Specialised.calcLimiter sch mesh vf tsfP tsfN)
       !!! patchI) !!! faceI
  = 0.
Proof.
  intros Hp Hc Hf Hl E. rewrite calcLimiter_patch by done.
  rewrite limitPatch_face by done.
  rewrite limitPatchFace_no_flux; [done | unfold_scalar..].
  - by apply Qlt_bool_zero_l.
  - by apply Qlt_bool_zero_r.
Qed.
End ZeroFlux.

Section ZeroField.
Context {S : Type} `{Scalar S}.

Lemma replicate_zero_lookup n i : replicate n s_zero !!! i = s_zero.
Proof.
  rewrite list_lookup_total_alt.
  destruct (replicate n s_zero !! i) as [x|] eqn:E; [|done].
  by apply lookup_replicate in E as [-> _].
Qed.

Lemma zeroFlux_primitive mesh faceI :
  primitiveField (zeroFlux mesh) !!! faceI = s_zero.
Proof. apply replicate_zero_lookup. Qed.

Lemma zeroFlux_patch mesh patchI faceI :
  patchValues (boundaryField (zeroFlux mesh) !!! patchI) !!! faceI = s_zero.
Proof.
  unfold zeroFlux. simpl. rewrite (list_lookup_total_alt (_ <$> _)).
  rewrite list_lookup_fmap. destruct (boundary mesh !! patchI); simpl.
  - apply replicate_zero_lookup.
  - done.
Qed.
End ZeroField.

Section Unlimited.
Local Open Scope Q_scope.
Variable sch : WENOUpwindFit Q.
Variable mesh : fvMesh.
Hypothesis Hlim : limFac_ sch == 0.

Lemma unlimited_internal vf tsfP tsfN faceI :
  (faceI < nInternalFaces mesh)%nat →
  (faceI < length (primitiveField tsfP))%nat →
  ¬ primitiveField (faceFlux_ sch) !!! faceI == 0 →
  faceValue sch mesh vf (Specialised.calcLimiter sch mesh vf tsfP tsfN) faceI
  == upwind sch tsfP tsfN faceI.
Proof using Hlim.
  intros Hf Hl Hflux. unfold faceValue, donor, upwind.
  rewrite calcLimiter_face by done.
  unfold Specialised.limitFace. cbv zeta. unfold_scalar.
  match goal with |- context [Qle_bool 0 ?f] =>
    flux_cases_of f Hs E1 E2 E3; rewrite ?E1, ?E2, ?E3 end.
  - by apply limited_zero_factor.
  - by apply limited_zero_factor.
  - done.
Qed.

Lemma unlimited_coupled vf tsfP tsfN patchI faceI :
  (patchI < length (boundaryField tsfP))%nat →
  coupled (boundaryField tsfP !!! patchI) = true →
  (faceI < length (faceCells (boundary mesh !!! patchI)))%nat →
  (faceI < length (patchValues (boundaryField tsfP !!! patchI)))%nat →
  ¬ patchValues (boundaryField (faceFlux_ sch) !!! patchI) !!! faceI == 0 →
  patchFaceValue sch mesh vf (Specialised.calcLimiter sch mesh vf tsfP tsfN)
    patchI faceI
  == patchUpwind sch tsfP tsfN patchI faceI.
Proof using Hlim.
  intros Hp Hc Hf Hl Hflux.
  unfold patchFaceValue, patchDonorValue, patchUpwind.
  rewrite calcLimiter_patch, limitPatch_face by done.
  unfold Specialised.limitPatchFace. cbv zeta. unfold_scalar.
  match goal with |- context [Qle_bool 0 ?f] =>
    flux_cases_of f Hs E1 E2 E3; rewrite ?E1, ?E2, ?E3 end.
  - by apply limited_zero_factor.
  - by apply limited_zero_factor.
  - done.
Qed.
End Unlimited.

Section ThetaRange.
Local Open Scope Q_scope.
Variable mesh : fvMesh.

Lemma unit_interval_zero : unit_interval 0.
Proof. unfold unit_interval. lra. Qed.

Lemma calcTheta_unit_interval (vfI tsfP tsfN : list Q) :
  Forall unit_interval (Specialised.calcTheta mesh vfI tsfP tsfN).
Proof.
  unfold Specialised.calcTheta. apply forAll_upd_Forall.
  - apply Forall_replicate, unit_interval_zero.
  - intros cellI x _ _. apply thetaOf_range.
Qed.
End ThetaRange.

Section Uniform.
Local Open Scope Q_scope.
Variable sch : WENOUpwindFit Q.
Variable mesh : fvMesh.
Variable c : Q.
Variable vf : volField Q.
Variables tsfP tsfN : surfaceField Q.
Hypothesis Hmesh : meshOk mesh = true.
Hypothesis Hvf : volOk mesh vf = true.
Hypothesis HtsfP : surfaceOk mesh tsfP = true.
Hypothesis HtsfN : surfaceOk mesh tsfN = true.
Hypothesis Uvf : uniformVol c vf.
Hypothesis UtsfP : uniformSurface c tsfP.
Hypothesis UtsfN : uniformSurface c tsfN.

Lemma uniform_cell cellI :
  (cellI < nCells mesh)%nat → internalField vf !!! cellI == c.
Proof using Hvf Uvf.
  intros Hc. destruct Uvf as [U _].
  apply (Forall_lookup_total_1 _ _ _ U).
  by rewrite (volOk_internal mesh vf Hvf).
Qed.

Lemma uniform_internal_zero faceI :
  (faceI < nInternalFaces mesh)%nat →
  primitiveField (Specialised.calcLimiter sch mesh vf tsfP tsfN) !!! faceI
  == 0.
Proof using Hmesh Hvf HtsfP HtsfN Uvf UtsfP UtsfN.
  intros Hf.
  pose proof (surfaceOk_primitive mesh tsfP HtsfP) as LP.
  pose proof (surfaceOk_primitive mesh tsfN HtsfN) as LN.
  destruct (meshOk_face mesh Hmesh faceI Hf) as (HPN & HN & _).
  rewrite calcLimiter_face by lia.
  unfold Specialised.limitFace. cbv zeta. unfold_scalar.
  destruct (Qlt_bool 0 _); [|destruct (Qlt_bool _ 0)].
  - apply limited_uniform. rewrite uniform_cell by lia.
    destruct UtsfP as [U _]. apply (Forall_lookup_total_1 _ _ _ U). lia.
  - apply limited_uniform. rewrite uniform_cell by lia.
    destruct UtsfN as [U _]. apply (Forall_lookup_total_1 _ _ _ U). lia.
  - reflexivity.
Qed.

Lemma uniform_coupled_zero patchI faceI :
  (patchI < length (boundary mesh))%nat →
  patchCoupled (boundary mesh !!! patchI) = true →
  (faceI < length (faceCells (boundary mesh !!! patchI)))%nat →
  patchValues
    (boundaryField (Specialised.calcLimiter sch mesh vf tsfP tsfN)
       !!! patchI) !!! faceI
  == 0.
Proof using Hmesh Hvf HtsfP HtsfN Uvf UtsfP UtsfN.
  intros Hp Hc Hf.
  pose proof (surfaceOk_boundary mesh tsfP HtsfP) as LP.
  pose proof (surfaceOk_boundary mesh tsfN HtsfN) as LN.
  destruct (surfaceOk_patch mesh tsfP patchI HtsfP Hp) as [CP VP].
  destruct (surfaceOk_patch mesh tsfN patchI HtsfN Hp) as [CN VN].
  pose proof (volOk_patch mesh vf patchI Hvf Hp Hc) as VV.
  pose proof (meshOk_patch mesh Hmesh patchI faceI Hp Hf) as Hown.
  rewrite calcLimiter_patch, limitPatch_face by (congruence || lia).
  unfold Specialised.limitPatchFace. cbv zeta. unfold_scalar.
  destruct (Qlt_bool 0 _); [|destruct (Qlt_bool _ 0)].
  - apply limited_uniform. rewrite uniform_cell by lia.
    destruct UtsfP as [_ U].
    assert (Forall (λ x, x == c) (patchValues (boundaryField tsfP !!! patchI)))
      as U' by (apply (Forall_lookup_total_1 _ _ _ U); lia).
    apply (Forall_lookup_total_1 _ _ _ U'). lia.
  - apply limited_uniform.
    destruct Uvf as [_ UV]. destruct UtsfN as [_ U].
    assert (Forall (λ x, x == c) (patchValues (boundaryField tsfN !!! patchI)))
      as U' by (apply (Forall_lookup_total_1 _ _ _ U); lia).
    assert (Forall (λ x, x == c)
              (patchNeighbourField (volBoundaryField vf !!! patchI))) as UV'.
    { apply (Forall_lookup_total_1 _ _ _ UV).
      unfold volOk in Hvf. rewrite !andb_true_iff, !Nat.eqb_eq in Hvf. lia. }
    rewrite (Forall_lookup_total_1 _ _ _ U') by lia.
    rewrite (Forall_lookup_total_1 _ _ _ UV') by lia. reflexivity.
  - reflexivity.
Qed.

Lemma uniform_zeroCorrection :
  zeroCorrection (Specialised.calcLimiter sch mesh vf tsfP tsfN).
Proof using Hmesh Hvf HtsfP HtsfN Uvf UtsfP UtsfN.
  pose proof (surfaceOk_primitive mesh tsfP HtsfP) as LP.
  pose proof (surfaceOk_boundary mesh tsfP HtsfP) as LB.
  split.
  - apply (Forall_lookup_total_2 (λ x : Q, x == 0)). intros faceI Hf.
    rewrite calcLimiter_primitive_length in Hf.
    apply uniform_internal_zero. lia.
  - apply (Forall_lookup_total_2 (A := fvsPatchField Q) _ (Inhabited0 := fvsPatchField_inhabited)).
    intros patchI Hp.
    rewrite calcLimiter_boundary_length in Hp. intros Hc.
    rewrite calcLimiter_patch, limitPatch_coupled in Hc by done.
    destruct (surfaceOk_patch mesh tsfP patchI HtsfP) as [CP VP]; [lia|].
    apply (Forall_lookup_total_2 (λ x : Q, x == 0)). intros faceI Hf.
    rewrite calcLimiter_patch, limitPatch_length in Hf by done.
    apply uniform_coupled_zero; [lia | congruence | lia].
Qed.
End Uniform.

Lemma foldl_invariant {A B} (P : A → Prop) (f : A → B → A) (l : list B) a :
  P a → (∀ a x, x ∈ l → P a → P (f a x)) → P (foldl f a l).
Proof.
  revert a. induction l as [|x l IH]; intros a Ha Hf; simpl; [done|].
  apply IH.
  - apply Hf; [left | done].
  - intros a' y Hy. apply Hf. by right.
Qed.

Lemma fmap_lookup_total_default {A B} `{Inhabited A} `{Inhabited B}
    (f : A → B) (l : list A) i :
  f inhabitant = inhabitant → (f <$> l) !!! i = f (l !!! i).
Proof.
  intros Hd. rewrite !list_lookup_total_alt, list_lookup_fmap.
  by destruct (l !! i).
Qed.

Section Projections.
Context {S : Type} `{Scalar S}.

Lemma component_lookup (l : list (list S)) cI i :
  (component cI <$> l) !!! i = (l !!! i) !!! cI.
Proof. by rewrite fmap_lookup_total_default. Qed.

Lemma liftSurface_primitive {T U} (f : T → U) (sf : surfaceField T) :
  primitiveField (liftSurface f sf) = f <$> primitiveField sf.
Proof. done. Qed.

Lemma liftVol_internal {T U} (f : T → U) (vf : volField T) :
  internalField (liftVol f vf) = f <$> internalField vf.
Proof. done. Qed.

Lemma liftSurface_patch_values {T U} (f : T → U) (sf : surfaceField T)
    patchI :
  patchValues (boundaryField (liftSurface f sf) !!! patchI)
  = f <$> patchValues (boundaryField sf !!! patchI).
Proof.
  unfold liftSurface. simpl. by rewrite fmap_lookup_total_default.
Qed.


Lemma liftVol_patch_neighbour {T U} (f : T → U) (vf : volField T) patchI :
  patchNeighbourField (volBoundaryField (liftVol f vf) !!! patchI)
  = f <$> patchNeighbourField (volBoundaryField vf !!! patchI).
Proof. unfold liftVol. simpl. by rewrite fmap_lookup_total_default. Qed.
End Projections.

Section TemplatedLookups.
Context {S : Type} `{Scalar S}.
Variable sch : WENOUpwindFit S.
Variable mesh : fvMesh.

Lemma templated_face vf tsfP tsfN faceI :
  faceI < nInternalFaces mesh →
  faceI < length (primitiveField tsfP) →
  primitiveField (Templated.calcLimiter sch mesh vf tsfP tsfN) !!! faceI
  = Templated.limitFace sch mesh (internalField vf)
      (Templated.calcTheta mesh (internalField vf) (primitiveField tsfP)
         (primitiveField tsfN))
      (primitiveField tsfN) faceI (primitiveField tsfP !!! faceI).
Proof.
  intros Hf Hl. unfold Templated.calcLimiter. simpl.
  by rewrite forAll_upd_lookup_total.
Qed.

Lemma templated_patch_face vf tsfP tsfN patchI faceI :
  patchI < length (boundaryField tsfP) →
  coupled (boundaryField tsfP !!! patchI) = true →
  faceI < length (faceCells (boundary mesh !!! patchI)) →
  faceI < length (patchValues (boundaryField tsfP !!! patchI)) →
  patchValues
    (boundaryField (Templated.calcLimiter sch mesh vf tsfP tsfN) !!! patchI)
    !!! faceI
  = Templated.limitPatchFace sch (internalField vf)
      (Templated.calcTheta mesh (internalField vf) (primitiveField tsfP)
         (primitiveField tsfN))
      (faceCells (boundary mesh !!! patchI))
      (patchValues (boundaryField (faceFlux_ sch) !!! patchI))
      (patchNeighbourField (volBoundaryField vf !!! patchI))
      (patchValues (boundaryField tsfN !!! patchI))
      faceI (patchValues (boundaryField tsfP !!! patchI) !!! faceI).
Proof.
  intros Hp Hc Hf Hl. unfold Templated.calcLimiter. simpl.
  rewrite forAll_upd_lookup_total by done.
  unfold Templated.limitPatch. rewrite Hc. simpl.
  by rewrite forAll_upd_lookup_total.
Qed.

Lemma templated_limitFace_no_flux vfI theta tsfN faceI t :
  (primitiveField (faceFlux_ sch) !!! faceI >? s_zero)%S = false →
  (primitiveField (faceFlux_ sch) !!! faceI <? s_zero)%S = false →
  Templated.limitFace sch mesh vfI theta tsfN faceI t
  = Templated.zeroT (Templated.nComp vfI).
Proof. intros E1 E2. unfold Templated.limitFace. by rewrite E1, E2. Qed.

Lemma templated_limitPatchFace_no_flux vfI theta pOwner pFaceFlux vfN
    pbtsfN faceI t :
  (pFaceFlux !!! faceI >? s_zero)%S = false →
  (pFaceFlux !!! faceI <? s_zero)%S = false →
  Templated.limitPatchFace sch vfI theta pOwner pFaceFlux vfN pbtsfN
    faceI t
  = Templated.zeroT (Templated.nComp vfI).
Proof.
  intros E1 E2. unfold Templated.limitPatchFace. by rewrite E1, E2.
Qed.
End TemplatedLookups.

Section TemplatedExact.
Local Open Scope Q_scope.
Variable sch : WENOUpwindFit Q.
Variable mesh : fvMesh.

Lemma templated_zero_flux_internal vf tsfP tsfN faceI :
  (faceI < nInternalFaces mesh)%nat →
  (faceI < length (primitiveField tsfP))%nat →
  primitiveField (faceFlux_ sch) !!! faceI == 0 →
  primitiveField (Templated.calcLimiter sch mesh vf tsfP tsfN) !!! faceI
  = Templated.zeroT (Templated.nComp (internalField vf)).
Proof.
  intros Hf Hl E. rewrite templated_face by done.
  apply templated_limitFace_no_flux; unfold_scalar.
  - by apply Qlt_bool_zero_l.
  - by apply Qlt_bool_zero_r.
Qed.

Lemma templated_zero_flux_coupled vf tsfP tsfN patchI faceI :
  (patchI < length (boundaryField tsfP))%nat →
  coupled (boundaryField tsfP !!! patchI) = true →
  (faceI < length (faceCells (boundary mesh !!! patchI)))%nat →
  (faceI < length (patchValues (boundaryField tsfP !!! patchI)))%nat →
  patchValues (boundaryField (faceFlux_ sch) !!! patchI) !!! faceI == 0 →
  patchValues
    (boundaryField (Templated.calcLimiter sch mesh vf tsfP tsfN)
       !!! patchI) !!! faceI
  = Templated.zeroT (Templated.nComp (internalField vf)).
Proof.
  intros Hp Hc Hf Hl E. rewrite templated_patch_face by done.
  apply templated_limitPatchFace_no_flux; unfold_scalar.
  - by apply Qlt_bool_zero_l.
  - by apply Qlt_bool_zero_r.
Qed.

(** Every coefficient of every component. *)
Lemma templated_thetaCell_unit_interval vfI tsfP tsfN cellI th :
  Forall unit_interval th →
  Forall unit_interval (Templated.thetaCell mesh vfI tsfP tsfN cellI th).
Proof.
  intros Hth. unfold Templated.thetaCell.
  apply (foldl_invariant (λ st, Forall unit_interval st.2)); [done|].
  intros st cI _ Hst. unfold Templated.thetaComp. cbv zeta. simpl.
  apply Forall_insert; [done | apply thetaOf_range].
Qed.

Lemma templated_calcTheta_unit_interval vfI tsfP tsfN :
  Forall (Forall unit_interval) (Templated.calcTheta mesh vfI tsfP tsfN).
Proof.
  unfold Templated.calcTheta. apply forAll_upd_Forall.
  - apply Forall_replicate. unfold Templated.zeroT.
    apply Forall_replicate, unit_interval_zero.
  - intros cellI th _. apply templated_thetaCell_unit_interval.
Qed.

Hypothesis Hlim : limFac_ sch == 0.

Lemma templated_unlimited_internal vf tsfP tsfN faceI cI :
  (faceI < nInternalFaces mesh)%nat →
  (faceI < length (primitiveField tsfP))%nat →
  (cI < Templated.nComp (internalField vf))%nat →
  (cI < length (primitiveField tsfP !!! faceI))%nat →
  ¬ primitiveField (faceFlux_ sch) !!! faceI == 0 →
  faceValue sch mesh (liftVol (component cI) vf)
    (liftSurface (component cI)
       (Templated.calcLimiter sch mesh vf tsfP tsfN)) faceI
  == upwind sch (liftSurface (component cI) tsfP)
       (liftSurface (component cI) tsfN) faceI.
Proof using Hlim.
  intros Hf Hl Hc Hc' Hflux. unfold faceValue, donor, upwind.
  rewrite !liftSurface_primitive, liftVol_internal.
  rewrite !component_lookup, templated_face by done.
  unfold Templated.limitFace. cbv zeta. unfold_scalar.
  match goal with |- context [Qle_bool 0 ?f] =>
    flux_cases_of f Hs E1 E2 E3; rewrite ?E1, ?E2, ?E3 end.
  - rewrite forAll_upd_lookup_total by done.
    by apply limited_zero_factor.
  - rewrite forAll_upd_lookup_total by done.
    by apply limited_zero_factor.
  - done.
Qed.

Lemma templated_unlimited_coupled vf tsfP tsfN patchI faceI cI :
  (patchI < length (boundaryField tsfP))%nat →
  coupled (boundaryField tsfP !!! patchI) = true →
  (faceI < length (faceCells (boundary mesh !!! patchI)))%nat →
  (faceI < length (patchValues (boundaryField tsfP !!! patchI)))%nat →
  (cI < Templated.nComp (internalField vf))%nat →
  (cI < length (patchValues (boundaryField tsfP !!! patchI) !!! faceI))%nat →
  ¬ patchValues (boundaryField (faceFlux_ sch) !!! patchI) !!! faceI == 0 →
  patchFaceValue sch mesh (liftVol (component cI) vf)
    (liftSurface (component cI)
       (Templated.calcLimiter sch mesh vf tsfP tsfN)) patchI faceI
  == patchUpwind sch (liftSurface (component cI) tsfP)
       (liftSurface (component cI) tsfN) patchI faceI.
Proof using Hlim.
  intros Hp Hcp Hf Hl Hc Hc' Hflux.
  unfold patchFaceValue, patchDonorValue, patchUpwind.
  rewrite !liftSurface_patch_values, liftVol_patch_neighbour.
  rewrite liftVol_internal.
  rewrite !component_lookup, templated_patch_face by done.
  unfold Templated.limitPatchFace. cbv zeta. unfold_scalar.
  match goal with |- context [Qle_bool 0 ?f] =>
    flux_cases_of f Hs E1 E2 E3; rewrite ?E1, ?E2, ?E3 end.
  - rewrite forAll_upd_lookup_total by done.
    by apply limited_zero_factor.
  - rewrite forAll_upd_lookup_total by done.
    by apply limited_zero_factor.
  - done.
Qed.
End TemplatedExact.

Section OneComponent.
Context {S : Type} `{Scalar S}.
Variable sch : WENOUpwindFit S.
Variable mesh : fvMesh.

Local Abbreviation L := (@one_component S).

Lemma one_component_lookup (l : list S) i :
  ((L <$> l) !!! i) !!! 0 = l !!! i.
Proof.
  rewrite !list_lookup_total_alt, list_lookup_fmap.
  by destruct (l !! i).
Qed.

Lemma one_component_lookup_lt (l : list S) i :
  i < length l → (L <$> l) !!! i = [l !!! i].
Proof.
  intros Hi. rewrite !list_lookup_total_alt, list_lookup_fmap.
  by destruct (lookup_lt_is_Some_2 l i Hi) as [x ->].
Qed.

Lemma nComp_one_component (vfI : list S) :
  0 < length vfI → Templated.nComp (L <$> vfI) = 1.
Proof. destruct vfI; simpl; [lia | done]. Qed.

Lemma maxFieldT_fold (f : list S) (M : S) :
  foldl (λ Max x, zip_with max x Max) [M] (L <$> f)
  = [foldl (λ Max x, max x Max) M f].
Proof. revert M. induction f as [|x f IH]; intros M; simpl; [done|]. apply IH. Qed.

Lemma minFieldT_fold (f : list S) (M : S) :
  foldl (λ Min x, zip_with min x Min) [M] (L <$> f)
  = [foldl (λ Min x, min x Min) M f].
Proof. revert M. induction f as [|x f IH]; intros M; simpl; [done|]. apply IH. Qed.

Lemma maxFieldT_one_component (vfI : list S) :
  0 < length vfI → Templated.maxFieldT 1 (L <$> vfI) = [maxField vfI].
Proof.
  destruct vfI as [|f0 f]; simpl; [lia|]. intros _.
  apply (maxFieldT_fold f (max f0 f0)).
Qed.

Lemma minFieldT_one_component (vfI : list S) :
  0 < length vfI → Templated.minFieldT 1 (L <$> vfI) = [minField vfI].
Proof.
  destruct vfI as [|f0 f]; simpl; [lia|]. intros _.
  apply (minFieldT_fold f (min f0 f0)).
Qed.

Lemma widenC_one_component t (M m : S) :
  Templated.widenC 0 t ([M], [m])
  = ([(widen t (M, m)).1], [(widen t (M, m)).2]).
Proof.
  unfold Templated.widenC, widen. simpl.
  destruct (M <? t)%S; [done|]. by destruct (t <? m)%S.
Qed.

Lemma scanFace_one_component (tsfP tsfN : list S) cellI (mm : S * S) f :
  Templated.scanFace mesh (L <$> tsfP) (L <$> tsfN) cellI 0
    ([mm.1], [mm.2]) f
  = ([(Specialised.scanFace mesh tsfP tsfN cellI mm f).1],
     [(Specialised.scanFace mesh tsfP tsfN cellI mm f).2]).
Proof.
  unfold Templated.scanFace, Specialised.scanFace. destruct mm as [M m].
  destruct (f <? nInternalFaces mesh); [|done].
  rewrite !one_component_lookup.
  destruct (cellI =? owner mesh !!! f); apply widenC_one_component.
Qed.

Lemma scan_one_component (tsfP tsfN : list S) cellI faces (mm : S * S) :
  foldl (Templated.scanFace mesh (L <$> tsfP) (L <$> tsfN) cellI 0)
    ([mm.1], [mm.2]) faces
  = ([(foldl (Specialised.scanFace mesh tsfP tsfN cellI) mm faces).1],
     [(foldl (Specialised.scanFace mesh tsfP tsfN cellI) mm faces).2]).
Proof.
  revert mm. induction faces as [|f faces IH]; intros mm; simpl; [done|].
  rewrite scanFace_one_component. apply IH.
Qed.

Lemma thetaCell_one_component (vfI tsfP tsfN : list S) cellI x :
  cellI < length vfI →
  Templated.thetaCell mesh (L <$> vfI) (L <$> tsfP) (L <$> tsfN) cellI [x]
  = [Specialised.thetaCell mesh vfI tsfP tsfN cellI].
Proof.
  intros Hc. unfold Templated.thetaCell.
  rewrite nComp_one_component by lia. simpl.
  unfold Templated.thetaComp. cbv zeta.
  rewrite nComp_one_component by lia.
  rewrite maxFieldT_one_component, minFieldT_one_component by lia.
  rewrite one_component_lookup_lt by done. simpl.
  pose proof (scan_one_component tsfP tsfN cellI (cells mesh !!! cellI)
                (vfI !!! cellI, vfI !!! cellI)) as E.
  simpl in E. by rewrite E.
Qed.

Lemma calcTheta_one_component (vfI tsfP tsfN : list S) :
  length vfI = nCells mesh → 0 < nCells mesh →
  Templated.calcTheta mesh (L <$> vfI) (L <$> tsfP) (L <$> tsfN)
  = L <$> Specialised.calcTheta mesh vfI tsfP tsfN.
Proof.
  intros Hlen Hpos. unfold Templated.calcTheta, Specialised.calcTheta.
  rewrite nComp_one_component by lia.
  change (Templated.zeroT 1) with (L s_zero).
  rewrite <- fmap_replicate. apply forAll_upd_fmap.
  intros cellI x Hc _. apply thetaCell_one_component. lia.
Qed.

Lemma forAll_upd_one_component (g : nat → S → S) (t : S) :
  forAll_upd 1 g [t] = [g 0 t].
Proof. done. Qed.

Lemma limitFace_one_component (vfI theta tsfN : list S) faceI t :
  0 < length vfI →
  Templated.limitFace sch mesh (L <$> vfI) (L <$> theta) (L <$> tsfN)
    faceI [t]
  = [Specialised.limitFace sch mesh vfI theta tsfN faceI t].
Proof.
  intros Hpos. unfold Templated.limitFace, Specialised.limitFace.
  cbv zeta. rewrite nComp_one_component by done.
  destruct (_ >? s_zero)%S; [|destruct (_ <? s_zero)%S].
  - by rewrite forAll_upd_one_component, !one_component_lookup.
  - by rewrite forAll_upd_one_component, !one_component_lookup.
  - done.
Qed.

Lemma limitPatchFace_one_component (vfI theta : list S) pOwner pFaceFlux
    (vfN pbtsfN : list S) faceI t :
  0 < length vfI →
  Templated.limitPatchFace sch (L <$> vfI) (L <$> theta) pOwner pFaceFlux
    (L <$> vfN) (L <$> pbtsfN) faceI [t]
  = [Specialised.limitPatchFace sch vfI theta pOwner pFaceFlux vfN pbtsfN
       faceI t].
Proof.
  intros Hpos. unfold Templated.limitPatchFace, Specialised.limitPatchFace.
  cbv zeta. rewrite nComp_one_component by done.
  destruct (_ >? s_zero)%S; [|destruct (_ <? s_zero)%S].
  - by rewrite forAll_upd_one_component, !one_component_lookup.
  - by rewrite forAll_upd_one_component, !one_component_lookup.
  - done.
Qed.

Lemma limitPatch_one_component (vf : volField S) (theta : list S)
    (tsfN : surfaceField S) patchI (pb : fvsPatchField S) :
  0 < length (internalField vf) →
  Templated.limitPatch sch mesh (liftVol L vf) (L <$> theta)
    (liftSurface L tsfN) patchI (liftPatch L pb)
  = liftPatch L (Specialised.limitPatch sch mesh vf theta tsfN patchI pb).
Proof.
  intros Hpos. unfold Templated.limitPatch, Specialised.limitPatch.
  cbv zeta. rewrite liftSurface_patch_values, liftVol_patch_neighbour.
  rewrite liftVol_internal.
  change (coupled (liftPatch L pb)) with (coupled pb).
  destruct (coupled pb); [|done].
  unfold liftPatch at 2. simpl. f_equal.
  apply forAll_upd_fmap. intros faceI t _ _.
  by apply limitPatchFace_one_component.
Qed.
End OneComponent.

Module ProcedureFacts.
Import Procedure.
Section Run.
Context {S T Theta : Type} `{Scalar S} `{Inhabited T}.
Variable mesh : fvMesh.
Variable thetaF : list T → list T → list T → Theta.
Variable faceF :
  WENOUpwindFit S → list T → Theta → list T → label → T → T.
Variable patchF :
  WENOUpwindFit S → list T → Theta → list label → list S → list T →
  list T → label → T → T.

Local Abbreviation World := (World S T).

Lemma face_loop theta (w : World) k :
  foldl (faceStep faceF theta) w (seq 0 k)
  = with_tsfP w
      {| primitiveField :=
           forAll_upd k
             (faceF (w_scheme w) (internalField (w_vf w)) theta
                (primitiveField (w_tsfN w)))
             (primitiveField (w_tsfP w));
         boundaryField := boundaryField (w_tsfP w) |}.
Proof.
  induction k as [|k IH].
  - by destruct w as [? [] ? ? ?].
  - rewrite seq_S, foldl_app, IH. simpl. by rewrite forAll_upd_S.
Qed.

Lemma patch_face_loop theta patchI (w : World) k :
  patchI < length (boundaryField (w_tsfP w)) →
  foldl (patchFaceStep mesh patchF theta patchI) w (seq 0 k)
  = with_tsfP w
      {| primitiveField := primitiveField (w_tsfP w);
         boundaryField :=
           <[patchI :=
               {| coupled := coupled (boundaryField (w_tsfP w) !!! patchI);
                  patchValues :=
                    forAll_upd k
                      (patchF (w_scheme w) (internalField (w_vf w)) theta
                         (faceCells (boundary mesh !!! patchI))
                         (patchValues
                            (boundaryField (faceFlux_ (w_scheme w))
                               !!! patchI))
                         (patchNeighbourField
                            (volBoundaryField (w_vf w) !!! patchI))
                         (patchValues (boundaryField (w_tsfN w) !!! patchI)))
                      (patchValues (boundaryField (w_tsfP w) !!! patchI))
               |}]> (boundaryField (w_tsfP w)) |}.
Proof.
  intros Hp. induction k as [|k IH].
  - destruct w as [? [prim bf] ? ? ?]. simpl in *.
    unfold with_tsfP. simpl. f_equal. f_equal.
    change (forAll_upd 0 ?g ?l) with l.
    symmetry. apply list_insert_id.
    rewrite list_lookup_lookup_total_lt by done. f_equal.
    by destruct (bf !!! patchI).
  - rewrite seq_S, foldl_app, IH. simpl.
    unfold patchFaceStep, assignPatchFace, with_tsfP. simpl.
    rewrite list_lookup_total_insert_eq by done. simpl.
    by rewrite list_insert_insert_eq, forAll_upd_S.
Qed.

Lemma patchStep_spec theta (w : World) patchI :
  patchI < length (boundaryField (w_tsfP w)) →
  patchStep mesh patchF theta w patchI
  = with_tsfP w
      {| primitiveField := primitiveField (w_tsfP w);
         boundaryField :=
           <[patchI := patchRule mesh patchF w theta patchI
                         (boundaryField (w_tsfP w) !!! patchI)]>
             (boundaryField (w_tsfP w)) |}.
Proof.
  intros Hp. unfold patchStep, patchRule.
  destruct (coupled (boundaryField (w_tsfP w) !!! patchI)) eqn:E.
  - rewrite patch_face_loop by done. by rewrite E.
  - destruct w as [? [prim bf] ? ? ?]. simpl in *.
    unfold with_tsfP. simpl. f_equal. f_equal.
    symmetry. apply list_insert_id.
    by rewrite list_lookup_lookup_total_lt.
Qed.

Lemma patch_loop theta (w : World) k :
  k ≤ length (boundaryField (w_tsfP w)) →
  foldl (patchStep mesh patchF theta) w (seq 0 k)
  = with_tsfP w
      {| primitiveField := primitiveField (w_tsfP w);
         boundaryField :=
           forAll_upd k (patchRule mesh patchF w theta) (boundaryField (w_tsfP w)) |}.
Proof.
  induction k as [|k IH]; intros Hk.
  - by destruct w as [? [] ? ? ?].
  - rewrite seq_S, foldl_app, IH by lia. simpl.
    rewrite patchStep_spec
      by (simpl; rewrite forAll_upd_length; lia).
    unfold with_tsfP. simpl. by rewrite forAll_upd_S.
Qed.

(** The procedure assigns to [tsfP] what the function returns, and to
    nothing else. *)
Lemma run_spec (w : World) :
  run mesh thetaF faceF patchF w
  = with_tsfP w
      (let theta :=
         thetaF (internalField (w_vf w)) (primitiveField (w_tsfP w))
           (primitiveField (w_tsfN w)) in
       {| primitiveField :=
            forAll_upd (length (owner mesh))
              (faceF (w_scheme w) (internalField (w_vf w)) theta
                 (primitiveField (w_tsfN w)))
              (primitiveField (w_tsfP w));
          boundaryField :=
            forAll_upd (length (boundaryField (w_tsfP w)))
              (patchRule mesh patchF w theta) (boundaryField (w_tsfP w)) |}).
Proof.
  unfold run. cbv zeta. rewrite face_loop. simpl.
  by rewrite patch_loop.
Qed.
End Run.

Lemma specialised_spec {S} `{Scalar S} mesh (w : World S S) :
  specialised mesh w
  = with_tsfP w
      (Specialised.calcLimiter (w_scheme w) mesh (w_vf w) (w_tsfP w)
         (w_tsfN w)).
Proof. unfold specialised. by rewrite run_spec. Qed.

Lemma templated_spec {S} `{Scalar S} mesh (w : World S (list S)) :
  templated mesh w
  = with_tsfP w
      (Templated.calcLimiter (w_scheme w) mesh (w_vf w) (w_tsfP w)
         (w_tsfN w)).
Proof. unfold templated. by rewrite run_spec. Qed.
End ProcedureFacts.

Section Assigned.
Context {T : Type}.

Lemma assigned_internal mesh (tsfP : surfaceField T) faceI :
  assigned mesh tsfP (internalFace faceI) = true →
  faceI < nInternalFaces mesh ∧ faceI < length (primitiveField tsfP).
Proof. simpl. by rewrite andb_true_iff, !Nat.ltb_lt. Qed.

Lemma assigned_patch mesh (tsfP : surfaceField T) patchI faceI :
  assigned mesh tsfP (patchFace patchI faceI) = true →
  patchI < length (boundaryField tsfP)
  ∧ coupled (boundaryField tsfP !!! patchI) = true
  ∧ faceI < length (faceCells (boundary mesh !!! patchI))
  ∧ faceI < length (patchValues (boundaryField tsfP !!! patchI)).
Proof. simpl. rewrite !andb_true_iff, !Nat.ltb_lt. tauto. Qed.
End Assigned.


Section Weights.
Local Open Scope Q_scope.

Lemma pos_positive (f : Q) : 0 < f → pos f = 1.
Proof.
  intros Hf. unfold pos. unfold_scalar.
  assert (Qle_bool 0 f = true) as -> by (apply Qle_bool_iff; lra). done.
Qed.

Lemma pos_negative (f : Q) : f < 0 → pos f = 0.
Proof.
  intros Hf. unfold pos. unfold_scalar.
  destruct (Qle_bool 0 f) eqn:E; [|done].
  apply Qle_bool_iff in E. lra.
Qed.

Lemma weights_lookup {T} (sch : WENOUpwindFit Q) (vf : volField T) g f :
  face_lookup (faceFlux_ sch) g = Some f →
  face_lookup (weights sch vf) g = Some (pos f).
Proof.
  destruct g as [faceI|patchI faceI]; simpl.
  - intros E. by rewrite list_lookup_fmap, E.
  - rewrite list_lookup_fmap.
    destruct (boundaryField (faceFlux_ sch) !! patchI) as [p|]; simpl;
      [|done].
    intros E. by rewrite list_lookup_fmap, E.
Qed.
End Weights.

Section FaceStatements.
Local Open Scope Q_scope.
Variable sch : WENOUpwindFit Q.
Variable mesh : fvMesh.

Lemma zero_flux_specialised vf tsfP tsfN f :
  at_face (faceFlux_ sch) f == 0 →
  assigned mesh tsfP f = true →
  at_face (Specialised.calcLimiter sch mesh vf tsfP tsfN) f = 0.
Proof.
  intros Hflux Ha. destruct f as [faceI|patchI faceI].
  - apply assigned_internal in Ha as [? ?]. by apply zero_flux_internal.
  - apply assigned_patch in Ha as (?&?&?&?). by apply zero_flux_coupled.
Qed.

Lemma zero_flux_templated vf tsfP tsfN f :
  at_face (faceFlux_ sch) f == 0 →
  assigned mesh tsfP f = true →
  at_face (Templated.calcLimiter sch mesh vf tsfP tsfN) f
  = Templated.zeroT (Templated.nComp (internalField vf)).
Proof.
  intros Hflux Ha. destruct f as [faceI|patchI faceI].
  - apply assigned_internal in Ha as [? ?].
    by apply templated_zero_flux_internal.
  - apply assigned_patch in Ha as (?&?&?&?).
    by apply templated_zero_flux_coupled.
Qed.

Lemma unlimited_specialised vf tsfP tsfN f :
  limFac_ sch == 0 →
  ¬ at_face (faceFlux_ sch) f == 0 →
  assigned mesh tsfP f = true →
  valueAt sch mesh vf (Specialised.calcLimiter sch mesh vf tsfP tsfN) f
  == upwindAt sch tsfP tsfN f.
Proof.
  intros Hlim Hflux Ha. destruct f as [faceI|patchI faceI].
  - apply assigned_internal in Ha as [? ?]. by apply unlimited_internal.
  - apply assigned_patch in Ha as (?&?&?&?). by apply unlimited_coupled.
Qed.

Lemma unlimited_templated vf tsfP tsfN f cI :
  limFac_ sch == 0 →
  ¬ at_face (faceFlux_ sch) f == 0 →
  assigned mesh tsfP f = true →
  (cI < Templated.nComp (internalField vf))%nat →
  (cI < length (at_face tsfP f))%nat →
  valueAt sch mesh (liftVol (component cI) vf)
    (liftSurface (component cI)
       (Templated.calcLimiter sch mesh vf tsfP tsfN)) f
  == upwindAt sch (liftSurface (component cI) tsfP)
       (liftSurface (component cI) tsfN) f.
Proof.
  intros Hlim Hflux Ha Hc Hc'. destruct f as [faceI|patchI faceI].
  - apply assigned_internal in Ha as [? ?].
    by apply templated_unlimited_internal.
  - apply assigned_patch in Ha as (?&?&?&?).
    by apply templated_unlimited_coupled.
Qed.
End FaceStatements.

Section UniformValue.
Local Open Scope Q_scope.
Variable sch : WENOUpwindFit Q.
Variable mesh : fvMesh.
Variable c : Q.
Variable vf : volField Q.
Variables tsfP tsfN : surfaceField Q.
Hypothesis Hmesh : meshOk mesh = true.
Hypothesis Hvf : volOk mesh vf = true.
Hypothesis HtsfP : surfaceOk mesh tsfP = true.
Hypothesis HtsfN : surfaceOk mesh tsfN = true.
Hypothesis Uvf : uniformVol c vf.
Hypothesis UtsfP : uniformSurface c tsfP.
Hypothesis UtsfN : uniformSurface c tsfN.

Lemma uniform_face_value f :
  assigned mesh tsfP f = true →
  valueAt sch mesh vf (Specialised.calcLimiter sch mesh vf tsfP tsfN) f == c.
Proof using Hmesh Hvf HtsfP HtsfN Uvf UtsfP UtsfN.
  intros Ha. destruct f as [faceI|patchI faceI]; simpl.
  - apply assigned_internal in Ha as [Hf _].
    destruct (meshOk_face mesh Hmesh faceI Hf) as (HPN & HN & _).
    unfold faceValue.
    rewrite (uniform_internal_zero sch mesh c vf tsfP tsfN) by done.
    unfold donor. destruct (_ >=? _)%S.
    + rewrite (uniform_cell mesh c vf) by (done || lia). unfold_scalar. ring.
    + rewrite (uniform_cell mesh c vf) by (done || lia). unfold_scalar. ring.
  - apply assigned_patch in Ha as (Hp & Hc & Hf & Hl).
    pose proof (surfaceOk_boundary mesh tsfP HtsfP) as LB.
    destruct (surfaceOk_patch mesh tsfP patchI HtsfP) as [CP VP]; [lia|].
    unfold patchFaceValue.
    rewrite (uniform_coupled_zero sch mesh c vf tsfP tsfN)
      by (done || lia || congruence).
    unfold patchDonorValue. destruct (_ >=? _)%S.
    + rewrite (uniform_cell mesh c vf); [unfold_scalar; ring | done..|].
      apply meshOk_patch; [done | lia | done].
    + destruct Uvf as [_ UV].
      assert (Forall (λ x, x == c)
                (patchNeighbourField (volBoundaryField vf !!! patchI)))
        as UV'.
      { apply (Forall_lookup_total_1 _ _ _ UV).
        unfold volOk in Hvf. rewrite !andb_true_iff, !Nat.eqb_eq in Hvf.
        lia. }
      rewrite (Forall_lookup_total_1 _ _ _ UV').
      * unfold_scalar. ring.
      * rewrite (volOk_patch mesh vf patchI) by (done || lia || congruence).
        done.
Qed.
End UniformValue.

Section Store.
Context {S : Type}.
Variable build : fvMesh → label → WENOBase.t S.

Lemma calls_initialised keys b :
  WENOBase.calls build keys (Some b) = (replicate (length keys) b, Some b).
Proof.
  induction keys as [|k keys IH]; simpl; [done|]. by rewrite IH.
Qed.
End Store.

(** ** Exact facts of double arithmetic *)

Section Binary64.
Local Open Scope Z_scope.

Lemma digits_shift (p : positive) :
  Z.pos (digits2_pos (4503599627370496 * p)) = Z.pos (digits2_pos p) + 52.
Proof.
  change (4503599627370496 * p)%positive with (Pos.iter xO p 52%positive).
  cbn [Pos.iter digits2_pos]. lia.
Qed.

(** The product of [1.0] and a finite double is not rounded. *)
Lemma SF64mul_one_finite (s : bool) (m : positive) (e : Z) :
  bounded prec emax m e = true →
  SF64mul (S754_finite false 4503599627370496 (-52)) (S754_finite s m e)
  = S754_finite s m e.
Proof.
  intros Hb. unfold bounded, canonical_mantissa in Hb.
  apply andb_prop in Hb as [Hc He]. apply Z.eqb_eq in Hc.
  unfold SF64mul, SFmul, binary_round_aux.
  unfold shr_fexp at 1. unfold Zdigits2 at 1.
  rewrite digits_shift.
  replace (Z.pos (digits2_pos m) + 52 + (-52 + e))
    with (Z.pos (digits2_pos m) + e) by lia.
  rewrite Hc. replace (e - (-52 + e)) with 52 by lia.
  unfold shr.
  change (4503599627370496 * m)%positive with (Pos.iter xO m 52%positive).
  change (SpecFloat.iter_pos shr_1 52
            (shr_record_of_loc (Z.pos (Pos.iter xO m 52)) loc_Exact))
    with {| shr_m := Z.pos m; shr_r := false; shr_s := false |}.
  cbn [shr_m loc_of_shr_record round_nearest_even].
  unfold shr_fexp. cbn [Zdigits2].
  replace (-52 + e + 52) with e by lia.
  rewrite Hc, Z.sub_diag. cbn [shr shr_record_of_loc shr_m].
  by rewrite He.
Qed.

Lemma SF64mul_one (x : spec_float) :
  valid_binary x = true →
  SF64mul (S754_finite false 4503599627370496 (-52)) x = x.
Proof.
  destruct x as [s|s| |s m e]; intros Hv; try done.
  by apply SF64mul_one_finite.
Qed.

Lemma SF64sub_diag_finite (s : bool) (m : positive) (e : Z) :
  SF64sub (S754_finite s m e) (S754_finite s m e) = S754_zero false.
Proof.
  unfold SF64sub, SFsub. cbv zeta. by rewrite Z.sub_diag.
Qed.

Lemma SFcompare_refl_finite (s : bool) (m : positive) (e : Z) :
  SFcompare (S754_finite s m e) (S754_finite s m e) = Some Eq.
Proof.
  unfold SFcompare.
  by destruct s; rewrite Z.compare_refl, Pos.compare_cont_refl.
Qed.
End Binary64.

Section Doubles.
Local Open Scope float_scope.

Lemma finite_shape (x : float) : is_finite x = true → shape_of x.
Proof.
  unfold is_finite, is_nan, is_infinity.
  rewrite !FloatAxioms.eqb_spec, abs_spec.
  pose proof (Prim2SF_valid x) as Hv.
  destruct (Prim2SF x) as [s|s| |s m e] eqn:E; simpl.
  - intros _. by apply (is_zero_of x s).
  - by destruct s.
  - done.
  - intros _. by apply (is_regular x s m e).
Qed.

Lemma shape_finite (x : float) : shape_of x → is_finite x = true.
Proof.
  unfold is_finite, is_nan, is_infinity.
  rewrite !FloatAxioms.eqb_spec, abs_spec.
  intros [s E|s m e E Hb]; rewrite E; simpl.
  - done.
  - unfold SFeqb. rewrite SFcompare_refl_finite. done.
Qed.

Lemma double_of_spec (x y : float) : Prim2SF x = Prim2SF y → x = y.
Proof. apply Prim2SF_inj. Qed.

Lemma zero_cases (x : float) (s : bool) :
  Prim2SF x = S754_zero s → x = (if s then -0 else 0).
Proof. intros E. apply double_of_spec. rewrite E. by destruct s. Qed.

(** [1.0*x] is [x], for every double. *)
Lemma mul_one_l (x : float) : 1 * x = x.
Proof.
  apply double_of_spec. rewrite mul_spec.
  change (Prim2SF 1) with (S754_finite false 4503599627370496 (-52)).
  apply SF64mul_one, Prim2SF_valid.
Qed.

(** [x - x] is [+0.0] for a finite [x]. *)
Lemma sub_diag (x : float) : is_finite x = true → x - x = 0.
Proof.
  intros Hx. apply double_of_spec. rewrite sub_spec.
  destruct (finite_shape x Hx) as [s E|s m e E Hb]; rewrite E.
  - by destruct s.
  - by rewrite SF64sub_diag_finite.
Qed.

(** [0.0*x] is a zero for a finite [x]. *)
Lemma mul_zero_l (x : float) :
  is_finite x = true → 0 * x = 0 ∨ 0 * x = -0.
Proof.
  intros Hx.
  assert (∃ s, Prim2SF (0 * x) = S754_zero s) as [s Es].
  { rewrite mul_spec.
    destruct (finite_shape x Hx) as [s E|s m e E Hb]; rewrite E;
      by eexists. }
  apply zero_cases in Es. destruct s; auto.
Qed.

(** A sum with a zero. *)
Lemma add_zero_l (z x : float) :
  z = 0 ∨ z = -0 → x ≠ -0 → z + x = x.
Proof.
  intros Hz Hx. apply double_of_spec. rewrite add_spec.
  assert (Prim2SF x ≠ S754_zero true) as Hx'.
  { intros E. apply Hx. by apply (zero_cases x true). }
  destruct Hz as [-> | ->];
    destruct (Prim2SF x) as [[]|[]| | ]; done.
Qed.

Lemma add_zero_r (x z : float) :
  z = 0 ∨ z = -0 → x ≠ -0 → x + z = x.
Proof.
  intros Hz Hx. apply double_of_spec. rewrite add_spec.
  assert (Prim2SF x ≠ S754_zero true) as Hx'.
  { intros E. apply Hx. by apply (zero_cases x true). }
  destruct Hz as [-> | ->];
    destruct (Prim2SF x) as [[]|[]| | ]; done.
Qed.

(** The comparisons of the branches on a flux. *)
Lemma ltb_leb (x y : float) : (x <? y) = true → (x <=? y) = true.
Proof.
  rewrite FloatAxioms.ltb_spec, FloatAxioms.leb_spec. unfold SFltb, SFleb.
  by destruct (SFcompare _ _) as [[]|].
Qed.

Lemma SFcompare_antisym (x y : spec_float) :
  SFcompare y x = CompOpp <$> SFcompare x y.
Proof.
  destruct x as [[]|[]| |[] m e], y as [[]|[]| |[] m' e']; simpl; try done.
  - rewrite (Z.compare_antisym e e').
    destruct (e ?= e')%Z; simpl; try done.
    by rewrite (ZC4 m' m), CompOpp_involutive.
  - rewrite (Z.compare_antisym e e').
    destruct (e ?= e')%Z; simpl; try done.
    by rewrite (ZC4 m' m).
Qed.

Lemma ltb_not_leb (x y : float) : (x <? y) = true → (y <=? x) = false.
Proof.
  rewrite FloatAxioms.ltb_spec, FloatAxioms.leb_spec. unfold SFltb, SFleb.
  rewrite (SFcompare_antisym (Prim2SF x) (Prim2SF y)).
  by destruct (SFcompare _ _) as [[]|].
Qed.
End Doubles.

(** ** A field that is constant, in any arithmetic *)

Section Constant.
Context {S : Type} `{Scalar S}.
Variable sch : WENOUpwindFit S.
Variable mesh : fvMesh.
Variable c : S.
Variable vf : volField S.
Variables tsfP tsfN : surfaceField S.
Hypothesis Hmesh : meshOk mesh = true.
Hypothesis Hvf : volOk mesh vf = true.
Hypothesis HtsfP : surfaceOk mesh tsfP = true.
Hypothesis HtsfN : surfaceOk mesh tsfN = true.
Hypothesis Uvf : constantVol c vf.
Hypothesis UtsfP : constantSurface c tsfP.
Hypothesis UtsfN : constantSurface c tsfN.

(** What the arithmetic has to give at [c]: the test of the threshold
    succeeds, and the two assignments return zero for the coefficient
    one. *)
Hypothesis Harg : ∀ ext, arg ext c c = s_one.
Hypothesis Hlim : limited (limFac_ sch) s_one c c = s_zero.

Lemma constant_cell cellI :
  cellI < nCells mesh → internalField vf !!! cellI = c.
Proof using Hvf Uvf.
  intros Hc. destruct Uvf as [U _]. symmetry.
  apply (Forall_lookup_total_1 _ _ _ U).
  by rewrite (volOk_internal mesh vf Hvf).
Qed.

Lemma constant_internal (sf : surfaceField S) faceI :
  surfaceOk mesh sf = true → constantSurface c sf →
  faceI < nInternalFaces mesh → primitiveField sf !!! faceI = c.
Proof.
  intros Hok [U _] Hf. symmetry.
  apply (Forall_lookup_total_1 _ _ _ U).
  by rewrite (surfaceOk_primitive mesh sf Hok).
Qed.

Lemma constant_patch (sf : surfaceField S) patchI faceI :
  surfaceOk mesh sf = true → constantSurface c sf →
  patchI < length (boundary mesh) →
  faceI < length (faceCells (boundary mesh !!! patchI)) →
  patchValues (boundaryField sf !!! patchI) !!! faceI = c.
Proof.
  intros Hok [_ U] Hp Hf. symmetry.
  pose proof (surfaceOk_boundary mesh sf Hok) as LB.
  destruct (surfaceOk_patch mesh sf patchI Hok Hp) as [_ LV].
  assert (Forall (eq c) (patchValues (boundaryField sf !!! patchI))) as U'
    by (apply (Forall_lookup_total_1 _ _ _ U); lia).
  apply (Forall_lookup_total_1 _ _ _ U'). lia.
Qed.

Lemma constant_widen : widen c (c, c) = (c, c).
Proof. unfold widen. simpl. by destruct (s_lt c c). Qed.

Lemma constant_scan cellI faces :
  foldl (Specialised.scanFace mesh (primitiveField tsfP)
           (primitiveField tsfN) cellI) (c, c) faces
  = (c, c).
Proof using HtsfP HtsfN UtsfP UtsfN.
  induction faces as [|f faces IH]; [done|]. simpl.
  unfold Specialised.scanFace at 2.
  destruct (f <? nInternalFaces mesh) eqn:Ef; [|done].
  apply Nat.ltb_lt in Ef.
  rewrite !constant_internal by done.
  destruct (_ =? _); by rewrite constant_widen.
Qed.

Lemma constant_theta cellI :
  cellI < nCells mesh →
  Specialised.calcTheta mesh (internalField vf) (primitiveField tsfP)
    (primitiveField tsfN) !!! cellI
  = s_one.
Proof using Hvf HtsfP HtsfN Uvf UtsfP UtsfN Harg.
  intros Hc. rewrite calcTheta_lookup by done.
  unfold Specialised.thetaCell, Specialised.scanCell. cbv zeta.
  rewrite constant_cell by done. rewrite constant_scan. simpl.
  unfold thetaOf. cbv zeta. rewrite !Harg.
  unfold min. destruct (s_lt s_one s_one); by destruct (s_lt s_one s_one).
Qed.

Lemma constant_face f :
  assigned mesh tsfP f = true →
  face_lookup (Specialised.calcLimiter sch mesh vf tsfP tsfN) f
  = Some s_zero.
Proof using Hmesh Hvf HtsfP HtsfN Uvf UtsfP UtsfN Harg Hlim.
  intros Ha. destruct f as [faceI|patchI faceI].
  - apply assigned_internal in Ha as [Hf Hl]. unfold face_lookup.
    destruct (meshOk_face mesh Hmesh faceI Hf) as (HPN & HN & _).
    rewrite list_lookup_lookup_total_lt
      by (by rewrite calcLimiter_primitive_length).
    f_equal. rewrite calcLimiter_face by done.
    unfold Specialised.limitFace. cbv zeta.
    destruct (_ >? _)%S; [|destruct (_ <? _)%S; [|done]].
    + by rewrite constant_theta, constant_cell, constant_internal
        by (done || lia).
    + by rewrite constant_theta, constant_cell, constant_internal
        by (done || lia).
  - apply assigned_patch in Ha as (Hp & Hc & Hf & Hl). unfold face_lookup.
    pose proof (surfaceOk_boundary mesh tsfP HtsfP) as LP.
    destruct (surfaceOk_patch mesh tsfP patchI HtsfP ltac:(lia))
      as [CP VP].
    pose proof (volOk_patch mesh vf patchI Hvf ltac:(lia)
                  ltac:(congruence)) as VV.
    pose proof (meshOk_patch mesh Hmesh patchI faceI ltac:(lia) Hf) as Hown.
    rewrite list_lookup_lookup_total_lt
      by (by rewrite calcLimiter_boundary_length).
    cbn [mbind option_bind]. rewrite list_lookup_lookup_total_lt
      by (by rewrite calcLimiter_patch, limitPatch_length).
    f_equal. rewrite calcLimiter_patch, limitPatch_face by done.
    unfold Specialised.limitPatchFace. cbv zeta.
    destruct (_ >? _)%S; [|destruct (_ <? _)%S; [|done]].
    + by rewrite constant_theta, constant_cell, constant_patch
        by (done || lia).
    + rewrite constant_patch by (done || lia).
      destruct Uvf as [_ UV].
      assert (Forall (eq c)
                (patchNeighbourField (volBoundaryField vf !!! patchI)))
        as UV'.
      { apply (Forall_lookup_total_1 _ _ _ UV).
        unfold volOk in Hvf. rewrite !andb_true_iff, !Nat.eqb_eq in Hvf.
        lia. }
      assert (patchNeighbourField (volBoundaryField vf !!! patchI) !!! faceI
              = c) as ->
        by (symmetry; apply (Forall_lookup_total_1 _ _ _ UV'); lia).
      done.
Qed.

Lemma constant_donor f :
  assigned mesh tsfP f = true → donorValueAt sch mesh vf f = c.
Proof using Hmesh Hvf HtsfP Uvf.
  intros Ha. destruct f as [faceI|patchI faceI]; unfold donorValueAt.
  - apply assigned_internal in Ha as [Hf Hl].
    destruct (meshOk_face mesh Hmesh faceI Hf) as (HPN & HN & _).
    apply constant_cell. unfold donor. destruct (_ >=? _)%S; lia.
  - apply assigned_patch in Ha as (Hp & Hc & Hf & Hl).
    pose proof (surfaceOk_boundary mesh tsfP HtsfP) as LP.
    destruct (surfaceOk_patch mesh tsfP patchI HtsfP ltac:(lia))
      as [CP VP].
    pose proof (volOk_patch mesh vf patchI Hvf ltac:(lia)
                  ltac:(congruence)) as VV.
    pose proof (meshOk_patch mesh Hmesh patchI faceI ltac:(lia) Hf) as Hown.
    unfold patchDonorValue. destruct (_ >=? _)%S.
    + by apply constant_cell.
    + destruct Uvf as [_ UV]. symmetry.
      assert (Forall (eq c)
                (patchNeighbourField (volBoundaryField vf !!! patchI)))
        as UV'.
      { apply (Forall_lookup_total_1 _ _ _ UV).
        unfold volOk in Hvf. rewrite !andb_true_iff, !Nat.eqb_eq in Hvf.
        lia. }
      apply (Forall_lookup_total_1 _ _ _ UV'). lia.
Qed.
End Constant.

(** ** The constant field in doubles *)

Section ConstantDouble.
Local Open Scope float_scope.

Lemma regular_not_zero (x : float) s m e :
  Prim2SF x = S754_finite s m e → x ≠ 0 ∧ x ≠ -0.
Proof. intros E. split; intros ->; discriminate E. Qed.

Lemma arg_constant (ext c : float) : is_finite c = true → arg ext c c = 1.
Proof.
  intros Hc. unfold arg. cbn [s_sub mag s_lt s_small s_one double_scalar].
  by rewrite sub_diag.
Qed.

Lemma limited_constant (lim c : float) :
  is_finite c = true → lim = 0 ∨ lim = 1 → limited lim 1 c c = 0.
Proof.
  intros Hc Hlim. unfold limited. cbv zeta.
  cbn [s_sub s_add s_mul s_one double_scalar].
  destruct (finite_shape c Hc) as [s E|s m e E Hb].
  - apply zero_cases in E. by destruct s, Hlim; subst.
  - destruct (regular_not_zero c s m e E) as [Hz Hnz].
    rewrite sub_diag, mul_one_l, (add_zero_l 0 c) by auto.
    destruct Hlim as [-> | ->].
    + change (1 - 0) with 1. rewrite mul_one_l.
      rewrite (add_zero_l (0 * c) c) by (by apply mul_zero_l || done).
      by apply sub_diag.
    + change (1 - 1) with 0. rewrite mul_one_l.
      rewrite (add_zero_r c (0 * c)) by (by apply mul_zero_l || done).
      by apply sub_diag.
Qed.

Lemma add_zero_same (c : float) : same (c + 0) c.
Proof.
  destruct (Prim2SF c) as [[]|s| |s m e] eqn:E.
  - apply (zero_cases c true) in E. subst. by right.
  - apply (zero_cases c false) in E. subst. by left.
  - left. apply double_of_spec. by rewrite add_spec, E.
  - left. apply double_of_spec. by rewrite add_spec, E.
  - left. apply double_of_spec. by rewrite add_spec, E.
Qed.
End ConstantDouble.

Section ShapeLemmas.
Context {A : Type} `{Inhabited A}.

Lemma forAll_upd_forget n (g : nat → A → A) (l : list A) :
  (λ _, ()) <$> forAll_upd n g l = (λ _, ()) <$> l.
Proof.
  apply list_eq. intros i.
  rewrite !list_lookup_fmap, forAll_upd_lookup. by destruct (l !! i).
Qed.

Lemma forAll_upd_fmap_fixed {B} (f : A → B) n (g : nat → A → A) l :
  (∀ i x, i < n → l !! i = Some x → f (g i x) = f x) →
  f <$> forAll_upd n g l = f <$> l.
Proof.
  intros Hg. apply list_eq. intros i.
  rewrite !list_lookup_fmap, forAll_upd_lookup.
  destruct (l !! i) as [x|] eqn:Hx; simpl; [|done].
  case_decide; [|done]. f_equal. by apply Hg.
Qed.

Lemma forAll_upd_fixed n (g : nat → A → A) l i x :
  l !! i = Some x → (i < n → g i x = x) → forAll_upd n g l !! i = Some x.
Proof.
  intros Hx Hg. rewrite forAll_upd_lookup, Hx. simpl.
  case_decide; [|done]. f_equal. by apply Hg.
Qed.
End ShapeLemmas.

Section SpecialisedShape.
Context {S : Type} `{Scalar S}.
Variable sch : WENOUpwindFit S.
Variable mesh : fvMesh.

Lemma limitPatch_forget vf theta tsfN patchI pb :
  liftPatch (λ _, ())
    (Specialised.limitPatch sch mesh vf theta tsfN patchI pb)
  = liftPatch (λ _, ()) pb.
Proof.
  unfold Specialised.limitPatch. destruct (coupled pb) eqn:E; [|done].
  unfold liftPatch. simpl. by rewrite E, forAll_upd_forget.
Qed.

Lemma calcLimiter_shape vf tsfP tsfN :
  shape (Specialised.calcLimiter sch mesh vf tsfP tsfN) = shape tsfP.
Proof.
  unfold shape, liftSurface, Specialised.calcLimiter. simpl. f_equal.
  - apply forAll_upd_forget.
  - apply forAll_upd_fmap_fixed. intros. apply limitPatch_forget.
Qed.

Lemma calcLimiter_uncoupled vf tsfP tsfN patchI p :
  boundaryField tsfP !! patchI = Some p → coupled p = false →
  boundaryField (Specialised.calcLimiter sch mesh vf tsfP tsfN) !! patchI
  = Some p.
Proof.
  intros Hp Hc. unfold Specialised.calcLimiter. simpl.
  apply forAll_upd_fixed; [done|]. intros _.
  by apply limitPatch_uncoupled.
Qed.
End SpecialisedShape.

Section TemplatedShape.
Context {S : Type} `{Scalar S}.
Variable sch : WENOUpwindFit S.
Variable mesh : fvMesh.

Lemma templated_limitPatch_forget vf theta tsfN patchI pb :
  liftPatch (λ _, ())
    (Templated.limitPatch sch mesh vf theta tsfN patchI pb)
  = liftPatch (λ _, ()) pb.
Proof.
  unfold Templated.limitPatch. destruct (coupled pb) eqn:E; [|done].
  unfold liftPatch. simpl. by rewrite E, forAll_upd_forget.
Qed.

Lemma templated_shape vf tsfP tsfN :
  shape (Templated.calcLimiter sch mesh vf tsfP tsfN) = shape tsfP.
Proof.
  unfold shape, liftSurface, Templated.calcLimiter. simpl. f_equal.
  - apply forAll_upd_forget.
  - apply forAll_upd_fmap_fixed. intros. apply templated_limitPatch_forget.
Qed.

Lemma templated_uncoupled vf tsfP tsfN patchI p :
  boundaryField tsfP !! patchI = Some p → coupled p = false →
  boundaryField (Templated.calcLimiter sch mesh vf tsfP tsfN) !! patchI
  = Some p.
Proof.
  intros Hp Hc. unfold Templated.calcLimiter. simpl.
  apply forAll_upd_fixed; [done|]. intros _.
  unfold Templated.limitPatch. by rewrite Hc.
Qed.
End TemplatedShape.

Lemma surfaceOk_shape {T U} mesh (sf : surfaceField T) (sf' : surfaceField U) :
  shape sf = shape sf' → surfaceOk mesh sf = surfaceOk mesh sf'.
Proof.
  intros E. unfold shape, liftSurface in E. injection E as E1 E2.
  assert (length (primitiveField sf) = length (primitiveField sf')) as L1
    by (rewrite <- (length_fmap (λ _, ()) (primitiveField sf)), E1;
        apply length_fmap).
  assert (length (boundaryField sf) = length (boundaryField sf')) as L2
    by (rewrite <- (length_fmap (liftPatch (λ _, ())) (boundaryField sf)), E2;
        apply length_fmap).
  unfold surfaceOk. rewrite L1, L2. f_equal.
  revert E2. generalize (boundaryField sf) (boundaryField sf') (boundary mesh).
  clear. induction l as [|p l IH]; intros [|p' l'] bs E; try done.
  - by destruct bs.
  - injection E as Ec Ev El. destruct bs as [|b bs]; [done|]. simpl.
    rewrite (IH l' bs El). f_equal.
    rewrite Ec. f_equal.
    rewrite <- (length_fmap (λ _, ()) (patchValues p)), Ev.
    by rewrite length_fmap.
Qed.

Section Coefficient.
Local Open Scope Q_scope.

Lemma arg_ge_one_above (maxPhi maxP v : Q) :
  v <= maxP → maxP <= maxPhi → 1 <= arg maxPhi maxP v.
Proof.
  intros H1 H2.
  destruct (arg_above maxPhi maxP v) as [[_ ->]|[Hs E]]; [lra.. | lra |].
  unfold_scalar. pose proof (arg_nonneg maxPhi maxP v). nra.
Qed.

Lemma arg_ge_one_below (minPhi minP v : Q) :
  minPhi <= minP → minP <= v → 1 <= arg minPhi minP v.
Proof.
  intros H1 H2.
  destruct (arg_below minPhi minP v) as [[_ ->]|[Hs E]]; [lra.. | lra |].
  unfold_scalar. pose proof (arg_nonneg minPhi minP v). nra.
Qed.

Lemma thetaOf_one (maxPhi minPhi maxP minP v : Q) :
  1 <= arg maxPhi maxP v → 1 <= arg minPhi minP v →
  thetaOf maxPhi minPhi maxP minP v = 1.
Proof.
  intros HM Hm. unfold thetaOf. cbv zeta.
  destruct (min_spec (arg maxPhi maxP v) (arg minPhi minP v))
    as [[_ ->]|[_ ->]]; unfold min; unfold_scalar.
  - by rewrite (proj2 (Qlt_bool_false _ _) HM).
  - by rewrite (proj2 (Qlt_bool_false _ _) Hm).
Qed.
End Coefficient.

Section ScanBounded.
Local Open Scope Q_scope.
Variable mesh : fvMesh.
Variables tsfP tsfN : list Q.

Lemma widen_bounded (A B t : Q) (mm : Q * Q) :
  A <= mm.2 → mm.1 <= B → A <= t <= B →
  A <= (widen t mm).2 ∧ (widen t mm).1 <= B.
Proof.
  intros H1 H2 [H3 H4]. unfold widen.
  destruct (_ >? _)%S; [done|]. by destruct (_ <? _)%S.
Qed.

Lemma scan_fold_bounded (A B : Q) cellI faces (mm : Q * Q) :
  A <= mm.2 → mm.1 <= B →
  (∀ f, f ∈ faces → (f < nInternalFaces mesh)%nat →
        A <= side mesh tsfP tsfN cellI f <= B) →
  let r := foldl (Specialised.scanFace mesh tsfP tsfN cellI) mm faces in
  A <= r.2 ∧ r.1 <= B.
Proof.
  revert mm. induction faces as [|f faces IH]; intros mm H1 H2 Hall; simpl.
  - done.
  - apply IH.
    + unfold Specialised.scanFace.
      destruct (Nat.ltb_spec f (nInternalFaces mesh)) as [Hf|Hf]; [|done].
      specialize (Hall f (list_elem_of_here _ _) Hf). unfold side in Hall.
      destruct (cellI =? owner mesh !!! f)%nat;
        by apply (widen_bounded A B).
    + unfold Specialised.scanFace.
      destruct (Nat.ltb_spec f (nInternalFaces mesh)) as [Hf|Hf]; [|done].
      specialize (Hall f (list_elem_of_here _ _) Hf). unfold side in Hall.
      destruct (cellI =? owner mesh !!! f)%nat;
        by apply (widen_bounded A B).
    + intros f' Hin. apply Hall. by right.
Qed.

Lemma thetaCell_inactive vfI cellI :
  (cellI < length vfI)%nat →
  (∀ f, f ∈ cells mesh !!! cellI → (f < nInternalFaces mesh)%nat →
        minField vfI <= side mesh tsfP tsfN cellI f <= maxField vfI) →
  Specialised.thetaCell mesh vfI tsfP tsfN cellI = 1.
Proof.
  intros Hc Hall. unfold Specialised.thetaCell. cbv zeta.
  destruct (field_within vfI cellI Hc) as [Hv1 Hv2].
  destruct (scanCell_spec mesh tsfP tsfN vfI cellI) as [[Hs1 Hs2] _].
  destruct (scan_fold_bounded (minField vfI) (maxField vfI) cellI
              (cells mesh !!! cellI) (vfI !!! cellI, vfI !!! cellI))
    as [Hb1 Hb2]; [done..|].
  fold (Specialised.scanCell mesh vfI tsfP tsfN cellI) in Hb1, Hb2.
  apply thetaOf_one.
  - by apply arg_ge_one_above.
  - by apply arg_ge_one_below.
Qed.
End ScanBounded.

Lemma zip_with_lookup_total {A} `{Inhabited A} (f : A → A → A)
    (x y : list A) i :
  i < length x → i < length y → zip_with f x y !!! i = f (x !!! i) (y !!! i).
Proof.
  intros Hx Hy. rewrite (list_lookup_total_alt (zip_with f x y)).
  rewrite lookup_zip_with.
  by rewrite (list_lookup_lookup_total_lt x i), (list_lookup_lookup_total_lt y i).
Qed.

Lemma list_insert_lookup_total {A} `{Inhabited A} (l : list A) i :
  i < length l → <[i := l !!! i]> l = l.
Proof. intros Hi. apply list_insert_id. by apply list_lookup_lookup_total_lt. Qed.

Section Component.
Context {S : Type} `{Scalar S}.
Variable sch : WENOUpwindFit S.
Variable mesh : fvMesh.
Variable cI : label.

Local Abbreviation pi := (component cI).

(** The extremes of the field. *)
Lemma maxFieldT_fold_component (l : list (list S)) (M : list S) :
  cI < length M → Forall (λ v, cI < length v) l →
  cI < length (foldl (λ Max x, zip_with max x Max) M l)
  ∧ foldl (λ Max x, zip_with max x Max) M l !!! cI
    = foldl (λ Max x, max x Max) (M !!! cI) (pi <$> l).
Proof.
  revert M. induction l as [|x l IH]; intros M HM Hl; simpl; [done|].
  apply Forall_cons in Hl as [Hx Hl].
  destruct (IH (zip_with max x M)) as [H1 H2]; [|done|].
  - rewrite length_zip_with. lia.
  - split; [done|]. rewrite H2. by rewrite zip_with_lookup_total.
Qed.

Lemma minFieldT_fold_component (l : list (list S)) (M : list S) :
  cI < length M → Forall (λ v, cI < length v) l →
  cI < length (foldl (λ Min x, zip_with min x Min) M l)
  ∧ foldl (λ Min x, zip_with min x Min) M l !!! cI
    = foldl (λ Min x, min x Min) (M !!! cI) (pi <$> l).
Proof.
  revert M. induction l as [|x l IH]; intros M HM Hl; simpl; [done|].
  apply Forall_cons in Hl as [Hx Hl].
  destruct (IH (zip_with min x M)) as [H1 H2]; [|done|].
  - rewrite length_zip_with. lia.
  - split; [done|]. rewrite H2. by rewrite zip_with_lookup_total.
Qed.

Lemma maxFieldT_component n (vfI : list (list S)) :
  vfI ≠ [] → Forall (λ v, cI < length v) vfI →
  Templated.maxFieldT n vfI !!! cI = maxField (pi <$> vfI).
Proof.
  intros Hne Hl. destruct vfI as [|f0 f]; [done|].
  unfold Templated.maxFieldT, maxField. rewrite fmap_cons.
  apply maxFieldT_fold_component; [|done].
  by apply Forall_cons in Hl as [? _].
Qed.

Lemma minFieldT_component n (vfI : list (list S)) :
  vfI ≠ [] → Forall (λ v, cI < length v) vfI →
  Templated.minFieldT n vfI !!! cI = minField (pi <$> vfI).
Proof.
  intros Hne Hl. destruct vfI as [|f0 f]; [done|].
  unfold Templated.minFieldT, minField. rewrite fmap_cons.
  apply minFieldT_fold_component; [|done].
  by apply Forall_cons in Hl as [? _].
Qed.

(** The scan of the faces of a cell touches component [cI] of [maxP]
    and [minP] only. *)
Lemma widenC_component t (maxP minP : list S) :
  cI < length maxP → cI < length minP →
  Templated.widenC cI t (maxP, minP)
  = (<[cI := (widen t (maxP !!! cI, minP !!! cI)).1]> maxP,
     <[cI := (widen t (maxP !!! cI, minP !!! cI)).2]> minP).
Proof.
  intros HM Hm. unfold Templated.widenC, widen. simpl.
  destruct (_ >? _)%S; simpl.
  - by rewrite (list_insert_lookup_total minP).
  - destruct (_ <? _)%S; simpl.
    + by rewrite (list_insert_lookup_total maxP).
    + by rewrite (list_insert_lookup_total maxP),
        (list_insert_lookup_total minP).
Qed.

Lemma scanFace_component (tsfP tsfN : list (list S)) cellI
    (maxP minP : list S) f :
  cI < length maxP → cI < length minP →
  let s := Specialised.scanFace mesh (pi <$> tsfP) (pi <$> tsfN) cellI
             (maxP !!! cI, minP !!! cI) f in
  Templated.scanFace mesh tsfP tsfN cellI cI (maxP, minP) f
  = (<[cI := s.1]> maxP, <[cI := s.2]> minP).
Proof.
  intros HM Hm. unfold Templated.scanFace, Specialised.scanFace. cbv zeta.
  destruct (f <? nInternalFaces mesh).
  - rewrite !component_lookup.
    destruct (cellI =? owner mesh !!! f); by apply widenC_component.
  - simpl. by rewrite (list_insert_lookup_total maxP),
      (list_insert_lookup_total minP).
Qed.

Lemma scan_component (tsfP tsfN : list (list S)) cellI faces
    (maxP minP : list S) :
  cI < length maxP → cI < length minP →
  let r := foldl (Specialised.scanFace mesh (pi <$> tsfP) (pi <$> tsfN)
                    cellI) (maxP !!! cI, minP !!! cI) faces in
  foldl (Templated.scanFace mesh tsfP tsfN cellI cI) (maxP, minP) faces
  = (<[cI := r.1]> maxP, <[cI := r.2]> minP).
Proof.
  revert maxP minP. induction faces as [|f faces IH];
    intros maxP minP HM Hm; simpl.
  - by rewrite (list_insert_lookup_total maxP),
      (list_insert_lookup_total minP).
  - rewrite scanFace_component by done. cbv zeta.
    rewrite IH by (by rewrite length_insert).
    rewrite !list_lookup_total_insert_eq by done.
    rewrite !list_insert_insert_eq.
    by destruct (Specialised.scanFace _ _ _ _ _ _).
Qed.
End Component.

Section ComponentTheta.
Context {S : Type} `{Scalar S}.
Variable mesh : fvMesh.
Variables vfI tsfP tsfN : list (list S).
Variable cellI : label.

Lemma thetaComp_loop n (th : list S) k :
  length (vfI !!! cellI) = n → length th = n → k ≤ n →
  let st := foldl (Templated.thetaComp mesh vfI tsfP tsfN cellI)
              (vfI !!! cellI, vfI !!! cellI, th) (seq 0 k) in
  length st.1.1 = n ∧ length st.1.2 = n ∧ length st.2 = n
  ∧ (∀ c, k ≤ c → st.1.1 !!! c = (vfI !!! cellI) !!! c
                  ∧ st.1.2 !!! c = (vfI !!! cellI) !!! c)
  ∧ (∀ c, c < k →
       st.2 !!! c
       = let r := foldl (Specialised.scanFace mesh (component c <$> tsfP)
                           (component c <$> tsfN) cellI)
                    ((vfI !!! cellI) !!! c, (vfI !!! cellI) !!! c)
                    (cells mesh !!! cellI) in
         thetaOf (Templated.maxFieldT (Templated.nComp vfI) vfI !!! c)
           (Templated.minFieldT (Templated.nComp vfI) vfI !!! c)
           r.1 r.2 ((vfI !!! cellI) !!! c)).
Proof.
  intros Hv Hth. induction k as [|k IH]; intros Hk; cbv zeta.
  - simpl. split_and!; try done. intros c Hc. lia.
  - rewrite seq_S, foldl_app. simpl.
    destruct IH as (L1 & L2 & L3 & Hrest & Hdone); [lia|].
    set (st := foldl (Templated.thetaComp mesh vfI tsfP tsfN cellI)
                 (vfI !!! cellI, vfI !!! cellI, th) (seq 0 k)) in *.
    destruct st as [[maxP minP] th']. simpl in *.
    unfold Templated.thetaComp. cbv zeta. simpl.
    rewrite (scan_component mesh k tsfP tsfN cellI (cells mesh !!! cellI)
               maxP minP) by lia.
    cbv zeta. destruct (Hrest k) as [-> ->]; [lia|]. simpl.
    rewrite !list_lookup_total_insert_eq by lia.
    rewrite !length_insert. split_and!; try done.
    + intros c Hc. rewrite !list_lookup_total_insert_ne by lia.
      apply Hrest. lia.
    + intros c Hc. destruct (decide (c = k)) as [->|Hne].
      * by rewrite list_lookup_total_insert_eq by lia.
      * rewrite list_lookup_total_insert_ne by done. apply Hdone. lia.
Qed.

Lemma thetaCell_component cI :
  vfI ≠ [] → components (Templated.nComp vfI) vfI →
  cellI < length vfI → cI < Templated.nComp vfI →
  component cI
    (Templated.thetaCell mesh vfI tsfP tsfN cellI
       (Templated.zeroT (Templated.nComp vfI)))
  = Specialised.thetaCell mesh (component cI <$> vfI)
      (component cI <$> tsfP) (component cI <$> tsfN) cellI.
Proof.
  intros Hne Hrows Hc HcI. unfold Templated.thetaCell.
  set (n := Templated.nComp vfI) in *.
  assert (length (vfI !!! cellI) = n) as Hv
    by (by apply (Forall_lookup_total_1 _ _ _ Hrows)).
  destruct (thetaComp_loop n (Templated.zeroT n) n Hv) as (_ & _ & _ & _ & Hdone);
    [apply length_replicate | done |].
  unfold component at 1. rewrite Hdone by done.
  unfold Specialised.thetaCell, Specialised.scanCell. cbv zeta.
  assert (Forall (λ v : list S, cI < length v) vfI) as Hlt.
  { eapply Forall_impl; [exact Hrows|]. simpl. intros v ->. done. }
  fold n. rewrite maxFieldT_component, minFieldT_component by done.
  by rewrite !component_lookup.
Qed.

End ComponentTheta.

Section ComponentLimiter.
Context {S : Type} `{Scalar S}.
Variable sch : WENOUpwindFit S.
Variable mesh : fvMesh.
Variable cI : label.

Lemma calcTheta_component (vfI tsfP tsfN : list (list S)) :
  components (Templated.nComp vfI) vfI →
  length vfI = nCells mesh → cI < Templated.nComp vfI →
  component cI <$> Templated.calcTheta mesh vfI tsfP tsfN
  = Specialised.calcTheta mesh (component cI <$> vfI)
      (component cI <$> tsfP) (component cI <$> tsfN).
Proof.
  intros Hrows Hlen HcI.
  assert (vfI ≠ []) as Hne.
  { intros ->. unfold Templated.nComp in HcI. simpl in HcI. lia. }
  unfold Templated.calcTheta, Specialised.calcTheta.
  symmetry.
  assert (replicate (nCells mesh) s_zero
          = component cI <$> replicate (nCells mesh)
              (Templated.zeroT (Templated.nComp vfI))) as ->.
  { rewrite fmap_replicate. f_equal. unfold component.
    symmetry. apply replicate_zero_lookup. }
  apply forAll_upd_fmap. intros i x Hi Hx.
  apply lookup_replicate in Hx as [-> _]. symmetry.
  apply thetaCell_component; [done | done | lia | done].
Qed.

Lemma zeroT_component n : component cI (Templated.zeroT n) = s_zero.
Proof. apply replicate_zero_lookup. Qed.

Lemma limitFace_component (vfI theta tsfN : list (list S)) faceI t :
  cI < Templated.nComp vfI → cI < length t →
  component cI (Templated.limitFace sch mesh vfI theta tsfN faceI t)
  = Specialised.limitFace sch mesh (component cI <$> vfI)
      (component cI <$> theta) (component cI <$> tsfN) faceI
      (component cI t).
Proof.
  intros Hn Ht. unfold Templated.limitFace, Specialised.limitFace.
  cbv zeta. destruct (_ >? s_zero)%S; [|destruct (_ <? s_zero)%S].
  - unfold component at 1. rewrite forAll_upd_lookup_total by done.
    by rewrite !component_lookup.
  - unfold component at 1. rewrite forAll_upd_lookup_total by done.
    by rewrite !component_lookup.
  - apply zeroT_component.
Qed.

Lemma limitPatchFace_component (vfI theta : list (list S)) pOwner pFaceFlux
    (vfN pbtsfN : list (list S)) faceI t :
  cI < Templated.nComp vfI → cI < length t →
  component cI
    (Templated.limitPatchFace sch vfI theta pOwner pFaceFlux vfN pbtsfN
       faceI t)
  = Specialised.limitPatchFace sch (component cI <$> vfI)
      (component cI <$> theta) pOwner pFaceFlux (component cI <$> vfN)
      (component cI <$> pbtsfN) faceI (component cI t).
Proof.
  intros Hn Ht. unfold Templated.limitPatchFace, Specialised.limitPatchFace.
  cbv zeta. destruct (_ >? s_zero)%S; [|destruct (_ <? s_zero)%S].
  - unfold component at 1. rewrite forAll_upd_lookup_total by done.
    by rewrite !component_lookup.
  - unfold component at 1. rewrite forAll_upd_lookup_total by done.
    by rewrite !component_lookup.
  - apply zeroT_component.
Qed.

Lemma limitPatch_component (vf : volField (list S)) (theta : list (list S))
    (tsfN : surfaceField (list S)) patchI (pb : fvsPatchField (list S)) :
  cI < Templated.nComp (internalField vf) →
  Forall (λ t, cI < length t) (patchValues pb) →
  liftPatch (component cI)
    (Templated.limitPatch sch mesh vf theta tsfN patchI pb)
  = Specialised.limitPatch sch mesh (liftVol (component cI) vf)
      (component cI <$> theta) (liftSurface (component cI) tsfN) patchI
      (liftPatch (component cI) pb).
Proof.
  intros Hn Hrows. unfold Templated.limitPatch, Specialised.limitPatch.
  cbv zeta. rewrite liftSurface_patch_values, liftVol_patch_neighbour.
  rewrite liftVol_internal.
  change (coupled (liftPatch (component cI) pb)) with (coupled pb).
  destruct (coupled pb); [|done].
  unfold liftPatch. simpl. f_equal. symmetry.
  apply forAll_upd_fmap. intros faceI t _ Ht. symmetry.
  apply limitPatchFace_component; [done|].
  by apply (Forall_lookup_1 _ _ _ _ Hrows Ht).
Qed.

(** Component [cI] of what the template computes is what the
    specialisation computes from the fields of the components [cI]. *)
Lemma calcLimiter_component (vf : volField (list S))
    (tsfP tsfN : surfaceField (list S)) :
  let n := Templated.nComp (internalField vf) in
  cI < n → components n (internalField vf) →
  length (internalField vf) = nCells mesh →
  surfaceComponents n tsfP →
  liftSurface (component cI) (Templated.calcLimiter sch mesh vf tsfP tsfN)
  = Specialised.calcLimiter sch mesh (liftVol (component cI) vf)
      (liftSurface (component cI) tsfP) (liftSurface (component cI) tsfN).
Proof.
  intros n HcI Hrows Hlen [HP HB].
  unfold Templated.calcLimiter, Specialised.calcLimiter. cbv zeta.
  rewrite liftVol_internal, !liftSurface_primitive.
  rewrite <- calcTheta_component by done.
  unfold liftSurface. cbn [primitiveField boundaryField]. f_equal.
  - symmetry. apply forAll_upd_fmap. intros faceI t _ Ht. symmetry.
    apply limitFace_component; [done|].
    rewrite (Forall_lookup_1 _ _ _ _ HP Ht). done.
  - rewrite length_fmap. symmetry.
    apply forAll_upd_fmap. intros patchI pb _ Hpb. symmetry.
    apply limitPatch_component; [done|].
    pose proof (Forall_lookup_1 _ _ _ _ HB Hpb) as Hp.
    eapply Forall_impl; [exact Hp|]. simpl. intros v ->. done.
Qed.
End ComponentLimiter.

Lemma foldl_commute_perm {A B} (f : A → B → A) (l l' : list B) :
  (∀ a x y, f (f a x) y = f (f a y) x) →
  l ≡ₚ l' → ∀ a, foldl f a l = foldl f a l'.
Proof.
  intros Hc Hp. induction Hp as [|x l l' _ IH|x y l|l l' l'' _ IH1 _ IH2];
    intros a; simpl.
  - done.
  - apply IH.
  - by rewrite Hc.
  - by rewrite IH1.
Qed.

Lemma foldl_pointwise {A B} (f g : A → B → A) (l : list B) :
  (∀ a x, f a x = g a x) → ∀ a, foldl f a l = foldl g a l.
Proof.
  intros Hfg. induction l as [|x l IH]; intros a; simpl; [done|].
  by rewrite Hfg, IH.
Qed.

Lemma insert_swap {A} `{Inhabited A} (g : label → A → A) (l : list A) i j :
  <[j := g j (<[i := g i (l !!! i)]> l !!! j)]> (<[i := g i (l !!! i)]> l)
  = <[i := g i (<[j := g j (l !!! j)]> l !!! i)]> (<[j := g j (l !!! j)]> l).
Proof.
  destruct (decide (i = j)) as [->|Hne]; [done|].
  rewrite !list_lookup_total_insert_ne by done.
  by apply list_insert_insert_ne.
Qed.

Module ReorderedFacts.
Import Procedure ProcedureFacts.
Section Run.
Context {S T Theta : Type} `{Scalar S} `{Inhabited T}.
Variable mesh : fvMesh.
Variable thetaF : list T → list T → list T → Theta.
Variable faceF :
  WENOUpwindFit S → list T → Theta → list T → label → T → T.
Variable patchF :
  WENOUpwindFit S → list T → Theta → list label → list S → list T →
  list T → label → T → T.

Local Abbreviation World := (World S T).

(** A step reads the slot that it assigns and no other slot of
    [tsfP]. *)
Lemma faceStep_commute theta (w : World) i j :
  faceStep faceF theta (faceStep faceF theta w i) j
  = faceStep faceF theta (faceStep faceF theta w j) i.
Proof.
  unfold faceStep, assignFace. simpl. f_equal. f_equal.
  apply (insert_swap
           (faceF (w_scheme w) (internalField (w_vf w)) theta
              (primitiveField (w_tsfN w)))).
Qed.

Lemma patchFaceStep_commute theta patchI (w : World) i j :
  patchFaceStep mesh patchF theta patchI
    (patchFaceStep mesh patchF theta patchI w i) j
  = patchFaceStep mesh patchF theta patchI
      (patchFaceStep mesh patchF theta patchI w j) i.
Proof.
  unfold patchFaceStep, assignPatchFace. simpl. f_equal. f_equal.
  destruct (decide (patchI < length (boundaryField (w_tsfP w)))) as [Hp|Hp].
  - rewrite !list_lookup_total_insert_eq by done. simpl.
    rewrite !list_insert_insert_eq. f_equal. f_equal.
    apply (insert_swap
             (patchF (w_scheme w) (internalField (w_vf w)) theta
                (faceCells (boundary mesh !!! patchI))
                (patchValues
                   (boundaryField (faceFlux_ (w_scheme w)) !!! patchI))
                (patchNeighbourField
                   (volBoundaryField (w_vf w) !!! patchI))
                (patchValues (boundaryField (w_tsfN w) !!! patchI)))).
  - by rewrite !(list_insert_ge (boundaryField (w_tsfP w))) by lia.
Qed.

Lemma reordered_patchStep patchFaces theta (w : World) patchI :
  patchFaces patchI
  ≡ₚ seq 0 (length (faceCells (boundary mesh !!! patchI))) →
  Reordered.patchStep mesh patchF patchFaces theta w patchI
  = patchStep mesh patchF theta w patchI.
Proof.
  intros Hp. unfold Reordered.patchStep, patchStep.
  destruct (coupled _); [|done].
  apply foldl_commute_perm; [|done].
  intros a x y. apply patchFaceStep_commute.
Qed.

Lemma patchStep_out theta (w : World) patchI :
  length (boundaryField (w_tsfP w)) ≤ patchI →
  patchStep mesh patchF theta w patchI = w.
Proof.
  intros Hp. unfold patchStep.
  by rewrite list_lookup_total_alt, lookup_ge_None_2 by done.
Qed.

Lemma patchStep_length theta (w : World) patchI :
  length (boundaryField (w_tsfP (patchStep mesh patchF theta w patchI)))
  = length (boundaryField (w_tsfP w)).
Proof.
  destruct (decide (patchI < length (boundaryField (w_tsfP w)))) as [Hp|Hp].
  - rewrite patchStep_spec by done. simpl. apply length_insert.
  - by rewrite patchStep_out by lia.
Qed.

Lemma patchStep_commute theta (w : World) p q :
  patchStep mesh patchF theta (patchStep mesh patchF theta w p) q
  = patchStep mesh patchF theta (patchStep mesh patchF theta w q) p.
Proof.
  destruct (decide (p = q)) as [->|Hne]; [done|].
  destruct (decide (p < length (boundaryField (w_tsfP w)))) as [Hp|Hp];
    [|by rewrite !(patchStep_out _ _ p) by (rewrite ?patchStep_length; lia)].
  destruct (decide (q < length (boundaryField (w_tsfP w)))) as [Hq|Hq];
    [|by rewrite !(patchStep_out _ _ q) by (rewrite ?patchStep_length; lia)].
  rewrite (patchStep_spec _ _ _ w p), (patchStep_spec _ _ _ w q) by done.
  rewrite !patchStep_spec by (simpl; rewrite length_insert; lia).
  unfold with_tsfP. simpl. f_equal. f_equal.
  rewrite !list_lookup_total_insert_ne by done.
  by apply list_insert_insert_ne.
Qed.

Lemma reordered_run faces patches patchFaces (w : World) :
  faces ≡ₚ seq 0 (length (owner mesh)) →
  patches ≡ₚ seq 0 (length (boundaryField (w_tsfP w))) →
  (∀ patchI,
     patchFaces patchI
     ≡ₚ seq 0 (length (faceCells (boundary mesh !!! patchI)))) →
  Reordered.run mesh thetaF faceF patchF faces patches patchFaces w
  = run mesh thetaF faceF patchF w.
Proof.
  intros Hf Hp Hpf. unfold Reordered.run, run. cbv zeta.
  rewrite (foldl_commute_perm _ faces (seq 0 (length (owner mesh))))
    by (done || intros; apply faceStep_commute).
  rewrite face_loop. simpl.
  rewrite (foldl_pointwise _ (patchStep mesh patchF _))
    by (intros; by apply reordered_patchStep).
  apply foldl_commute_perm; [|done].
  intros a x y. apply patchStep_commute.
Qed.
End Run.
End ReorderedFacts.

(** ** The faces that are assigned, after the call *)

Lemma assigned_lift {T U} (g : T → U) (mesh : fvMesh) (sf : surfaceField T)
    (f : face) :
  assigned mesh (liftSurface g sf) f = assigned mesh sf f.
Proof.
  destruct f as [faceI|patchI faceI]; unfold assigned, liftSurface; simpl.
  - by rewrite length_fmap.
  - rewrite length_fmap.
    rewrite (fmap_lookup_total_default (liftPatch g)) by done.
    unfold liftPatch. simpl. by rewrite length_fmap.
Qed.

Lemma assigned_shape {T U} (mesh : fvMesh) (sf : surfaceField T)
    (sf' : surfaceField U) (f : face) :
  shape sf = shape sf' → assigned mesh sf f = assigned mesh sf' f.
Proof.
  intros E. rewrite <- (assigned_lift (λ _, ()) mesh sf).
  rewrite <- (assigned_lift (λ _, ()) mesh sf'). unfold shape in E.
  by rewrite E.
Qed.

Lemma assigned_face_lookup {T} `{Inhabited T} (mesh : fvMesh)
    (sf : surfaceField T) (f : face) :
  assigned mesh sf f = true → face_lookup sf f = Some (at_face sf f).
Proof.
  intros Ha. destruct f as [faceI|patchI faceI]; unfold face_lookup, at_face.
  - apply assigned_internal in Ha as [_ Hl].
    by apply list_lookup_lookup_total_lt.
  - apply assigned_patch in Ha as (Hp & _ & _ & Hl).
    rewrite (list_lookup_lookup_total_lt (boundaryField sf)) by done.
    by apply list_lookup_lookup_total_lt.
Qed.

Section AfterTheCall.
Context {S : Type} `{Scalar S}.
Variable sch : WENOUpwindFit S.
Variable mesh : fvMesh.

Lemma specialised_lookup vf tsfP tsfN f :
  assigned mesh tsfP f = true →
  face_lookup (Specialised.calcLimiter sch mesh vf tsfP tsfN) f
  = Some (at_face (Specialised.calcLimiter sch mesh vf tsfP tsfN) f).
Proof.
  intros Ha. apply (assigned_face_lookup mesh).
  by rewrite (assigned_shape mesh _ tsfP f (calcLimiter_shape _ _ _ _ _)).
Qed.

Lemma templated_lookup vf tsfP tsfN f :
  assigned mesh tsfP f = true →
  face_lookup (Templated.calcLimiter sch mesh vf tsfP tsfN) f
  = Some (at_face (Templated.calcLimiter sch mesh vf tsfP tsfN) f).
Proof.
  intros Ha. apply (assigned_face_lookup mesh).
  by rewrite (assigned_shape mesh _ tsfP f (templated_shape _ _ _ _ _)).
Qed.

(** The value written at a face without a flux. *)
Lemma no_flux_specialised vf tsfP tsfN f :
  noFlux (at_face (faceFlux_ sch) f) = true →
  assigned mesh tsfP f = true →
  at_face (Specialised.calcLimiter sch mesh vf tsfP tsfN) f = s_zero.
Proof.
  intros Hflux Ha. unfold noFlux in Hflux.
  apply andb_prop in Hflux as [E1 E2].
  apply negb_true_iff in E1, E2.
  destruct f as [faceI|patchI faceI]; unfold at_face in *.
  - apply assigned_internal in Ha as [? ?].
    rewrite calcLimiter_face by done. by apply limitFace_no_flux.
  - apply assigned_patch in Ha as (?&?&?&?).
    rewrite calcLimiter_patch, limitPatch_face by done.
    by apply limitPatchFace_no_flux.
Qed.

Lemma no_flux_templated vf tsfP tsfN f :
  noFlux (at_face (faceFlux_ sch) f) = true →
  assigned mesh tsfP f = true →
  at_face (Templated.calcLimiter sch mesh vf tsfP tsfN) f
  = Templated.zeroT (Templated.nComp (internalField vf)).
Proof.
  intros Hflux Ha. unfold noFlux in Hflux.
  apply andb_prop in Hflux as [E1 E2].
  apply negb_true_iff in E1, E2.
  destruct f as [faceI|patchI faceI]; unfold at_face in *.
  - apply assigned_internal in Ha as [? ?].
    rewrite templated_face by done. by apply templated_limitFace_no_flux.
  - apply assigned_patch in Ha as (?&?&?&?).
    rewrite templated_patch_face by done.
    by apply templated_limitPatchFace_no_flux.
Qed.
End AfterTheCall.

(** ** What an assignment reads of the cell averages *)

Section Reads.
Context {S : Type} `{Scalar S}.
Variable sch : WENOUpwindFit S.
Variable mesh : fvMesh.
Variables vfI vfI' : list S.
Variables tsfP tsfN : list S.
Hypothesis Hmax : maxField vfI' = maxField vfI.
Hypothesis Hmin : minField vfI' = minField vfI.

Lemma thetaCell_reads cellI :
  vfI' !!! cellI = vfI !!! cellI →
  Specialised.thetaCell mesh vfI' tsfP tsfN cellI
  = Specialised.thetaCell mesh vfI tsfP tsfN cellI.
Proof using Hmax Hmin.
  intros E. unfold Specialised.thetaCell, Specialised.scanCell.
  by rewrite Hmax, Hmin, E.
Qed.

Lemma calcTheta_reads cellI :
  vfI' !!! cellI = vfI !!! cellI →
  Specialised.calcTheta mesh vfI' tsfP tsfN !!! cellI
  = Specialised.calcTheta mesh vfI tsfP tsfN !!! cellI.
Proof using Hmax Hmin.
  intros E. destruct (decide (cellI < nCells mesh)) as [Hc|Hc].
  - rewrite !calcTheta_lookup by done. by apply thetaCell_reads.
  - unfold Specialised.calcTheta.
    rewrite !list_lookup_total_alt, !lookup_ge_None_2; [done|..];
      rewrite forAll_upd_length, length_replicate; lia.
Qed.
End Reads.

Section ReadsAtFace.
Context {S : Type} `{Scalar S}.
Variable sch : WENOUpwindFit S.
Variable mesh : fvMesh.
Variables vf vf' : volField S.
Variables tsfP tsfN : surfaceField S.
Hypothesis Hmax : maxField (internalField vf') = maxField (internalField vf).
Hypothesis Hmin : minField (internalField vf') = minField (internalField vf).
Hypothesis Hbehind : volBoundaryField vf' = volBoundaryField vf.

Lemma at_face_reads f :
  assigned mesh tsfP f = true →
  (∀ c, readCell sch mesh f = Some c →
        internalField vf' !!! c = internalField vf !!! c) →
  at_face (Specialised.calcLimiter sch mesh vf' tsfP tsfN) f
  = at_face (Specialised.calcLimiter sch mesh vf tsfP tsfN) f.
Proof using Hmax Hmin Hbehind.
  intros Ha Hread. unfold readCell in Hread.
  destruct f as [faceI|patchI faceI]; unfold at_face in *.
  - apply assigned_internal in Ha as [? ?].
    rewrite !calcLimiter_face by done.
    unfold Specialised.limitFace. cbv zeta.
    destruct (_ >? _)%S; [|destruct (_ <? _)%S; [|done]].
    + rewrite (calcTheta_reads mesh (internalField vf) (internalField vf')
                 _ _ Hmax Hmin) by (by apply Hread).
      by rewrite Hread.
    + rewrite (calcTheta_reads mesh (internalField vf) (internalField vf')
                 _ _ Hmax Hmin) by (by apply Hread).
      by rewrite Hread.
  - apply assigned_patch in Ha as (?&?&?&?).
    rewrite !calcLimiter_patch, !limitPatch_face by done.
    unfold Specialised.limitPatchFace. cbv zeta. rewrite Hbehind.
    destruct (_ >? _)%S; [|done].
    rewrite (calcTheta_reads mesh (internalField vf) (internalField vf')
               _ _ Hmax Hmin) by (by apply Hread).
    by rewrite Hread.
Qed.
End ReadsAtFace.

(** ** The assignments in doubles *)

Section AssignmentDouble.
Local Open Scope float_scope.

Lemma flux_positive (x : float) : (0 <? x) = true → (0 <=? x) = true.
Proof. apply ltb_leb. Qed.

Lemma flux_negative (x : float) :
  (x <? 0) = true → (0 <? x) = false ∧ (0 <=? x) = false.
Proof.
  intros E. pose proof (ltb_not_leb x 0 E) as E'. split; [|done].
  destruct (0 <? x) eqn:E0; [|done].
  apply ltb_leb in E0. congruence.
Qed.

(** The value written at a face with a flux [> 0] or [< 0]. *)
Lemma flux_assignment (sch : WENOUpwindFit float) (mesh : fvMesh)
    (vf : volField float) (tsfP tsfN : surfaceField float) (f : face) :
  assigned mesh tsfP f = true →
  noFlux (at_face (faceFlux_ sch) f) = false →
  at_face (Specialised.calcLimiter sch mesh vf tsfP tsfN) f
  = limited (limFac_ sch) (thetaAt sch mesh vf tsfP tsfN f)
      (upwindAt sch tsfP tsfN f) (donorValueAt sch mesh vf f).
Proof.
  intros Ha Hflux. unfold noFlux in Hflux.
  unfold thetaAt, readCell, upwindAt, donorValueAt.
  destruct f as [faceI|patchI faceI]; unfold at_face in *.
  - apply assigned_internal in Ha as [? ?].
    rewrite calcLimiter_face by done.
    unfold Specialised.limitFace, upwind, donor. cbv zeta.
    cbn [s_lt s_le s_zero double_scalar] in *.
    destruct (0 <? _) eqn:E1.
    + by rewrite (flux_positive _ E1).
    + destruct (_ <? 0) eqn:E2; [|done].
      destruct (flux_negative _ E2) as [_ ->]. done.
  - apply assigned_patch in Ha as (?&?&?&?).
    rewrite calcLimiter_patch, limitPatch_face by done.
    unfold Specialised.limitPatchFace, patchUpwind, patchDonorValue.
    cbv zeta. cbn [s_lt s_le s_zero double_scalar] in *.
    destruct (0 <? _) eqn:E1.
    + by rewrite (flux_positive _ E1).
    + destruct (_ <? 0) eqn:E2; [|done].
      destruct (flux_negative _ E2) as [_ ->]. done.
Qed.

Lemma same_refl (x : float) : same x x.
Proof. by left. Qed.

Lemma sub_from_zero (v : float) : same (0 - v) (-0 - v).
Proof.
  destruct (Prim2SF v) as [[]|s| |s m e] eqn:E.
  - apply (zero_cases v true) in E. subst. by left.
  - apply (zero_cases v false) in E. subst. by right.
  - left. apply double_of_spec. rewrite !sub_spec, E. by destruct s.
  - left. apply double_of_spec. by rewrite !sub_spec, E.
  - left. apply double_of_spec. by rewrite !sub_spec, E.
Qed.

(** With the factor [0.0] the two assignments leave [t - v], unless the
    limited value that the factor multiplies is infinite or not a
    number. *)
Lemma limited_zero_factor_double (theta t v : float) :
  is_finite (theta * (t - v) + v) = true →
  same (limited 0 theta t v) (t - v).
Proof.
  intros Hy. unfold limited. cbv zeta.
  cbn [s_sub s_add s_mul s_one double_scalar].
  change (1 - 0) with 1. rewrite mul_one_l.
  pose proof (mul_zero_l _ Hy) as Hz.
  destruct (Prim2SF t) as [[]|s| |s m e] eqn:E.
  - apply (zero_cases t true) in E. subst t.
    destruct Hz as [-> | ->].
    + change (0 + -0) with 0. apply sub_from_zero.
    + change (-0 + -0) with (-0). apply same_refl.
  - rewrite add_zero_l; [apply same_refl | done |].
    intros ->. discriminate E.
  - rewrite add_zero_l; [apply same_refl | done |].
    intros ->. discriminate E.
  - rewrite add_zero_l; [apply same_refl | done |].
    intros ->. discriminate E.
  - rewrite add_zero_l; [apply same_refl | done |].
    intros ->. discriminate E.
Qed.

(** With the factor [1.0] the two assignments leave the limited value
    [theta*(t - v) + v] minus [v], for a finite [t]. *)
Lemma limited_one_factor_double (theta t v : float) :
  is_finite t = true →
  same (limited 1 theta t v) (theta * (t - v) + v - v).
Proof.
  intros Ht. unfold limited. cbv zeta.
  cbn [s_sub s_add s_mul s_one double_scalar].
  change (1 - 1) with 0. rewrite mul_one_l.
  pose proof (mul_zero_l _ Ht) as Hz.
  destruct (Prim2SF (theta * (t - v) + v)) as [[]|s| |s m e] eqn:E.
  - apply (zero_cases _ true) in E. rewrite E.
    destruct Hz as [-> | ->].
    + change (-0 + 0) with 0. apply sub_from_zero.
    + change (-0 + -0) with (-0). apply same_refl.
  - rewrite add_zero_r; [apply same_refl | done |].
    intros E'. rewrite E' in E. discriminate E.
  - rewrite add_zero_r; [apply same_refl | done |].
    intros E'. rewrite E' in E. discriminate E.
  - rewrite add_zero_r; [apply same_refl | done |].
    intros E'. rewrite E' in E. discriminate E.
  - rewrite add_zero_r; [apply same_refl | done |].
    intros E'. rewrite E' in E. discriminate E.
Qed.
End AssignmentDouble.

(** ** The flux of the constructors *)

Section ZeroFluxField.
Context {S : Type} `{Scalar S}.
Variable mesh : fvMesh.

Lemma zeroFlux_internal_lookup faceI :
  faceI < nInternalFaces mesh →
  face_lookup (zeroFlux mesh) (internalFace faceI) = Some s_zero.
Proof. intros Hf. simpl. by apply lookup_replicate_2. Qed.

Lemma zeroFlux_patch_lookup patchI faceI :
  patchI < length (boundary mesh) →
  faceI < length (faceCells (boundary mesh !!! patchI)) →
  face_lookup (zeroFlux mesh) (patchFace patchI faceI) = Some s_zero.
Proof.
  intros Hp Hf. simpl. rewrite list_lookup_fmap.
  rewrite (list_lookup_lookup_total_lt (boundary mesh)) by done. simpl.
  by apply lookup_replicate_2.
Qed.
End ZeroFluxField.

Module LifetimeFacts.
Section Objects.
Context {S : Type} `{Scalar S}.

Lemma construct_destroys ofLabel mesh polOrder (st : Lifetime.store S) :
  Lifetime.deref (Lifetime.construct ofLabel mesh polOrder st).2
    (Lifetime.construct ofLabel mesh polOrder st).1
  = None.
Proof.
  unfold Lifetime.construct, Lifetime.alloc, Lifetime.destroy,
    Lifetime.deref, Lifetime.store in *. simpl.
  rewrite list_lookup_insert_eq; [done|]. rewrite length_app. simpl. lia.
Qed.

Lemma construct_keeps ofLabel mesh polOrder (st : Lifetime.store S) a :
  a < length st →
  (Lifetime.construct ofLabel mesh polOrder st).2 !! a = st !! a.
Proof.
  intros Ha.
  unfold Lifetime.construct, Lifetime.alloc, Lifetime.destroy,
    Lifetime.store in *.
  simpl. rewrite list_lookup_insert_ne by lia.
  by apply lookup_app_l.
Qed.

Lemma constructFromFlux_resolves (st : Lifetime.store S) a sf polOrder
    limFac :
  st !! a = Some (Some sf) →
  Lifetime.resolve st (Lifetime.constructFromFlux a polOrder limFac)
  = Some (constructFromFlux sf polOrder limFac).
Proof.
  intros E. unfold Lifetime.resolve, Lifetime.deref. simpl. by rewrite E.
Qed.

(** A call that reads no flux returns [tsfP] as it was passed, for
    every flux: this is the result of [Lifetime.calcLimiter] there. *)
Lemma calcLimiter_without_reads (sch : WENOUpwindFit S) mesh
    (vf : volField S) (tsfP tsfN : surfaceField S) :
  Lifetime.readsFlux mesh tsfP = false →
  Specialised.calcLimiter sch mesh vf tsfP tsfN = tsfP.
Proof.
  unfold Lifetime.readsFlux. intros Hr.
  apply orb_false_iff in Hr as [Hint Hpatch].
  apply Nat.ltb_ge in Hint.
  assert (length (owner mesh) = 0) as Hlen by lia.
  destruct tsfP as [prim bnd]. unfold Specialised.calcLimiter.
  simpl in *. f_equal.
  - by rewrite Hlen.
  - apply list_eq. intros i.
    destruct (bnd !! i) as [p|] eqn:E.
    + pose proof (calcLimiter_uncoupled sch mesh vf
                    {| primitiveField := prim; boundaryField := bnd |}
                    tsfN i p E) as Hu.
      unfold Specialised.calcLimiter in Hu. simpl in Hu. apply Hu.
      destruct (coupled p) eqn:Ec; [|done].
      assert (existsb coupled bnd = true) as Hex; [|congruence].
      apply existsb_exists. exists p. split; [|done].
      apply list_elem_of_In. by eapply list_elem_of_lookup_2.
    + apply lookup_ge_None. rewrite forAll_upd_length.
      by apply lookup_ge_None.
Qed.
End Objects.
End LifetimeFacts.

Local Open Scope Q_scope.
#[local] Set Warnings "-inexact-float".

(** Without rounding, and with [limFac_ = 1], the face value of an
    internal face (donor average plus the correction written by
    [calcLimiter]) lies between the least and the greatest cell average
    of the whole field, up to the threshold [1e-10] below which an [arg]
    is set to one.  In doubles the last place of the sum can exceed this
    bound. *)
Lemma exact_limited_within_field_extremes
    (sch : WENOUpwindFit Q) (mesh : fvMesh) (vf : volField Q)
    (tsfP tsfN : surfaceField Q) (faceI : label) :
  meshOk mesh = true →
  length (internalField vf) = nCells mesh →
  (faceI < nInternalFaces mesh)%nat →
  (faceI < length (primitiveField tsfP))%nat →
  limFac_ sch == 1 →
  let x := faceValue sch mesh vf
             (Specialised.calcLimiter sch mesh vf tsfP tsfN) faceI in
  minField (internalField vf) - s_small < x
  ∧ x < maxField (internalField vf) + s_small.
Proof.
  intros Hmesh Hlen Hf Hl Hlim. cbv zeta. unfold faceValue, donor.
  rewrite calcLimiter_face by done.
  destruct (meshOk_face mesh Hmesh faceI Hf) as (HPN & HN & HinP & HinN).
  set (vfI := internalField vf) in *.
  set (theta := Specialised.calcTheta mesh vfI _ _).
  unfold Specialised.limitFace. cbv zeta. unfold_scalar.
  match goal with |- context [Qle_bool 0 ?f] =>
    flux_cases_of f Hflux E1 E2 E3; rewrite ?E1, ?E2, ?E3 end.
  - set (P := owner mesh !!! faceI) in *.
    assert (P < nCells mesh)%nat as HP by lia.
    unfold theta. rewrite calcTheta_lookup by done.
    unfold Specialised.thetaCell. cbv zeta.
    destruct (scanCell_spec mesh (primitiveField tsfP) (primitiveField tsfN)
                vfI P) as [Hv Hside].
    specialize (Hside faceI HinP Hf). unfold side in Hside.
    fold P in Hside. rewrite Nat.eqb_refl in Hside.
    apply limited_within; try done.
    apply field_within. unfold vfI, P in *. lia.
  - set (N := neighbour mesh !!! faceI) in *.
    unfold theta. rewrite calcTheta_lookup by done.
    unfold Specialised.thetaCell. cbv zeta.
    destruct (scanCell_spec mesh (primitiveField tsfP)
                (primitiveField tsfN) vfI N) as [Hv Hside].
    specialize (Hside faceI HinN Hf). unfold side in Hside.
    assert ((N =? owner mesh !!! faceI)%nat = false) as HNP
      by (apply Nat.eqb_neq; lia).
    rewrite HNP in Hside.
    apply limited_within; try done.
    apply field_within. unfold vfI, N in *. lia.
  - destruct (field_within vfI (owner mesh !!! faceI)) as [Hw1 Hw2].
    { unfold vfI in *. lia. }
    split; lra.
Qed.




(** The threshold is needed: with all averages 1 and the reconstruction
    [1 + 5e-11] at face 0 the limited face value is [1 + 5e-11]. *)
Example limited_value_above_greatest_average :
  maxField (internalField Line.level)
  < faceValue Line.limitedScheme Line.mesh Line.level
      (Specialised.calcLimiter Line.limitedScheme Line.mesh Line.level
         Line.levelP Line.levelN) 0.
Proof. reflexivity. Qed.

(** [calcLimiter] leaves the patch fields that are not coupled as they
    are. *)
Example uncoupled_patch_untouched :
  boundaryField
    (Specialised.calcLimiter Line.limitedScheme Line.mesh Line.level
       Line.levelP Line.levelN) !! 0%nat
  = boundaryField Line.levelP !! 0%nat.
Proof. reflexivity. Qed.

(** C2 (as it holds).  The store is one object for the whole process, not
    one per key: the first call of [instance] builds the store from its
    arguments, and every later call, with the same or with another mesh
    and order, returns that first store and builds nothing. *)
Theorem instance_returns_first_store {R : Type}
    (build : fvMesh → label → WENOBase.t R) (mesh : fvMesh)
    (polOrder : label) (keys : list (fvMesh * label)) :
  WENOBase.instance build mesh polOrder None
  = (build mesh polOrder, Some (build mesh polOrder))
  ∧ (∀ b mesh' polOrder',
       WENOBase.instance build mesh' polOrder' (Some b) = (b, Some b))
  ∧ WENOBase.calls build ((mesh, polOrder) :: keys) None
    = (replicate (1 + length keys) (build mesh polOrder),
       Some (build mesh polOrder)).
Proof.
  split_and!; [done | done |]. simpl. by rewrite calls_initialised.
Qed.

(** C2 (as it is stated) fails: after [instance(mesh, 2)], the call
    [instance(mesh, 3)] returns the store of order 2. *)
Lemma instance_not_keyed :
  WENOBase.polOrder_
    (WENOBase.instance (WENOBase.emptyTables (S := Q)) Line.mesh 3
       (WENOBase.instance WENOBase.emptyTables Line.mesh 2 None).2).1
  = 2%nat
  ∧ ¬ WENOBase.keyed (WENOBase.emptyTables (S := Q)).
Proof.
  split; [reflexivity|]. intros Hk.
  destruct (Hk Line.mesh 2%nat Line.mesh 3%nat) as (_ & _ & H3).
  assert ((Line.mesh, 2%nat) ≠ (Line.mesh, 3%nat)) as Hne by congruence.
  specialize (H3 Hne). simpl in H3. discriminate H3.
Qed.

(** C3.  On a field of scalars, read as a field of values with one
    component, the template computes the field that the specialisation for
    [scalar] computes. *)
Theorem specialisation_agrees_with_template {R : Type} `{Scalar R}
    (sch : WENOUpwindFit R) (mesh : fvMesh) (vf : volField R)
    (tsfP tsfN : surfaceField R) :
  length (internalField vf) = nCells mesh →
  (0 < nCells mesh)%nat →
  Templated.calcLimiter sch mesh (liftVol one_component vf)
    (liftSurface one_component tsfP) (liftSurface one_component tsfN)
  = liftSurface one_component (Specialised.calcLimiter sch mesh vf tsfP tsfN).
Proof.
  intros Hlen Hpos.
  unfold Templated.calcLimiter, Specialised.calcLimiter. cbv zeta.
  rewrite liftVol_internal, !liftSurface_primitive.
  rewrite calcTheta_one_component by done.
  unfold liftSurface. cbn [primitiveField boundaryField]. f_equal.
  - apply forAll_upd_fmap. intros faceI t _ _.
    apply limitFace_one_component. lia.
  - rewrite length_fmap. apply forAll_upd_fmap. intros patchI pb _ _.
    apply limitPatch_one_component. lia.
Qed.

Lemma specialisation_agrees_with_template_witness :
  Templated.calcLimiter Line.limitedScheme Line.mesh
    (liftVol one_component Line.jump) (liftSurface one_component Line.jumpP)
    (liftSurface one_component Line.jumpN)
  = liftSurface one_component
      (Specialised.calcLimiter Line.limitedScheme Line.mesh Line.jump
         Line.jumpP Line.jumpN).
Proof.
  apply specialisation_agrees_with_template;
    [reflexivity | vm_compute; lia].
Defined.

(** C4.  At an internal face or a face of a coupled patch whose flux is
    neither [> 0] nor [< 0] (a flux that is zero, in exact arithmetic
    and in doubles), [calcLimiter] writes the correction zero (every
    component zero in the template), whatever the fields, the limiting
    factor and the order of the scheme, and in every arithmetic. *)
Theorem zero_flux_zero_correction {R : Type} `{Scalar R}
    (sch : WENOUpwindFit R) (mesh : fvMesh) (f : face)
    (vf : volField R) (tsfP tsfN : surfaceField R)
    (vfT : volField (list R)) (tsfPT tsfNT : surfaceField (list R)) :
  noFlux (at_face (faceFlux_ sch) f) = true →
  assigned mesh tsfP f = true →
  assigned mesh tsfPT f = true →
  face_lookup (Specialised.calcLimiter sch mesh vf tsfP tsfN) f = Some s_zero
  ∧ face_lookup (Templated.calcLimiter sch mesh vfT tsfPT tsfNT) f
    = Some (Templated.zeroT (Templated.nComp (internalField vfT))).
Proof.
  intros Hflux Ha HaT. split.
  - rewrite specialised_lookup by done. f_equal.
    by apply no_flux_specialised.
  - rewrite templated_lookup by done. f_equal.
    by apply no_flux_templated.
Qed.

Lemma zero_flux_zero_correction_witness :
  face_lookup
    (Specialised.calcLimiter
       (constructFromFlux Doubles.stagnant 2 0.5)%float Line.mesh
       Doubles.jump Doubles.jumpP Doubles.jumpN) (patchFace 1 0)
  = Some 0%float
  ∧ face_lookup
      (Templated.calcLimiter
         (constructFromFlux Doubles.stagnant 2 0.5)%float Line.mesh
         (liftVol Doubles.pair Doubles.jump)
         (liftSurface Doubles.pair Doubles.jumpP)
         (liftSurface Doubles.pair Doubles.jumpN)) (patchFace 1 0)
    = Some [0; 0]%float.
Proof.
  exact (zero_flux_zero_correction
           (constructFromFlux Doubles.stagnant 2 0.5)%float Line.mesh
           (patchFace 1 0) Doubles.jump Doubles.jumpP Doubles.jumpN
           (liftVol Doubles.pair Doubles.jump)
           (liftSurface Doubles.pair Doubles.jumpP)
           (liftSurface Doubles.pair Doubles.jumpN)
           eq_refl eq_refl eq_refl).
Defined.

(** A flux that is zero takes this branch: in exact arithmetic a flux
    equal to zero and no other, in doubles both zeros. *)
Lemma noFlux_exact (x : Q) : noFlux x = true ↔ x == 0.
Proof.
  unfold noFlux. unfold_scalar.
  rewrite andb_true_iff, !negb_true_iff, !Qlt_bool_false. lra.
Qed.

Lemma noFlux_double :
  noFlux 0%float = true ∧ noFlux (-0)%float = true.
Proof. by split. Qed.







(** C7.  A call of [calcLimiter], in the template and in the
    specialisation, assigns to [tsfP] the field the function returns and
    leaves [vf], [tsfN], the scheme with its face flux and the store as
    they were; the accessors of the store return a table and leave the
    store as it was. *)
Theorem calcLimiter_assigns_only_tsfP {R : Type} `{Scalar R}
    (mesh : fvMesh) :
  (∀ w : Procedure.World R (list R),
     Procedure.templated mesh w
     = Procedure.with_tsfP w
         (Templated.calcLimiter (Procedure.w_scheme w) mesh
            (Procedure.w_vf w) (Procedure.w_tsfP w) (Procedure.w_tsfN w))
     ∧ Procedure.w_vf (Procedure.templated mesh w) = Procedure.w_vf w
     ∧ Procedure.w_tsfN (Procedure.templated mesh w) = Procedure.w_tsfN w
     ∧ Procedure.w_scheme (Procedure.templated mesh w) = Procedure.w_scheme w
     ∧ Procedure.w_store (Procedure.templated mesh w) = Procedure.w_store w)
  ∧ (∀ w : Procedure.World R R,
       Procedure.specialised mesh w
       = Procedure.with_tsfP w
           (Specialised.calcLimiter (Procedure.w_scheme w) mesh
              (Procedure.w_vf w) (Procedure.w_tsfP w) (Procedure.w_tsfN w))
       ∧ Procedure.w_vf (Procedure.specialised mesh w) = Procedure.w_vf w
       ∧ Procedure.w_tsfN (Procedure.specialised mesh w) = Procedure.w_tsfN w
       ∧ Procedure.w_scheme (Procedure.specialised mesh w)
         = Procedure.w_scheme w
       ∧ Procedure.w_store (Procedure.specialised mesh w)
         = Procedure.w_store w)
  ∧ (∀ b : WENOBase.t R,
       (WENOBase.getPointerStencilID b).2 = b
       ∧ (WENOBase.getPointerCellToPatchMap b).2 = b
       ∧ (WENOBase.getPointerPatchToProcMap b).2 = b
       ∧ (WENOBase.getPointerHaloCenters b).2 = b
       ∧ (WENOBase.getPointerOwnHalos b).2 = b
       ∧ (WENOBase.getPointerLSmatrix b).2 = b
       ∧ (WENOBase.getPointerB b).2 = b
       ∧ (WENOBase.getPointerIntBasTrans b).2 = b
       ∧ (WENOBase.getPointerRefFacAr b).2 = b
       ∧ (WENOBase.getPointerDimList b).2 = b).
Proof.
  split_and!.
  - intros w. by rewrite ProcedureFacts.templated_spec.
  - intros w. by rewrite ProcedureFacts.specialised_spec.
  - done.
Qed.

(** C8.  The constructor from a mesh and an order alone sets the limiting
    factor to 0 and binds [faceFlux_] to the field that [zeroFlux()]
    creates, which is zero at every face of the mesh; but the temporary
    that owns this field is destroyed when the constructor returns, so
    the scheme refers to no field, and a call of [calcLimiter] that reads
    the flux (on a mesh with an internal face, or with a coupled patch)
    has no defined result.  The objects that were in the store before
    stay as they were. *)
Theorem constructed_from_mesh_flux_destroyed {R : Type} `{Scalar R}
    (ofLabel : label → R) (mesh : fvMesh) (polOrder : label)
    (st : Lifetime.store R) (vf : volField R) (tsfP tsfN : surfaceField R) :
  let sch := (Lifetime.construct ofLabel mesh polOrder st).1 in
  let st' := (Lifetime.construct ofLabel mesh polOrder st).2 in
  Lifetime.readsFlux mesh tsfP = true →
  Lifetime.limFac_ sch = s_zero
  ∧ (Lifetime.alloc (zeroFlux mesh) st).2 !! Lifetime.faceFlux_ref sch
    = Some (Some (zeroFlux mesh))
  ∧ (∀ faceI, (faceI < nInternalFaces mesh)%nat →
       face_lookup (zeroFlux (S := R) mesh) (internalFace faceI)
       = Some s_zero)
  ∧ (∀ patchI faceI,
       (patchI < length (boundary mesh))%nat →
       (faceI < length (faceCells (boundary mesh !!! patchI)))%nat →
       face_lookup (zeroFlux (S := R) mesh) (patchFace patchI faceI)
       = Some s_zero)
  ∧ Lifetime.deref st' sch = None
  ∧ Lifetime.calcLimiter st' sch mesh vf tsfP tsfN = None
  ∧ (∀ a, (a < length st)%nat → st' !! a = st !! a).
Proof.
  intros sch st' Hreads. split_and!.
  - done.
  - unfold sch, Lifetime.construct, Lifetime.alloc, Lifetime.store in *.
    simpl. by rewrite lookup_app_r, Nat.sub_diag.
  - apply zeroFlux_internal_lookup.
  - apply zeroFlux_patch_lookup.
  - apply LifetimeFacts.construct_destroys.
  - unfold Lifetime.calcLimiter, Lifetime.resolve.
    unfold sch, st'. rewrite LifetimeFacts.construct_destroys. simpl.
    by rewrite Hreads.
  - intros a Ha. by apply LifetimeFacts.construct_keeps.
Qed.

Lemma constructed_from_mesh_flux_destroyed_witness :
  let ofLabel := λ n : nat, PrimFloat.of_uint63 (Uint63.of_Z (Z.of_nat n)) in
  let sch := (Lifetime.construct ofLabel Line.mesh 2 []).1 in
  let st' := (Lifetime.construct ofLabel Line.mesh 2 []).2 in
  Lifetime.limFac_ sch = 0%float
  ∧ Lifetime.deref st' sch = None
  ∧ Lifetime.calcLimiter st' sch Line.mesh Doubles.jump Doubles.jumpP
      Doubles.jumpN
    = None.
Proof.
  destruct (constructed_from_mesh_flux_destroyed
              (λ n : nat, PrimFloat.of_uint63 (Uint63.of_Z (Z.of_nat n)))
              Line.mesh 2 [] Doubles.jump Doubles.jumpP Doubles.jumpN)
    as (H1 & _ & _ & _ & H2 & H3 & _); [reflexivity|].
  cbv zeta. split_and!; [exact H1 | exact H2 | exact H3].
Defined.

(** C9.  Every coefficient [theta] that [calcLimiter] computes, of every
    cell and in the template of every component, lies in [[0, 1]]: it is
    the least of [1.0] and of [argMax] and [argMin], which are not
    negative. *)
Theorem theta_in_unit_interval (mesh : fvMesh) :
  (∀ vfI tsfP tsfN : list Q,
     Forall unit_interval (Specialised.calcTheta mesh vfI tsfP tsfN))
  ∧ (∀ vfI tsfP tsfN : list (list Q),
       Forall (Forall unit_interval)
         (Templated.calcTheta mesh vfI tsfP tsfN))
  ∧ (∀ maxPhi minPhi maxP minP v : Q,
       thetaOf maxPhi minPhi maxP minP v
       = min (min (arg maxPhi maxP v) (arg minPhi minP v)) 1
       ∧ 0 <= arg maxPhi maxP v
       ∧ 0 <= arg minPhi minP v
       ∧ unit_interval (thetaOf maxPhi minPhi maxP minP v)).
Proof.
  split_and!.
  - apply calcTheta_unit_interval.
  - apply templated_calcTheta_unit_interval.
  - intros. split_and!; [done | apply arg_nonneg.. | apply thetaOf_range].
Qed.

(** C10.  [weights(vf)] is [pos(faceFlux_)] at every face, internal or on
    a patch: one for a positive flux and zero for a negative one; the
    field [vf] does not enter. *)
Theorem weights_are_upwind {T : Type} (sch : WENOUpwindFit Q)
    (vf vf' : volField T) (g : face) (f : Q) :
  face_lookup (faceFlux_ sch) g = Some f →
  weights sch vf = weights sch vf'
  ∧ face_lookup (weights sch vf) g = Some (pos f)
  ∧ (0 < f → pos f = 1)
  ∧ (f < 0 → pos f = 0).
Proof.
  intros Hf. split_and!.
  - done.
  - by apply weights_lookup.
  - apply pos_positive.
  - apply pos_negative.
Qed.

Lemma weights_are_upwind_witness :
  weights Line.limitedScheme Line.jump = weights Line.limitedScheme Line.level
  ∧ face_lookup (weights Line.limitedScheme Line.jump) (patchFace 0 0)
    = Some 0
  ∧ face_lookup (weights Line.limitedScheme Line.jump) (internalFace 0)
    = Some 1.
Proof.
  destruct (weights_are_upwind Line.limitedScheme Line.jump Line.level
              (patchFace 0 0) (-1)) as (H1 & H2 & _ & H4); [reflexivity|].
  destruct (weights_are_upwind Line.limitedScheme Line.jump Line.level
              (internalFace 0) 1) as (_ & H5 & H6 & _); [reflexivity|].
  split_and!.
  - exact H1.
  - rewrite H2, H4; reflexivity.
  - rewrite H5, H6; reflexivity.
Defined.

Section TemplatedComponents.
Context {S : Type} `{Scalar S}.
Variable sch : WENOUpwindFit S.
Variable mesh : fvMesh.

Lemma limitFace_components vfI theta tsfN faceI t :
  length t = Templated.nComp vfI →
  length (Templated.limitFace sch mesh vfI theta tsfN faceI t)
  = Templated.nComp vfI.
Proof.
  intros Ht. unfold Templated.limitFace. cbv zeta.
  destruct (_ >? _)%S; [by rewrite forAll_upd_length|].
  destruct (_ <? _)%S; [by rewrite forAll_upd_length|].
  apply length_replicate.
Qed.

Lemma limitPatchFace_components vfI theta pOwner pFaceFlux vfN pbtsfN
    faceI t :
  length t = Templated.nComp vfI →
  length (Templated.limitPatchFace sch vfI theta pOwner pFaceFlux vfN
            pbtsfN faceI t)
  = Templated.nComp vfI.
Proof.
  intros Ht. unfold Templated.limitPatchFace. cbv zeta.
  destruct (_ >? _)%S; [by rewrite forAll_upd_length|].
  destruct (_ <? _)%S; [by rewrite forAll_upd_length|].
  apply length_replicate.
Qed.
End TemplatedComponents.

Local Open Scope Q_scope.

(** X1.  [calcLimiter] keeps the shape of [tsfP]: the number of values on
    internal faces, the patches, their coupled flags and the number of
    values of every patch; so a field that fits the mesh is returned as a
    field that fits the mesh.  This holds for the specialisation and for
    the template, whatever the arithmetic. *)
Theorem calcLimiter_keeps_shape {R : Type} `{Scalar R}
    (sch : WENOUpwindFit R) (mesh : fvMesh) (vf : volField R)
    (tsfP tsfN : surfaceField R) (vfT : volField (list R))
    (tsfPT tsfNT : surfaceField (list R)) :
  shape (Specialised.calcLimiter sch mesh vf tsfP tsfN) = shape tsfP
  ∧ shape (Templated.calcLimiter sch mesh vfT tsfPT tsfNT) = shape tsfPT
  ∧ surfaceOk mesh (Specialised.calcLimiter sch mesh vf tsfP tsfN)
    = surfaceOk mesh tsfP
  ∧ surfaceOk mesh (Templated.calcLimiter sch mesh vfT tsfPT tsfNT)
    = surfaceOk mesh tsfPT.
Proof.
  split_and!.
  - apply calcLimiter_shape.
  - apply templated_shape.
  - apply surfaceOk_shape, calcLimiter_shape.
  - apply surfaceOk_shape, templated_shape.
Qed.

(** X2.  In the template, if every value of [tsfP] has [nComp]
    components, so has every value of the field after the call. *)
Theorem template_keeps_components {R : Type} `{Scalar R}
    (sch : WENOUpwindFit R) (mesh : fvMesh) (vf : volField (list R))
    (tsfP tsfN : surfaceField (list R)) :
  surfaceComponents (Templated.nComp (internalField vf)) tsfP →
  surfaceComponents (Templated.nComp (internalField vf))
    (Templated.calcLimiter sch mesh vf tsfP tsfN).
Proof.
  intros [HP HB]. unfold Templated.calcLimiter. cbv zeta. split; simpl.
  - apply forAll_upd_Forall; [done|]. intros i t _.
    apply limitFace_components.
  - apply forAll_upd_Forall; [done|]. intros patchI pb _ Hpb.
    unfold Templated.limitPatch. cbv zeta.
    destruct (coupled pb); [|done]. simpl.
    apply forAll_upd_Forall; [done|]. intros i t _.
    apply limitPatchFace_components.
Qed.

Lemma template_keeps_components_witness :
  surfaceComponents 2
    (Templated.calcLimiter Line.limitedScheme Line.mesh Grid.jump2
       Grid.jumpP2 Grid.jumpN2).
Proof.
  apply (template_keeps_components Line.limitedScheme Line.mesh Grid.jump2
           Grid.jumpP2 Grid.jumpN2).
  split; repeat constructor.
Defined.

(** X3.  A patch field that is not coupled is returned as it was, by the
    specialisation and by the template. *)
Theorem uncoupled_patches_untouched {R : Type} `{Scalar R}
    (sch : WENOUpwindFit R) (mesh : fvMesh) (patchI : label)
    (vf : volField R) (tsfP tsfN : surfaceField R) (p : fvsPatchField R)
    (vfT : volField (list R)) (tsfPT tsfNT : surfaceField (list R))
    (pT : fvsPatchField (list R)) :
  boundaryField tsfP !! patchI = Some p → coupled p = false →
  boundaryField tsfPT !! patchI = Some pT → coupled pT = false →
  boundaryField (Specialised.calcLimiter sch mesh vf tsfP tsfN) !! patchI
  = Some p
  ∧ boundaryField (Templated.calcLimiter sch mesh vfT tsfPT tsfNT) !! patchI
    = Some pT.
Proof.
  intros Hp Hc HpT HcT. split.
  - by apply calcLimiter_uncoupled.
  - by apply templated_uncoupled.
Qed.

Lemma uncoupled_patches_untouched_witness :
  boundaryField
    (Specialised.calcLimiter Line.limitedScheme Line.mesh Line.level
       Line.levelP Line.levelN) !! 0%nat
  = Some {| coupled := false; patchValues := [1] |}
  ∧ boundaryField
      (Templated.calcLimiter Line.limitedScheme Line.mesh Grid.jump2
         Grid.jumpP2 Grid.jumpN2) !! 0%nat
    = Some {| coupled := false; patchValues := [[0; 0 + 1]] |}.
Proof.
  apply (uncoupled_patches_untouched Line.limitedScheme Line.mesh 0
           Line.level Line.levelP Line.levelN _ Grid.jump2 Grid.jumpP2
           Grid.jumpN2 _); reflexivity.
Defined.

Local Open Scope Q_scope.



(** X9.  For fields of any number [nComp] of components, every component
    of the field that the template returns is the field that the
    specialisation for scalars returns on that component of the averages
    and of the reconstructions: the template limits each component on its
    own. *)
Theorem template_limits_each_component {R : Type} `{Scalar R}
    (sch : WENOUpwindFit R) (mesh : fvMesh) (cI : label)
    (vf : volField (list R)) (tsfP tsfN : surfaceField (list R)) :
  (cI < Templated.nComp (internalField vf))%nat →
  components (Templated.nComp (internalField vf)) (internalField vf) →
  length (internalField vf) = nCells mesh →
  surfaceComponents (Templated.nComp (internalField vf)) tsfP →
  liftSurface (component cI) (Templated.calcLimiter sch mesh vf tsfP tsfN)
  = Specialised.calcLimiter sch mesh (liftVol (component cI) vf)
      (liftSurface (component cI) tsfP) (liftSurface (component cI) tsfN).
Proof. apply calcLimiter_component. Qed.

Lemma template_limits_each_component_witness :
  liftSurface (component 1)
    (Templated.calcLimiter Line.limitedScheme Line.mesh Grid.jump2
       Grid.jumpP2 Grid.jumpN2)
  = Specialised.calcLimiter Line.limitedScheme Line.mesh
      (liftVol (component 1) Grid.jump2)
      (liftSurface (component 1) Grid.jumpP2)
      (liftSurface (component 1) Grid.jumpN2).
Proof.
  apply (template_limits_each_component Line.limitedScheme Line.mesh 1
           Grid.jump2 Grid.jumpP2 Grid.jumpN2).
  - vm_compute; lia.
  - repeat constructor.
  - reflexivity.
  - split; repeat constructor.
Defined.

Local Open Scope Q_scope.

(** X10.  The result of [calcLimiter] does not depend on the order in
    which its loops visit the internal faces, the patches and the faces of
    a patch: every assignment reads, of [tsfP], only the slot that it
    assigns, and the coefficients are computed before the first
    assignment.  This holds for the specialisation and for the template,
    whatever the arithmetic. *)
Theorem calcLimiter_order_independent {R : Type} `{Scalar R}
    (mesh : fvMesh) (faces patches : list label)
    (patchFaces : label → list label)
    (w : Procedure.World R R) (wT : Procedure.World R (list R)) :
  faces ≡ₚ seq 0 (length (owner mesh)) →
  patches ≡ₚ seq 0 (length (boundaryField (Procedure.w_tsfP w))) →
  patches ≡ₚ seq 0 (length (boundaryField (Procedure.w_tsfP wT))) →
  (∀ patchI,
     patchFaces patchI
     ≡ₚ seq 0 (length (faceCells (boundary mesh !!! patchI)))) →
  Reordered.run mesh (Specialised.calcTheta mesh)
    (λ sch, Specialised.limitFace sch mesh)
    (λ sch, Specialised.limitPatchFace sch) faces patches patchFaces w
  = Procedure.specialised mesh w
  ∧ Reordered.run mesh (Templated.calcTheta mesh)
      (λ sch, Templated.limitFace sch mesh)
      (λ sch, Templated.limitPatchFace sch) faces patches patchFaces wT
    = Procedure.templated mesh wT.
Proof.
  intros Hf Hp HpT Hpf. split.
  - by apply ReorderedFacts.reordered_run.
  - by apply ReorderedFacts.reordered_run.
Qed.

Lemma calcLimiter_order_independent_witness :
  Reordered.run Line.mesh (Specialised.calcTheta Line.mesh)
    (λ sch, Specialised.limitFace sch Line.mesh)
    (λ sch, Specialised.limitPatchFace sch) [1; 0]%nat [1; 0]%nat
    (λ patchI, seq 0 (length (faceCells (boundary Line.mesh !!! patchI))))
    Grid.world
  = Procedure.specialised Line.mesh Grid.world
  ∧ Reordered.run Line.mesh (Templated.calcTheta Line.mesh)
      (λ sch, Templated.limitFace sch Line.mesh)
      (λ sch, Templated.limitPatchFace sch) [1; 0]%nat [1; 0]%nat
      (λ patchI, seq 0 (length (faceCells (boundary Line.mesh !!! patchI))))
      Grid.world2
    = Procedure.templated Line.mesh Grid.world2.
Proof.
  apply (calcLimiter_order_independent Line.mesh [1; 0]%nat [1; 0]%nat
           (λ patchI,
              seq 0 (length (faceCells (boundary Line.mesh !!! patchI))))
           Grid.world Grid.world2).
  - apply perm_swap.
  - apply perm_swap.
  - apply perm_swap.
  - intros patchI. reflexivity.
Defined.

